(** * Scattering functions of pbrt/bxdfs.cpp: a shallow embedding

    The development follows the layout of [src/pbrt/bxdfs.cpp]:

    - the binary tensor file loader ([Tensor::Tensor], [Tensor::field]),
    - the measured-BRDF resource builder ([MeasuredBxDFData::Create]) and its
      process-wide table ([MeasuredBxDF::BRDFDataFromFile]),
    - the scattering models ([DielectricBxDF], [HairBxDF], [MorphoBSDF],
      [MeasuredBxDF]) and the reflectance estimator [BxDF::rho].

    Conventions.  [Float] is the field of real numbers: rounding, infinities
    and NaN are not represented, and a division by zero yields [0] as in the
    Standard Library.  [size_t], [uint64_t] and the other unsigned integers
    are integers in [Z] whose wrap-around is written out.  A call that ends
    the process ([ErrorExit], a failed [CHECK]) is the outcome [Fatal]. *)

From Stdlib Require Import ZArith Lia List String Ascii Strings.Byte.
From Stdlib Require Import Reals Lra.
From stdpp Require Import gmap strings list list_numbers.

Local Open Scope Z_scope.

(** ** Outcomes of code that can end the process *)

Inductive outcome (A : Type) : Type :=
| Done (a : A)
| Fatal (msg : string).
Arguments Done {A} a.
Arguments Fatal {A} msg.

Definition is_Fatal {A} (o : outcome A) : Prop := exists msg, o = Fatal msg.

(** Equality of bytes, as [memcmp] and the comparisons of [uint8_t] decide
    it. *)
#[global] Instance byte_eq_decision : EqDecision byte :=
  fun x y =>
    match Byte.eqb x y as b return Byte.eqb x y = b -> Decision (x = y) with
    | true => fun H => left (Byte.byte_dec_bl x y H)
    | false => fun H => right (Byte.eqb_false H)
    end eq_refl.

(** ** Tensor file I/O *)

Module Tensor.

(** [enum Type]: the enumerators are numbered from [Invalid = 0]. *)
Inductive Type_ : Set :=
| Invalid
| UInt8 | Int8 | UInt16 | Int16 | UInt32 | Int32 | UInt64 | Int64
| Float16 | Float32 | Float64.

#[global] Instance Type_eq_dec : EqDecision Type_.
Proof. solve_decision. Defined.

Definition Type_code (t : Type_) : Z :=
  match t with
  | Invalid => 0
  | UInt8 => 1 | Int8 => 2 | UInt16 => 3 | Int16 => 4
  | UInt32 => 5 | Int32 => 6 | UInt64 => 7 | Int64 => 8
  | Float16 => 9 | Float32 => 10 | Float64 => 11
  end.

(** The cast [(Type)dtype] of a [uint8_t].  The loader only casts codes that
    passed its range check; any other code is mapped to [Invalid] here. *)
Definition Type_of_code (c : Z) : Type_ :=
  match c with
  | 1 => UInt8 | 2 => Int8 | 3 => UInt16 | 4 => Int16
  | 5 => UInt32 | 6 => Int32 | 7 => UInt64 | 8 => Int64
  | 9 => Float16 | 10 => Float32 | 11 => Float64
  | _ => Invalid
  end.

Definition type_size (value : Type_) : Z :=
  match value with
  | Invalid => 0
  | UInt8 => 1
  | Int8 => 1
  | UInt16 => 2
  | Int16 => 2
  | UInt32 => 4
  | Int32 => 4
  | UInt64 => 8
  | Int64 => 8
  | Float16 => 2
  | Float32 => 4
  | Float64 => 8
  end.

(** [operator<<(std::ostream &, Tensor::Type)]: the name that is printed. *)
Definition Type_name (value : Type_) : string :=
  match value with
  | Invalid => "invalid"
  | UInt8 => "uint8_t"
  | Int8 => "int8_t"
  | UInt16 => "uint16_t"
  | Int16 => "int16_t"
  | UInt32 => "uint32_t"
  | Int32 => "int8_t"
  | UInt64 => "uint64_t"
  | Int64 => "int64_t"
  | Float16 => "float16_t"
  | Float32 => "float32_t"
  | Float64 => "float64_t"
  end.

(** [struct Field]; [data] owns the payload bytes. *)
Record Field : Type := mkField {
  dtype : Type_;
  offset : Z;
  shape : list Z;
  data : list byte
}.

Record t : Type := mkTensor {
  m_fields : gmap string Field;
  m_filename : string;
  m_size : Z
}.

(** *** The C stream the constructor reads from *)

(** A stream opened for reading: the bytes of the file and the cursor. *)
Record FILE : Type := mkFILE {
  contents : list byte;
  cursor : Z
}.

Definition size_t_max : Z := 2 ^ 64.
Definition LONG_MAX : Z := 2 ^ 63 - 1.

(** The constructor's statements, each either continuing with a value and
    the stream or ending the process. *)
Definition io (A : Type) : Type := FILE -> outcome (A * FILE).

Definition ret {A} (a : A) : io A := fun f => Done (a, f).

Definition bind {A B} (m : io A) (k : A -> io B) : io B :=
  fun f => match m f with
           | Done (a, f') => k a f'
           | Fatal msg => Fatal msg
           end.

Notation "x <- m ;; k" := (bind m (fun x => k))
  (at level 100, m at next level, right associativity).
Notation "m ;;; k" := (bind m (fun _ => k))
  (at level 100, right associativity).

(** The macro [ASSERT(cond, msg)]. *)
Definition ASSERT (cond : bool) (msg : string) : io unit :=
  fun f => if cond then Done (tt, f) else Fatal msg.

(** [fread(ptr, 1, n, file)]: the bytes obtained, at most [n], fewer when the
    end of the file comes first; the cursor moves past them. *)
Definition fread (n : Z) (f : FILE) : list byte * FILE :=
  if (n <=? 0) || (Z.of_nat (length (contents f)) <=? cursor f)
  then ([], f)
  else
    let got := take (Z.to_nat n) (drop (Z.to_nat (cursor f)) (contents f)) in
    (got, mkFILE (contents f) (cursor f + Z.of_nat (length got))).

(** The macro [SAFE_READ(vars, size, count)], in bytes: the read must return
    the full count. *)
Definition SAFE_READ (n : Z) (what : string) : io (list byte) :=
  fun f =>
    let '(got, f') := fread n f in
    if Z.of_nat (length got) =? n then Done (got, f')
    else Fatal ("Unable to read " +:+ what +:+ ".").

(** [ftell]: the cursor, or [-1] when it does not fit a [long]. *)
Definition ftell (f : FILE) : Z :=
  if cursor f <=? LONG_MAX then cursor f else -1.

(** [fseek(file, off, SEEK_SET)] with [off] already converted to [long]:
    a negative position is refused with [-1]; any other position, also one
    past the end of the file, is accepted. *)
Definition fseek_set (off : Z) (f : FILE) : Z * FILE :=
  if off <? 0 then (-1, f) else (0, mkFILE (contents f) off).

(** The conversion of a [uint64_t] to [long]. *)
Definition to_long (u : Z) : Z :=
  if u <=? LONG_MAX then u else u - size_t_max.

Definition byte_to_Z (b : byte) : Z := Z.of_N (Byte.to_N b).

(** The value of an unsigned integer read byte by byte on a little-endian
    host. *)
Definition le_uint (bs : list byte) : Z :=
  little_endian_to_Z 8 (map byte_to_Z bs).

Definition magic : list byte :=
  list_byte_of_string "tensor_file" ++ [x00].

(** The dimension loop of the constructor: reads [ndim] sizes and multiplies
    them into [total_size], a [size_t]. *)
Fixpoint read_shape (ndim : nat) (total_size : Z) : io (list Z * Z) :=
  match ndim with
  | O => ret ([], total_size)
  | S j =>
      size_value <- SAFE_READ 8 "&size_value" ;;
      let d := le_uint size_value in
      r <- read_shape j ((total_size * d) mod size_t_max) ;;
      ret (d :: fst r, snd r)
  end.

(** The payload statements of an iteration: remember the cursor, seek to the
    field's offset, read [total_size] bytes, seek back. *)
Definition read_payload (offset total_size : Z) : io (list byte) :=
  cur_pos <- (fun f => Done (ftell f, f)) ;;
  ASSERT (negb (cur_pos =? -1)) "Unable to tell current cursor position." ;;;
  s <- (fun f => Done (fseek_set (to_long offset) f)) ;;
  ASSERT (negb (s =? -1)) "Unable to seek to tensor offset." ;;;
  data <- SAFE_READ total_size "data.get()" ;;
  s' <- (fun f => Done (fseek_set cur_pos f)) ;;
  ASSERT (negb (s' =? -1)) "Unable to seek back to current position" ;;;
  ret data.

(** One iteration of the field loop. *)
Definition read_field (fields : gmap string Field) : io (gmap string Field) :=
  name_length <- SAFE_READ 2 "&name_length" ;;
  name <- SAFE_READ (le_uint name_length) "(char *)name.data()" ;;
  ndim <- SAFE_READ 2 "&ndim" ;;
  dtype <- SAFE_READ 1 "&dtype" ;;
  offset <- SAFE_READ 8 "&offset" ;;
  let dtype := le_uint dtype in
  let offset := le_uint offset in
  ASSERT (negb (dtype =? Type_code Invalid) && (dtype <=? Type_code Float64))
         "Invalid tensor file: unknown type." ;;;
  r <- read_shape (Z.to_nat (le_uint ndim)) (type_size (Type_of_code dtype)) ;;
  let '(shape, total_size) := r in
  data <- read_payload offset total_size ;;
  ret (<[string_of_list_byte name := mkField (Type_of_code dtype) offset shape data]> fields).

Fixpoint read_fields (n_fields : nat) (fields : gmap string Field)
  : io (gmap string Field) :=
  match n_fields with
  | O => ret fields
  | S n => fields' <- read_field fields ;; read_fields n fields'
  end.

(** The body of the constructor once the file is open. *)
Definition load_stream : io (gmap string Field * Z) :=
  s <- (fun f => Done (fseek_set (Z.of_nat (length (contents f))) f)) ;;
  ASSERT (negb (s =? -1)) "Unable to seek to end of file." ;;;
  size <- (fun f => Done (ftell f, f)) ;;
  ASSERT (negb (size =? -1)) "Unable to tell file cursor position." ;;;
  (fun f => Done (tt, mkFILE (contents f) 0)) ;;;
  ASSERT (12 + 2 + 4 <=? size) "Invalid tensor file: too small, truncated?" ;;;
  header <- SAFE_READ 12 "header" ;;
  version <- SAFE_READ 2 "version" ;;
  n_fields <- SAFE_READ 4 "&n_fields" ;;
  ASSERT (bool_decide (header = magic)) "Invalid tensor file: invalid header." ;;;
  ASSERT (bool_decide (version = [x01; x00]))
         "Invalid tensor file: unknown file version." ;;;
  fields <- read_fields (Z.to_nat (le_uint n_fields)) ∅ ;;
  ret (fields, size).

(** [Tensor::Tensor(filename)]; [fs] gives the bytes of the files that can be
    opened for reading. *)
Definition Tensor (fs : string -> option (list byte)) (filename : string)
  : outcome t :=
  match fs filename with
  | None => Fatal "unable to open file"
  | Some bytes =>
      match load_stream (mkFILE bytes 0) with
      | Done ((fields, size), _) => Done (mkTensor fields filename size)
      | Fatal msg => Fatal msg
      end
  end.

(** [Tensor::has_field]. *)
Definition has_field (tf : t) (name : string) : bool :=
  bool_decide (is_Some (m_fields tf !! name)).

(** [Tensor::field]: the [CHECK] ends the process when the name is absent. *)
Definition field (tf : t) (name : string) : outcome Field :=
  match m_fields tf !! name with
  | Some fld => Done fld
  | None => Fatal "Check failed: it != m_fields.end()"
  end.

(** *** The file layout, as the format description gives it *)

Definition byte_of_Z (z : Z) : byte :=
  default x00 (Byte.of_N (Z.to_N (z mod 256))).

(** An unsigned integer of [k] bytes, least significant byte first. *)
Definition enc_uint (k : Z) (n : Z) : list byte :=
  map byte_of_Z (Z_to_little_endian k 8 n).

(** What the header records of one field. *)
Record field_header : Type := mkHeader {
  fh_name : list byte;
  fh_dtype : Z;
  fh_offset : Z;
  fh_shape : list Z
}.

(** name length, name, rank, dtype code, absolute offset, dimension sizes *)
Definition enc_field (fh : field_header) : list byte :=
  enc_uint 2 (Z.of_nat (length (fh_name fh))) ++ fh_name fh
  ++ enc_uint 2 (Z.of_nat (length (fh_shape fh)))
  ++ enc_uint 1 (fh_dtype fh)
  ++ enc_uint 8 (fh_offset fh)
  ++ concat (map (enc_uint 8) (fh_shape fh)).

(** magic, version 1.0, field count, then the fields *)
Definition enc_header (fhs : list field_header) : list byte :=
  magic ++ [x01; x00] ++ enc_uint 4 (Z.of_nat (length fhs))
  ++ concat (map enc_field fhs).

(** A dimension size is a [uint64_t]. *)
Definition dim_ok (d : Z) : Prop := 0 <= d < 2 ^ 64.

(** Every count and size fits the integer that stores it. *)
Definition layout_ok (fh : field_header) : Prop :=
  Z.of_nat (length (fh_name fh)) < 2 ^ 16
  /\ Z.of_nat (length (fh_shape fh)) < 2 ^ 16
  /\ 0 <= fh_dtype fh < 2 ^ 8
  /\ 0 <= fh_offset fh < 2 ^ 64
  /\ Forall dim_ok (fh_shape fh).

(** product(shape) x dtype_size, as a mathematical integer. *)
Definition payload_size (dtype : Type_) (shape : list Z) : Z :=
  type_size dtype * foldr Z.mul 1 shape.

(** [total_size] as the constructor accumulates it in a [size_t]. *)
Definition acc_dims (acc : Z) (shape : list Z) : Z :=
  foldl (fun acc d => (acc * d) mod size_t_max) acc shape.

Definition total_size (dtype : Type_) (shape : list Z) : Z :=
  acc_dims (type_size dtype) shape.

(** The bytes of a file from [off], [n] of them. *)
Definition slice (bytes : list byte) (off n : Z) : list byte :=
  take (Z.to_nat n) (drop (Z.to_nat off) bytes).

(** A field the format allows in a file of [len] bytes: a valid dtype code and
    a payload that lies inside the file. *)
Definition wf_field (len : Z) (fh : field_header) : Prop :=
  layout_ok fh
  /\ 1 <= fh_dtype fh <= 11
  /\ fh_offset fh + payload_size (Type_of_code (fh_dtype fh)) (fh_shape fh) <= len.

(** A well-formed tensor file: the header of some fields, then any bytes. *)
Definition wf_file (bytes : list byte) (fhs : list field_header) : Prop :=
  (exists rest, bytes = enc_header fhs ++ rest)
  /\ Z.of_nat (length fhs) < 2 ^ 32
  /\ Z.of_nat (length bytes) <= LONG_MAX
  /\ Forall (wf_field (Z.of_nat (length bytes))) fhs.

(** The field the loader stores for a header entry. *)
Definition field_of (bytes : list byte) (fh : field_header) : Field :=
  let ty := Type_of_code (fh_dtype fh) in
  mkField ty (fh_offset fh) (fh_shape fh)
          (slice bytes (fh_offset fh) (total_size ty (fh_shape fh))).

(** The table of a header: a later entry replaces an earlier one of the same
    name. *)
Definition fields_of (bytes : list byte) (fhs : list field_header)
  (init : gmap string Field) : gmap string Field :=
  foldl (fun m fh => <[string_of_list_byte (fh_name fh) := field_of bytes fh]> m)
        init fhs.

(** What the loader requires of a field beyond the layout: a valid dtype code,
    an offset that is a valid [long], and the payload, sized [total_size],
    inside the file unless it is empty. *)
Definition accepted_field (len : Z) (fh : field_header) : Prop :=
  layout_ok fh
  /\ 1 <= fh_dtype fh <= 11
  /\ fh_offset fh <= LONG_MAX
  /\ (total_size (Type_of_code (fh_dtype fh)) (fh_shape fh) = 0
      \/ fh_offset fh + total_size (Type_of_code (fh_dtype fh)) (fh_shape fh) <= len).

(** The stream whose cursor stands between [pre] and [suf]. *)
Definition stream_at (pre suf : list byte) : FILE :=
  mkFILE (pre ++ suf) (Z.of_nat (length pre)).

End Tensor.

(** ** The measured-BRDF resource *)

Module Measured.
Import Tensor.

(** The arguments a [PiecewiseLinear2D<N>] interpolant is constructed from.
    The interpolant itself belongs to pbrt/util/math.h and is used through
    its interface only.  [pl_flags] holds [normalize] and [build_cdf] when
    the call passes them. *)
Record PiecewiseLinear2D : Type := mkPL {
  pl_data : list byte;
  pl_xres : Z;
  pl_yres : Z;
  pl_param_res : list Z;
  pl_param_values : list (list byte);
  pl_flags : option (bool * bool)
}.

(** [struct MeasuredBxDFData]. *)
Record MeasuredBxDFData : Type := mkData {
  wavelengths : list (list byte);
  spectra : PiecewiseLinear2D;
  ndf : PiecewiseLinear2D;
  vndf : PiecewiseLinear2D;
  sigma : PiecewiseLinear2D;
  isotropic : bool;
  luminance : PiecewiseLinear2D;
  filename : string
}.

(** [shape[i]]; every use below follows a check of [shape.size()]. *)
Definition at_ (shape : list Z) (i : nat) : Z := nth i shape 0.

Definition size (shape : list Z) : Z := Z.of_nat (length shape).

Definition is_dtype (f : Field) (ty : Type_) : bool :=
  bool_decide (dtype f = ty).

(** The condition of the [if] in [Create], conjunct by conjunct. *)
Definition structure_ok
  (theta_i phi_i ndf sigma vndf spectra luminance wavelengths
     description jacobian : Field) : bool :=
  (size (shape description) =? 1) && is_dtype description UInt8 &&
  (size (shape theta_i) =? 1) && is_dtype theta_i Float32 &&
  (size (shape phi_i) =? 1) && is_dtype phi_i Float32 &&
  (size (shape wavelengths) =? 1) && is_dtype wavelengths Float32 &&
  (size (shape ndf) =? 2) && is_dtype ndf Float32 &&
  (size (shape sigma) =? 2) && is_dtype sigma Float32 &&
  (size (shape vndf) =? 4) && is_dtype vndf Float32 &&
  (at_ (shape vndf) 0 =? at_ (shape phi_i) 0) &&
  (at_ (shape vndf) 1 =? at_ (shape theta_i) 0) &&
  (size (shape luminance) =? 4) && is_dtype luminance Float32 &&
  (at_ (shape luminance) 0 =? at_ (shape phi_i) 0) &&
  (at_ (shape luminance) 1 =? at_ (shape theta_i) 0) &&
  (at_ (shape luminance) 2 =? at_ (shape luminance) 3) &&
  is_dtype spectra Float32 && (size (shape spectra) =? 5) &&
  (at_ (shape spectra) 0 =? at_ (shape phi_i) 0) &&
  (at_ (shape spectra) 1 =? at_ (shape theta_i) 0) &&
  (at_ (shape spectra) 2 =? at_ (shape wavelengths) 0) &&
  (at_ (shape spectra) 3 =? at_ (shape spectra) 4) &&
  (at_ (shape luminance) 2 =? at_ (shape spectra) 3) &&
  (at_ (shape luminance) 3 =? at_ (shape spectra) 4) &&
  (size (shape jacobian) =? 1) && (at_ (shape jacobian) 0 =? 1) &&
  is_dtype jacobian UInt8.

(** The conversion [(int)] of a [size_t]. *)
Definition to_int (x : Z) : Z := (x + 2 ^ 31) mod 2 ^ 32 - 2 ^ 31.

(** What a call of [Create] leaves behind when it returns: the pointer, null
    or not, and the messages passed to [Error]. *)
Record created : Type := mkCreated {
  resource : option MeasuredBxDFData;
  diagnostics : list string
}.

Definition obind {A B} (o : outcome A) (k : A -> outcome B) : outcome B :=
  match o with
  | Done a => k a
  | Fatal msg => Fatal msg
  end.

Notation "x <-- o ;; k" := (obind o (fun x => k))
  (at level 100, o at next level, right associativity).

Section Create.

(** The [float] stored in four bytes, and [std::rint]. *)
Variable float32 : list byte -> R.
Variable rint : R -> Z.

(** The [i]-th [float] of a buffer. *)
Definition float_at (data : list byte) (i : Z) : R :=
  float32 (slice data (4 * i) 4).

Definition wavelengths_of (data : list byte) (n : Z) : list (list byte) :=
  map (fun i => slice data (4 * Z.of_nat i) 4) (seq 0 (Z.to_nat n)).

(** [MeasuredBxDFData::Create(filename, alloc)]; the text of the tensor at
    the end of the [Error] message is left out. *)
Definition Create (fs : string -> option (list byte)) (filename : string)
  : outcome created :=
  tf <-- Tensor fs filename ;;
  theta_i <-- field tf "theta_i" ;;
  phi_i <-- field tf "phi_i" ;;
  ndf <-- field tf "ndf" ;;
  sigma <-- field tf "sigma" ;;
  vndf <-- field tf "vndf" ;;
  spectra <-- field tf "spectra" ;;
  luminance <-- field tf "luminance" ;;
  wavelengths <-- field tf "wavelengths" ;;
  description <-- field tf "description" ;;
  jacobian <-- field tf "jacobian" ;;
  if negb (structure_ok theta_i phi_i ndf sigma vndf spectra luminance
                        wavelengths description jacobian)
  then Done (mkCreated None [filename +:+ ": invalid BRDF file structure: "])
  else
    let isotropic := at_ (shape phi_i) 0 <=? 2 in
    _ <-- (if negb isotropic then
             let reduction :=
               to_int (rint (2 * PI / (float_at (data phi_i) (at_ (shape phi_i) 0 - 1)
                                       - float_at (data phi_i) 0))%R) in
             if negb (reduction =? 1)
             then Fatal (filename +:+ ": reduction (!= 1) not supported")
             else Done tt
           else Done tt) ;;
    let params2 := [to_int (at_ (shape phi_i) 0); to_int (at_ (shape theta_i) 0)] in
    let values2 := [data phi_i; data theta_i] in
    Done (mkCreated (Some {|
      ndf := mkPL (data ndf) (at_ (shape ndf) 1) (at_ (shape ndf) 0) [] []
                  (Some (false, false));
      sigma := mkPL (data sigma) (at_ (shape sigma) 1) (at_ (shape sigma) 0) [] []
                    (Some (false, false));
      vndf := mkPL (data vndf) (at_ (shape vndf) 3) (at_ (shape vndf) 2)
                   params2 values2 None;
      luminance := mkPL (data luminance) (at_ (shape luminance) 3)
                        (at_ (shape luminance) 2) params2 values2 None;
      wavelengths := wavelengths_of (data wavelengths) (at_ (shape wavelengths) 0);
      spectra := mkPL (data spectra) (at_ (shape spectra) 4) (at_ (shape spectra) 3)
                      (params2 ++ [to_int (at_ (shape wavelengths) 0)])
                      (values2 ++ [data wavelengths])
                      (Some (false, false));
      isotropic := isotropic;
      filename := filename
    |}) []).

(** *** The table of loaded resources *)

(** The static [loadedData] map, and a log of the calls of [Create], in the
    order they were made. *)
Record cache : Type := mkCache {
  loadedData : gmap string (option MeasuredBxDFData);
  builds : list string;
  errors : list string
}.

Definition init_cache : cache := mkCache ∅ [] [].

(** [MeasuredBxDF::BRDFDataFromFile(filename, alloc)], run to its end
    without another call in between.  [fs] is the file system at the time
    of the call. *)
Definition BRDFDataFromFile (fs : string -> option (list byte))
  (filename : string) (c : cache)
  : outcome (option MeasuredBxDFData * cache) :=
  c' <-- (match loadedData c !! filename with
          | None =>
              r <-- Create fs filename ;;
              Done (mkCache (<[filename := resource r]> (loadedData c))
                            (builds c ++ [filename])
                            (errors c ++ diagnostics r))
          | Some _ => Done c
          end) ;;
  (* [loadedData[filename]] *)
  Done (default None (loadedData c' !! filename), c').

(** *** Calls that overlap *)

(** Where a thread stands inside [BRDFDataFromFile]: before the [find],
    before [Create], before the assignment to [loadedData[filename]] with
    the pointer [Create] returned, before the final lookup, or returned. *)
Inductive pc : Type :=
| AtFind
| AtCreate
| AtStore (r : created)
| AtReturn
| Returned (result : option MeasuredBxDFData).

Record thread : Type := mkThread {
  request : string;
  at_pc : pc
}.

(** One statement of one thread, on the shared table. *)
Inductive thread_step (fs : string -> option (list byte))
  : cache * thread -> cache * thread -> Prop :=
| step_find_miss c name :
    loadedData c !! name = None ->
    thread_step fs (c, mkThread name AtFind) (c, mkThread name AtCreate)
| step_find_hit c name v :
    loadedData c !! name = Some v ->
    thread_step fs (c, mkThread name AtFind) (c, mkThread name AtReturn)
| step_create c name r :
    Create fs name = Done r ->
    thread_step fs (c, mkThread name AtCreate)
                   (mkCache (loadedData c) (builds c ++ [name])
                            (errors c ++ diagnostics r),
                    mkThread name (AtStore r))
| step_store c name r :
    thread_step fs (c, mkThread name (AtStore r))
                   (mkCache (<[name := resource r]> (loadedData c))
                            (builds c) (errors c),
                    mkThread name AtReturn)
| step_return c name :
    thread_step fs (c, mkThread name AtReturn)
                   (c, mkThread name
                         (Returned (default None (loadedData c !! name)))).

(** The threads of the process take their statements in any order. *)
Inductive step (fs : string -> option (list byte))
  : cache * list thread -> cache * list thread -> Prop :=
| step_thread c c' ts1 t t' ts2 :
    thread_step fs (c, t) (c', t') ->
    step fs (c, ts1 ++ t :: ts2) (c', ts1 ++ t' :: ts2).

Inductive steps (fs : string -> option (list byte))
  : cache * list thread -> cache * list thread -> Prop :=
| steps_refl s : steps fs s s
| steps_step s1 s2 s3 : step fs s1 s2 -> steps fs s2 s3 -> steps fs s1 s3.

(** A sequence of requests served one after the other, each with the file
    system of its time. *)
Fixpoint serve (reqs : list ((string -> option (list byte)) * string))
  (c : cache) : outcome (list (option MeasuredBxDFData) * cache) :=
  match reqs with
  | [] => Done ([], c)
  | (fs, name) :: reqs =>
      r <-- BRDFDataFromFile fs name c ;;
      rs <-- serve reqs (snd r) ;;
      Done (fst r :: fst rs, snd rs)
  end.

End Create.

(** *** Three small files *)

Definition entry (name : string) (ty : Type_) (shape : list Z) : field_header :=
  mkHeader (list_byte_of_string name) (Type_code ty) 0 shape.

(** A header with the ten fields of a measured BRDF, one sample along every
    axis.  Every payload is at offset 0: payloads may overlap. *)
Definition measured_entries : list field_header :=
  [entry "description" UInt8 [1]; entry "theta_i" Float32 [1];
   entry "phi_i" Float32 [1]; entry "wavelengths" Float32 [1];
   entry "ndf" Float32 [1; 1]; entry "sigma" Float32 [1; 1];
   entry "vndf" Float32 [1; 1; 1; 1]; entry "luminance" Float32 [1; 1; 1; 1];
   entry "spectra" Float32 [1; 1; 1; 1; 1]; entry "jacobian" UInt8 [1]].

Definition measured_file : list byte := enc_header measured_entries.

(** The same without the field [vndf]. *)
Definition file_without_vndf : list byte :=
  enc_header (filter (fun fh => fh_name fh <> list_byte_of_string "vndf")
                     measured_entries).

(** The same with a [spectra] of rank 4. *)
Definition file_with_flat_spectra : list byte :=
  enc_header (map (fun fh =>
                     if bool_decide (fh_name fh = list_byte_of_string "spectra")
                     then entry "spectra" Float32 [1; 1; 1; 1] else fh)
                  measured_entries).

(** The same with three samples of the azimuth. *)
Definition anisotropic_file : list byte :=
  enc_header
    [entry "description" UInt8 [1]; entry "theta_i" Float32 [1];
     entry "phi_i" Float32 [3]; entry "wavelengths" Float32 [1];
     entry "ndf" Float32 [1; 1]; entry "sigma" Float32 [1; 1];
     entry "vndf" Float32 [3; 1; 1; 1]; entry "luminance" Float32 [3; 1; 1; 1];
     entry "spectra" Float32 [3; 1; 1; 1; 1]; entry "jacobian" UInt8 [1]].

(** The ten names [Create] looks up, in the order of the lookups. *)
Definition required_fields : list string :=
  ["theta_i"; "phi_i"; "ndf"; "sigma"; "vndf"; "spectra"; "luminance";
   "wavelengths"; "description"; "jacobian"]%string.

(** How often a path was passed to [Create]. *)
Definition build_count (name : string) (c : cache) : nat :=
  length (filter (fun n => n = name) (builds c)).

(** Each path in the table went through [Create] once, every other path
    never. *)
Definition cache_inv (c : cache) : Prop :=
  forall name,
    build_count name c = match loadedData c !! name with
                         | Some _ => 1%nat
                         | None => 0%nat
                         end.

End Measured.

(** ** Numbers, directions and spectra of the scattering models *)

Local Open Scope R_scope.

(** [Float] *)
Abbreviation Float := R.

Definition Pi : Float := PI.

Definition Sqr (v : Float) : Float := v * v.

(** The comparisons of the source, as booleans. *)
Definition ltb (a b : Float) : bool := if Rlt_dec a b then true else false.
Definition leb (a b : Float) : bool := if Rle_dec a b then true else false.
Definition eqb (a b : Float) : bool := if Req_dec_T a b then true else false.

Infix "<?" := ltb : R_scope.
Infix "<=?" := leb : R_scope.
Infix "=?" := eqb : R_scope.

(** [std::atan2]: the angle of the point [(x, y)], in [(-PI, PI]], and [0] at
    the origin. *)
Definition atan2 (y x : Float) : Float :=
  if 0 <? x then atan (y / x)
  else if x <? 0 then (if 0 <=? y then atan (y / x) + PI else atan (y / x) - PI)
  else if 0 <? y then PI / 2
  else if y <? 0 then - (PI / 2)
  else 0.

(** [Vector3f], and [Normal3f] which has the same components. *)
Record Vector3f : Type := mkVector3f { x : Float; y : Float; z : Float }.

Definition Point2f : Type := (Float * Float)%type.

(** The vector helpers of pbrt/util/vecmath.h and pbrt/util/scattering.h are
    not among the sources; they are the usual operations of vector algebra in
    the local shading frame, whose [z] axis is the surface normal. *)
Definition vneg (v : Vector3f) : Vector3f :=
  mkVector3f (- v.(x)) (- v.(y)) (- v.(z)).

Definition vadd (a b : Vector3f) : Vector3f :=
  mkVector3f (a.(x) + b.(x)) (a.(y) + b.(y)) (a.(z) + b.(z)).

Definition vscale (v : Vector3f) (c : Float) : Vector3f :=
  mkVector3f (v.(x) * c) (v.(y) * c) (v.(z) * c).

Definition vdiv (v : Vector3f) (c : Float) : Vector3f :=
  mkVector3f (v.(x) / c) (v.(y) / c) (v.(z) / c).

Definition Dot (a b : Vector3f) : Float :=
  a.(x) * b.(x) + a.(y) * b.(y) + a.(z) * b.(z).

Definition AbsDot (a b : Vector3f) : Float := Rabs (Dot a b).

Definition LengthSquared (v : Vector3f) : Float := Dot v v.

Definition Length (v : Vector3f) : Float := sqrt (LengthSquared v).

Definition Normalize (v : Vector3f) : Vector3f := vdiv v (Length v).

Definition FaceForward (v n2 : Vector3f) : Vector3f :=
  if Dot v n2 <? 0 then vneg v else v.

Definition Reflect (wo n : Vector3f) : Vector3f :=
  vadd (vneg wo) (vscale n (2 * Dot wo n)).

Definition CosTheta (w : Vector3f) : Float := w.(z).

Definition AbsCosTheta (w : Vector3f) : Float := Rabs w.(z).

Definition SameHemisphere (w wp : Vector3f) : bool := 0 <? w.(z) * wp.(z).

(** [enum class TransportMode] *)
Inductive TransportMode : Set := Radiance | Importance.

(** [enum class BxDFReflTransFlags], a set of bits. *)
Module BxDFReflTransFlags.
Definition t : Type := Z.
Definition Unset : t := 0%Z.
Definition Reflection : t := Z.shiftl 1 0.
Definition Transmission : t := Z.shiftl 1 1.
Definition All : t := Z.lor Reflection Transmission.
(** [flags & bit], read as a condition. *)
Definition has (flags bit : t) : bool := negb (Z.eqb (Z.land flags bit) 0).
End BxDFReflTransFlags.

(** [enum BxDFFlags], a set of bits. *)
Module BxDFFlags.
Definition t : Type := Z.
Definition Unset : t := 0%Z.
Definition Reflection : t := Z.shiftl 1 0.
Definition Transmission : t := Z.shiftl 1 1.
Definition Diffuse : t := Z.shiftl 1 2.
Definition Glossy : t := Z.shiftl 1 3.
Definition Specular : t := Z.shiftl 1 4.
Definition GlossyReflection : t := Z.lor Glossy Reflection.
Definition GlossyTransmission : t := Z.lor Glossy Transmission.
Definition SpecularReflection : t := Z.lor Specular Reflection.
Definition SpecularTransmission : t := Z.lor Specular Transmission.
End BxDFFlags.

(** [SampledSpectrum]: one value per wavelength sample. *)
(** [ToString(BxDFReflTransFlags)], [ToString(BxDFFlags)] and
    [ToString(TransportMode)]. *)
Module Printing.

Definition add_if (c : bool) (s piece : string) : string :=
  if c then String.append s piece else s.

Definition ToString_ReflTrans (flags : BxDFReflTransFlags.t) : string :=
  if Z.eqb flags BxDFReflTransFlags.Unset then "Unset"%string
  else
    let s := ""%string in
    let s := add_if (BxDFReflTransFlags.has flags BxDFReflTransFlags.Reflection)
                    s "Reflection," in
    let s := add_if (BxDFReflTransFlags.has flags BxDFReflTransFlags.Transmission)
                    s "Transmission," in
    s.

Definition ToString_BxDFFlags (flags : BxDFFlags.t) : string :=
  if Z.eqb flags BxDFFlags.Unset then "Unset"%string
  else
    let has bit := negb (Z.eqb (Z.land flags bit) 0) in
    let s := ""%string in
    let s := add_if (has BxDFFlags.Reflection) s "Reflection," in
    let s := add_if (has BxDFFlags.Transmission) s "Transmission," in
    let s := add_if (has BxDFFlags.Diffuse) s "Diffuse," in
    let s := add_if (has BxDFFlags.Glossy) s "Glossy," in
    let s := add_if (has BxDFFlags.Specular) s "Specular," in
    s.

Definition ToString_TransportMode (mode : TransportMode) : string :=
  match mode with
  | Radiance => "Radiance"%string
  | Importance => "Importance"%string
  end.

End Printing.

Module SampledSpectrum.
Definition t : Type := list Float.
(** [SampledSpectrum(c)] with [n] samples *)
Definition const (n : nat) (c : Float) : t := repeat c n.
Definition map (g : Float -> Float) (s : t) : t := List.map g s.
Definition zip (g : Float -> Float -> Float) (a b : t) : t :=
  List.map (fun p => g (fst p) (snd p)) (combine a b).
Definition add : t -> t -> t := zip Rplus.
Definition mul : t -> t -> t := zip Rmult.
Definition scale (s : t) (c : Float) : t := map (fun v => v * c) s.
Definition div (s : t) (c : Float) : t := map (fun v => v / c) s.
Definition sum (s : t) : Float := fold_right Rplus 0 s.
Definition Average (s : t) : Float := sum s / INR (length s).
End SampledSpectrum.

(** [struct BSDFSample] *)
Module BSDFSample.
Record t : Type := mk {
  f : SampledSpectrum.t;
  wi : Vector3f;
  pdf : Float;
  flags : BxDFFlags.t;
  eta : Float
}.
End BSDFSample.

(** ** DielectricBxDF *)

Module Dielectric.

(** The probability of a branch after the sample filter, in the words of the
    description: kept when the filter asks for the branch, zero otherwise. *)
Definition masked (sampleFlags bit : BxDFReflTransFlags.t) (p : Float) : Float :=
  if BxDFReflTransFlags.has sampleFlags bit then p else 0.

(** The microfacet distribution the model holds, through the methods it
    calls. *)
Record TrowbridgeReitzDistribution : Type := mkDistrib {
  EffectivelySmooth : bool;
  Sample_wm : Vector3f -> Point2f -> Vector3f;
  D : Vector3f -> Float;
  G : Vector3f -> Vector3f -> Float;
  PDF_wm : Vector3f -> Vector3f -> Float
}.

Record DielectricBxDF : Type := mkDielectric {
  eta : Float;
  mfDistrib : TrowbridgeReitzDistribution
}.

(** The relative index [etap] that [f] and [PDF] use for a pair of
    directions, and their generalized half vector before normalization. *)
Definition relative_index (eta : Float) (wo wi : Vector3f) : Float :=
  if negb (0 <? CosTheta wi * CosTheta wo)
  then (if 0 <? CosTheta wo then eta else 1 / eta)
  else 1.

Definition half_vector (eta : Float) (wo wi : Vector3f) : Vector3f :=
  vadd (vscale wi (relative_index eta wo wi)) wo.

Section Dielectric.

(** The number of wavelength samples, the Fresnel reflectance
    [FrDielectric(cosTheta_i, eta)] and the refraction
    [Refract(wi, n, eta, &etap, &wt)], which gives [etap] and [wt] when it
    returns [true]: all three come from headers outside the sources. *)
Variable NSpectrumSamples : nat.
Variable FrDielectric : Float -> Float -> Float.
Variable Refract : Vector3f -> Vector3f -> Float -> option (Float * Vector3f).

Variable bxdf : DielectricBxDF.

Definition Sample_f (wo : Vector3f) (uc : Float) (u : Point2f)
  (mode : TransportMode) (sampleFlags : BxDFReflTransFlags.t)
  : option BSDFSample.t :=
  if (bxdf.(eta) =? 1) || bxdf.(mfDistrib).(EffectivelySmooth) then
    (* Sample perfect specular dielectric BSDF *)
    let R := FrDielectric (CosTheta wo) bxdf.(eta) in
    let T := 1 - R in
    let pr := if negb (BxDFReflTransFlags.has sampleFlags BxDFReflTransFlags.Reflection)
              then 0 else R in
    let pt := if negb (BxDFReflTransFlags.has sampleFlags BxDFReflTransFlags.Transmission)
              then 0 else T in
    if (pr =? 0) && (pt =? 0) then None
    else if uc <? pr / (pr + pt) then
      let wi := mkVector3f (- wo.(x)) (- wo.(y)) wo.(z) in
      let fr := SampledSpectrum.const NSpectrumSamples (R / AbsCosTheta wi) in
      Some (BSDFSample.mk fr wi (pr / (pr + pt)) BxDFFlags.SpecularReflection 1)
    else
      match Refract wo (mkVector3f 0 0 1) bxdf.(eta) with
      | None => None
      | Some (etap, wi) =>
          let ft := SampledSpectrum.const NSpectrumSamples (T / AbsCosTheta wi) in
          let ft := match mode with
                    | Radiance => SampledSpectrum.div ft (Sqr etap)
                    | Importance => ft
                    end in
          Some (BSDFSample.mk ft wi (pt / (pr + pt))
                              BxDFFlags.SpecularTransmission etap)
      end
  else
    (* Sample rough dielectric BSDF *)
    let wm := bxdf.(mfDistrib).(Sample_wm) wo u in
    let R := FrDielectric (Dot wo wm) bxdf.(eta) in
    let T := 1 - R in
    let pr := if negb (BxDFReflTransFlags.has sampleFlags BxDFReflTransFlags.Reflection)
              then 0 else R in
    let pt := if negb (BxDFReflTransFlags.has sampleFlags BxDFReflTransFlags.Transmission)
              then 0 else T in
    if (pr =? 0) && (pt =? 0) then None
    else if uc <? pr / (pr + pt) then
      let wi := Reflect wo wm in
      if negb (SameHemisphere wo wi) then None
      else
        let pdf := bxdf.(mfDistrib).(PDF_wm) wo wm / (4 * AbsDot wo wm)
                   * pr / (pr + pt) in
        let f := SampledSpectrum.const NSpectrumSamples
                   (bxdf.(mfDistrib).(D) wm * bxdf.(mfDistrib).(G) wo wi * R
                    / (4 * CosTheta wi * CosTheta wo)) in
        Some (BSDFSample.mk f wi pdf BxDFFlags.GlossyReflection 1)
    else
      match Refract wo wm bxdf.(eta) with
      | None => None
      | Some (etap, wi) =>
          if SameHemisphere wo wi || (wi.(z) =? 0) then None
          else
            let denom := Sqr (Dot wi wm + Dot wo wm / etap) in
            let dwm_dwi := AbsDot wi wm / denom in
            let pdf := bxdf.(mfDistrib).(PDF_wm) wo wm * dwm_dwi * pt / (pr + pt) in
            let ft := SampledSpectrum.const NSpectrumSamples
                        (T * bxdf.(mfDistrib).(D) wm * bxdf.(mfDistrib).(G) wo wi
                         * Rabs (Dot wi wm * Dot wo wm
                                 / (CosTheta wi * CosTheta wo * denom))) in
            let ft := match mode with
                      | Radiance => SampledSpectrum.div ft (Sqr etap)
                      | Importance => ft
                      end in
            Some (BSDFSample.mk ft wi pdf BxDFFlags.GlossyTransmission etap)
      end.

Definition f (wo wi : Vector3f) (mode : TransportMode) : SampledSpectrum.t :=
  if (bxdf.(eta) =? 1) || bxdf.(mfDistrib).(EffectivelySmooth) then
    SampledSpectrum.const NSpectrumSamples 0
  else
    (* Compute generalized half vector _wm_ *)
    let cosTheta_o := CosTheta wo in
    let cosTheta_i := CosTheta wi in
    let reflect := 0 <? cosTheta_i * cosTheta_o in
    let etap := if negb reflect
                then (if 0 <? cosTheta_o then bxdf.(eta) else 1 / bxdf.(eta))
                else 1 in
    let wm := vadd (vscale wi etap) wo in
    if (cosTheta_i =? 0) || (cosTheta_o =? 0) || (LengthSquared wm =? 0) then
      SampledSpectrum.const NSpectrumSamples 0
    else
      let wm := FaceForward (Normalize wm) (mkVector3f 0 0 1) in
      (* Discard backfacing microfacets *)
      if (Dot wm wi * cosTheta_i <? 0) || (Dot wm wo * cosTheta_o <? 0) then
        SampledSpectrum.const NSpectrumSamples 0
      else
        let F := FrDielectric (Dot wo wm) bxdf.(eta) in
        if reflect then
          SampledSpectrum.const NSpectrumSamples
            (bxdf.(mfDistrib).(D) wm * bxdf.(mfDistrib).(G) wo wi * F
             / Rabs (4 * cosTheta_i * cosTheta_o))
        else
          let denom := Sqr (Dot wi wm + Dot wo wm / etap) * cosTheta_i * cosTheta_o in
          let ft := bxdf.(mfDistrib).(D) wm * (1 - F) * bxdf.(mfDistrib).(G) wo wi
                    * Rabs (Dot wi wm * Dot wo wm / denom) in
          let ft := match mode with
                    | Radiance => ft / Sqr etap
                    | Importance => ft
                    end in
          SampledSpectrum.const NSpectrumSamples ft.

(** [DielectricBxDF::PDF] *)
Definition PDF (wo wi : Vector3f) (mode : TransportMode)
  (sampleFlags : BxDFReflTransFlags.t) : Float :=
  if (bxdf.(eta) =? 1) || bxdf.(mfDistrib).(EffectivelySmooth) then 0
  else
    (* Compute generalized half vector _wm_ *)
    let cosTheta_o := CosTheta wo in
    let cosTheta_i := CosTheta wi in
    let reflect := 0 <? cosTheta_i * cosTheta_o in
    let etap := if negb reflect
                then (if 0 <? cosTheta_o then bxdf.(eta) else 1 / bxdf.(eta))
                else 1 in
    let wm := vadd (vscale wi etap) wo in
    if (cosTheta_i =? 0) || (cosTheta_o =? 0) || (LengthSquared wm =? 0) then 0
    else
      let wm := FaceForward (Normalize wm) (mkVector3f 0 0 1) in
      (* Discard backfacing microfacets *)
      if (Dot wm wi * cosTheta_i <? 0) || (Dot wm wo * cosTheta_o <? 0) then 0
      else
        let R := FrDielectric (Dot wo wm) bxdf.(eta) in
        let T := 1 - R in
        let pr := if negb (BxDFReflTransFlags.has sampleFlags
                             BxDFReflTransFlags.Reflection)
                  then 0 else R in
        let pt := if negb (BxDFReflTransFlags.has sampleFlags
                             BxDFReflTransFlags.Transmission)
                  then 0 else T in
        if (pr =? 0) && (pt =? 0) then 0
        else if reflect then
          bxdf.(mfDistrib).(PDF_wm) wo wm / (4 * AbsDot wo wm) * pr / (pr + pt)
        else
          let denom := Sqr (Dot wi wm + Dot wo wm / etap) in
          let dwm_dwi := AbsDot wi wm / denom in
          bxdf.(mfDistrib).(PDF_wm) wo wm * dwm_dwi * pt / (pr + pt).

(** What [f] computes for a rough interface once the pair of directions is
    known to lie on opposite sides, with the relative index [etap] it then
    uses. *)
Definition transmission (etap : Float) (wo wi : Vector3f) (mode : TransportMode)
  : SampledSpectrum.t :=
  let cosTheta_o := CosTheta wo in
  let cosTheta_i := CosTheta wi in
  let wm := vadd (vscale wi etap) wo in
  if (cosTheta_i =? 0) || (cosTheta_o =? 0) || (LengthSquared wm =? 0) then
    SampledSpectrum.const NSpectrumSamples 0
  else
    let wm := FaceForward (Normalize wm) (mkVector3f 0 0 1) in
    if (Dot wm wi * cosTheta_i <? 0) || (Dot wm wo * cosTheta_o <? 0) then
      SampledSpectrum.const NSpectrumSamples 0
    else
      let F := FrDielectric (Dot wo wm) bxdf.(eta) in
      let denom := Sqr (Dot wi wm + Dot wo wm / etap) * cosTheta_i * cosTheta_o in
      let ft := bxdf.(mfDistrib).(D) wm * (1 - F) * bxdf.(mfDistrib).(G) wo wi
                * Rabs (Dot wi wm * Dot wo wm / denom) in
      let ft := match mode with
                | Radiance => ft / Sqr etap
                | Importance => ft
                end in
      SampledSpectrum.const NSpectrumSamples ft.

End Dielectric.

(** The microfacet normal [f] works with: the generalized half vector,
    normalized and turned to the side of the surface normal. *)
Definition microfacet_normal (eta : Float) (wo wi : Vector3f) : Vector3f :=
  FaceForward (Normalize (half_vector eta wo wi)) (mkVector3f 0 0 1).

End Dielectric.

(** ** HairBxDF *)

Module Hair.

(** What the hair model takes from headers outside the sources: the number of
    lobes [pMax] and of wavelength samples, the longitudinal and azimuthal
    lobe functions [Mp] and [Np], the phase [Phi], the attenuations
    [Ap(cosTheta_o, eta, h, T)] as an array indexed from [0] to [pMax], the
    samplers, the clamped [SafeSqrt] and [SafeASin], [FastExp], and the
    value of [Flags()]. *)
Record Helpers : Type := mkHelpers {
  pMax : nat;
  NSpectrumSamples : nat;
  Mp : Float -> Float -> Float -> Float -> Float -> Float;
  Np : Float -> nat -> Float -> Float -> Float -> Float;
  Phi : nat -> Float -> Float -> Float;
  Ap : Float -> Float -> Float -> SampledSpectrum.t -> nat -> SampledSpectrum.t;
  SampleDiscrete : list Float -> Float -> nat * Float;
  SampleTrimmedLogistic : Float -> Float -> Float -> Float -> Float;
  SafeSqrt : Float -> Float;
  SafeASin : Float -> Float;
  FastExp : Float -> Float;
  Flags : BxDFFlags.t
}.

(** The members of [HairBxDF]; [v] has [pMax + 1] entries, [sin2kAlpha] and
    [cos2kAlpha] have [pMax]. *)
Record HairBxDF : Type := mkHair {
  h : Float;
  eta : Float;
  sigma_a : SampledSpectrum.t;
  beta_m : Float;
  beta_n : Float;
  v : list Float;
  s : Float;
  sin2kAlpha : list Float;
  cos2kAlpha : list Float
}.

(** [a[i]] *)
Definition idx (a : list Float) (i : nat) : Float := nth i a 0.

(** [Exp(s)] of a spectrum *)
Definition Exp (sp : SampledSpectrum.t) : SampledSpectrum.t :=
  SampledSpectrum.map exp sp.

Definition Radians (deg : Float) : Float := Pi / 180 * deg.

Section Hair.

Variable H : Helpers.

(** The recurrence of the constructor for the doubled tilt angles: the lists
    of [sin2kAlpha] and [cos2kAlpha], latest entry first. *)
Fixpoint tilt_terms (n : nat) (sin0 cos0 : Float) : list Float * list Float :=
  match n with
  | O => ([sin0], [cos0])
  | S n' =>
      let '(sins, coss) := tilt_terms n' sin0 cos0 in
      let sp := hd 0 sins in
      let cp := hd 0 coss in
      (2 * cp * sp :: sins, Sqr cp - Sqr sp :: coss)
  end.

(** [HairBxDF::HairBxDF] *)
Definition HairBxDF_new (h eta : Float) (sigma_a : SampledSpectrum.t)
  (beta_m beta_n alpha : Float) : outcome HairBxDF :=
  if negb ((-1 <=? h) && (h <=? 1)) then Fatal "Check failed: h >= -1 && h <= 1"
  else if negb ((0 <=? beta_m) && (beta_m <=? 1))
  then Fatal "Check failed: beta_m >= 0 && beta_m <= 1"
  else if negb ((0 <=? beta_n) && (beta_n <=? 1))
  then Fatal "Check failed: beta_n >= 0 && beta_n <= 1"
  else
    let v0 := Sqr (0.726 * beta_m + 0.812 * Sqr beta_m + 3.7 * beta_m ^ 20) in
    let v1 := 0.25 * v0 in
    let v2 := 4 * v0 in
    let v := [v0; v1; v2] ++ repeat v2 (H.(pMax) - 2) in
    let SqrtPiOver8 := 0.626657069 in
    let s := SqrtPiOver8
             * (0.265 * beta_n + 1.194 * Sqr beta_n + 5.372 * beta_n ^ 22) in
    let sin0 := sin (Radians alpha) in
    let cos0 := H.(SafeSqrt) (1 - Sqr sin0) in
    let '(sins, coss) := tilt_terms (H.(pMax) - 1) sin0 cos0 in
    Done (mkHair h eta sigma_a beta_m beta_n v s (rev sins) (rev coss)).

(** [HairBxDF::SigmaAFromReflectance]; the wavelengths are not used. *)
Definition SigmaAFromReflectance (c : SampledSpectrum.t) (beta_n : Float)
  : SampledSpectrum.t :=
  List.map
    (fun i =>
       Sqr (ln (idx c i)
            / (5.969 - 0.215 * beta_n + 2.532 * Sqr beta_n
               - 10.73 * beta_n ^ 3 + 5.574 * beta_n ^ 4 + 0.245 * beta_n ^ 5)))
    (seq 0 H.(NSpectrumSamples)).

Variable bxdf : HairBxDF.

(** The angles of the scales for lobe [p], written out in [f], [Sample_f]
    and [PDF] alike: [(sinThetap_o, cosThetap_o)] before the absolute
    value. *)
Definition scale_tilt (p : nat) (sinTheta_o cosTheta_o : Float) : Float * Float :=
  match p with
  | 0%nat =>
      (sinTheta_o * idx bxdf.(cos2kAlpha) 1 - cosTheta_o * idx bxdf.(sin2kAlpha) 1,
       cosTheta_o * idx bxdf.(cos2kAlpha) 1 + sinTheta_o * idx bxdf.(sin2kAlpha) 1)
  | 1%nat =>
      (sinTheta_o * idx bxdf.(cos2kAlpha) 0 + cosTheta_o * idx bxdf.(sin2kAlpha) 0,
       cosTheta_o * idx bxdf.(cos2kAlpha) 0 - sinTheta_o * idx bxdf.(sin2kAlpha) 0)
  | 2%nat =>
      (sinTheta_o * idx bxdf.(cos2kAlpha) 2 + cosTheta_o * idx bxdf.(sin2kAlpha) 2,
       cosTheta_o * idx bxdf.(cos2kAlpha) 2 - sinTheta_o * idx bxdf.(sin2kAlpha) 2)
  | _ => (sinTheta_o, cosTheta_o)
  end.

(** [gamma_t] for the refracted ray, from [sinTheta_o] and [cosTheta_o]. *)
Definition sinGamma_t_of (sinTheta_o cosTheta_o : Float) : Float :=
  let etap := H.(SafeSqrt) (Sqr bxdf.(eta) - Sqr sinTheta_o) / cosTheta_o in
  bxdf.(h) / etap.

(** The transmittance [T] of a single path through the cylinder. *)
Definition transmittance (sinTheta_o cosTheta_o : Float) : SampledSpectrum.t :=
  let sinTheta_t := sinTheta_o / bxdf.(eta) in
  let cosTheta_t := H.(SafeSqrt) (1 - Sqr sinTheta_t) in
  let sinGamma_t := sinGamma_t_of sinTheta_o cosTheta_o in
  let cosGamma_t := H.(SafeSqrt) (1 - Sqr sinGamma_t) in
  Exp (SampledSpectrum.scale (SampledSpectrum.map Ropp bxdf.(sigma_a))
                             (2 * cosGamma_t / cosTheta_t)).

(** [HairBxDF::f] *)
Definition f (wo wi : Vector3f) (mode : TransportMode) : SampledSpectrum.t :=
  let sinTheta_o := wo.(x) in
  let cosTheta_o := H.(SafeSqrt) (1 - Sqr sinTheta_o) in
  let phi_o := atan2 wo.(z) wo.(y) in
  let gamma_o := H.(SafeASin) bxdf.(h) in
  let sinTheta_i := wi.(x) in
  let cosTheta_i := H.(SafeSqrt) (1 - Sqr sinTheta_i) in
  let phi_i := atan2 wi.(z) wi.(y) in
  let gamma_t := H.(SafeASin) (sinGamma_t_of sinTheta_o cosTheta_o) in
  let T := transmittance sinTheta_o cosTheta_o in
  let phi := phi_i - phi_o in
  let ap := H.(Ap) cosTheta_o bxdf.(eta) bxdf.(h) T in
  let fsum :=
    fold_left
      (fun fsum p =>
         let '(sinThetap_o, cosThetap_o) := scale_tilt p sinTheta_o cosTheta_o in
         let cosThetap_o := Rabs cosThetap_o in
         SampledSpectrum.add fsum
           (SampledSpectrum.scale
              (SampledSpectrum.scale (ap p)
                 (H.(Mp) cosTheta_i cosThetap_o sinTheta_i sinThetap_o
                         (idx bxdf.(v) p)))
              (H.(Np) phi p bxdf.(s) gamma_o gamma_t)))
      (seq 0 H.(pMax))
      (SampledSpectrum.const H.(NSpectrumSamples) 0) in
  let fsum :=
    SampledSpectrum.add fsum
      (SampledSpectrum.div
         (SampledSpectrum.scale (ap H.(pMax))
            (H.(Mp) cosTheta_i cosTheta_o sinTheta_i sinTheta_o
                    (idx bxdf.(v) H.(pMax))))
         (2 * Pi)) in
  if 0 <? AbsCosTheta wi then SampledSpectrum.div fsum (AbsCosTheta wi) else fsum.

(** [HairBxDF::ApPDF] *)
Definition ApPDF (cosTheta_o : Float) : list Float :=
  let sinTheta_o := H.(SafeSqrt) (1 - Sqr cosTheta_o) in
  let T := transmittance sinTheta_o cosTheta_o in
  let ap := H.(Ap) cosTheta_o bxdf.(eta) bxdf.(h) T in
  let sumY :=
    fold_left (fun sumY p => sumY + SampledSpectrum.Average (ap p))
              (seq 0 (H.(pMax) + 1)) 0 in
  List.map (fun i => SampledSpectrum.Average (ap i) / sumY)
           (seq 0 (H.(pMax) + 1)).

(** The attenuations [ApPDF] averages, for a given [cosTheta_o], and their
    sum. *)
Definition ap_of (cosTheta_o : Float) : nat -> SampledSpectrum.t :=
  H.(Ap) cosTheta_o bxdf.(eta) bxdf.(h)
         (transmittance (H.(SafeSqrt) (1 - Sqr cosTheta_o)) cosTheta_o).

Definition sumY_of (cosTheta_o : Float) : Float :=
  SampledSpectrum.sum
    (List.map (fun p => SampledSpectrum.Average (ap_of cosTheta_o p))
              (seq 0 (H.(pMax) + 1))).

(** The sum over the lobes that [Sample_f] and [PDF] both end with; [twice]
    tells whether the absolute value of [cosThetap_o] is taken a second
    time, as the loop of [Sample_f] does. *)
Definition lobe_pdf (twice : bool) (apPDF : list Float)
  (sinTheta_o cosTheta_o sinTheta_i cosTheta_i dphi gamma_o gamma_t : Float)
  : Float :=
  let pdf :=
    fold_left
      (fun pdf p =>
         let '(sinThetap_o, cosThetap_o) := scale_tilt p sinTheta_o cosTheta_o in
         let cosThetap_o := Rabs cosThetap_o in
         let cosThetap_o := if twice then Rabs cosThetap_o else cosThetap_o in
         pdf + H.(Mp) cosTheta_i cosThetap_o sinTheta_i sinThetap_o (idx bxdf.(v) p)
               * idx apPDF p * H.(Np) dphi p bxdf.(s) gamma_o gamma_t)
      (seq 0 H.(pMax)) 0 in
  pdf + H.(Mp) cosTheta_i cosTheta_o sinTheta_i sinTheta_o (idx bxdf.(v) H.(pMax))
        * idx apPDF H.(pMax) * (1 / (2 * Pi)).

(** The direction [Sample_f] draws, with the angles its density is computed
    from: [(wi, sinTheta_i, cosTheta_i, dphi)]. *)
Definition sample_wi (wo : Vector3f) (uc : Float) (u : Point2f)
  : Vector3f * Float * Float * Float :=
  let sinTheta_o := wo.(x) in
  let cosTheta_o := H.(SafeSqrt) (1 - Sqr sinTheta_o) in
  let phi_o := atan2 wo.(z) wo.(y) in
  let gamma_o := H.(SafeASin) bxdf.(h) in
  (* Determine which term p to sample for hair scattering *)
  let apPDF := ApPDF cosTheta_o in
  let '(p, uc) := H.(SampleDiscrete) apPDF uc in
  let '(sinThetap_o, cosThetap_o) := scale_tilt p sinTheta_o cosTheta_o in
  let cosThetap_o := Rabs cosThetap_o in
  (* Sample M_p to compute thetai *)
  let cosTheta :=
    1 + idx bxdf.(v) p
        * ln (Rmax (fst u) 1e-5
              + (1 - fst u) * H.(FastExp) (- 2 / idx bxdf.(v) p)) in
  let sinTheta := H.(SafeSqrt) (1 - Sqr cosTheta) in
  let cosPhi := cos (2 * Pi * snd u) in
  let sinTheta_i := - cosTheta * sinThetap_o + sinTheta * cosPhi * cosThetap_o in
  let cosTheta_i := H.(SafeSqrt) (1 - Sqr sinTheta_i) in
  (* Sample N_p to compute dphi *)
  let gamma_t := H.(SafeASin) (sinGamma_t_of sinTheta_o cosTheta_o) in
  let dphi :=
    if (p <? H.(pMax))%nat
    then H.(Phi) p gamma_o gamma_t
         + H.(SampleTrimmedLogistic) uc bxdf.(s) (- Pi) Pi
    else 2 * Pi * uc in
  (* Compute wi from sampled hair scattering angles *)
  let phi_i := phi_o + dphi in
  (mkVector3f sinTheta_i (cosTheta_i * cos phi_i) (cosTheta_i * sin phi_i),
   sinTheta_i, cosTheta_i, dphi).

(** [HairBxDF::Sample_f] *)
Definition Sample_f (wo : Vector3f) (uc : Float) (u : Point2f)
  (mode : TransportMode) (sampleFlags : BxDFReflTransFlags.t)
  : option BSDFSample.t :=
  let sinTheta_o := wo.(x) in
  let cosTheta_o := H.(SafeSqrt) (1 - Sqr sinTheta_o) in
  let gamma_o := H.(SafeASin) bxdf.(h) in
  let apPDF := ApPDF cosTheta_o in
  let '(wi, sinTheta_i, cosTheta_i, dphi) := sample_wi wo uc u in
  let gamma_t := H.(SafeASin) (sinGamma_t_of sinTheta_o cosTheta_o) in
  (* Compute PDF for sampled hair scattering direction wi *)
  let pdf := lobe_pdf true apPDF sinTheta_o cosTheta_o sinTheta_i cosTheta_i
                      dphi gamma_o gamma_t in
  Some (BSDFSample.mk (f wo wi mode) wi pdf H.(Flags) 1).

(** [HairBxDF::PDF] *)
Definition PDF (wo wi : Vector3f) (mode : TransportMode)
  (sampleFlags : BxDFReflTransFlags.t) : Float :=
  let sinTheta_o := wo.(x) in
  let cosTheta_o := H.(SafeSqrt) (1 - Sqr sinTheta_o) in
  let phi_o := atan2 wo.(z) wo.(y) in
  let gamma_o := H.(SafeASin) bxdf.(h) in
  let sinTheta_i := wi.(x) in
  let cosTheta_i := H.(SafeSqrt) (1 - Sqr sinTheta_i) in
  let phi_i := atan2 wi.(z) wi.(y) in
  let etap := H.(SafeSqrt) (bxdf.(eta) * bxdf.(eta) - Sqr sinTheta_o) / cosTheta_o in
  let sinGamma_t := bxdf.(h) / etap in
  let gamma_t := H.(SafeASin) sinGamma_t in
  let apPDF := ApPDF cosTheta_o in
  let phi := phi_i - phi_o in
  lobe_pdf false apPDF sinTheta_o cosTheta_o sinTheta_i cosTheta_i
           phi gamma_o gamma_t.

End Hair.

End Hair.

(** ** MorphoBSDF, the table-driven variant of the hair model *)

Module Morpho.
Import Hair.

(** [std::round]: to the nearest integer, halves away from zero. *)
Definition round (r : Float) : Z :=
  if 0 <=? r then (up (r + / 2) - 1)%Z else (- (up (- r + / 2) - 1))%Z.

(** [RadiansToDegrees] *)
Definition RadiansToDegrees (radians : Float) : Float := radians * 180 / Pi.

Section Morpho.

Variable H : Helpers.

(** [CurrentBRDFTable[it][ot][i]], the global table of table/brdfTable.h. *)
Variable CurrentBRDFTable : Z -> Z -> nat -> Float.

Variable bxdf : HairBxDF.

(** [MorphoBSDF::LookupBRDFTable] *)
Definition LookupBRDFTable (it ot : Z) : SampledSpectrum.t :=
  List.map (fun i => CurrentBRDFTable it ot i / 2.5) (seq 0 H.(NSpectrumSamples)).

(** [MorphoBSDF::f] *)
Definition f (wo wi : Vector3f) (mode : TransportMode) : SampledSpectrum.t :=
  let sinTheta_o := wo.(x) in
  let cosTheta_o := H.(SafeSqrt) (1 - Sqr sinTheta_o) in
  let it := Z.abs (round (atan2 wi.(x) (sqrt (wi.(y) * wi.(y) + wi.(z) * wi.(z)))
                          * 180 / Pi)) in
  let ot := Z.abs (round (atan2 wo.(x) (sqrt (wo.(y) * wo.(y) + wo.(z) * wo.(z)))
                          * 180 / Pi)) in
  let fsum :=
    List.map (fun i => CurrentBRDFTable it ot i / 2.5) (seq 0 H.(NSpectrumSamples)) in
  let T := transmittance H bxdf sinTheta_o cosTheta_o in
  SampledSpectrum.mul fsum T.

(** [MorphoBSDF::ComputeApPdf] *)
Definition ComputeApPdf (cosTheta_o : Float) (wo : Vector3f) : list Float :=
  let sinTheta_o := H.(SafeSqrt) (1 - cosTheta_o * cosTheta_o) in
  let T := transmittance H bxdf sinTheta_o cosTheta_o in
  let ap := H.(Ap) cosTheta_o bxdf.(eta) bxdf.(h) T in
  let sumY :=
    fold_left (fun sumY p => sumY + SampledSpectrum.Average (ap p))
              (seq 0 (H.(pMax) + 1)) 0 in
  List.map (fun i => SampledSpectrum.Average (ap i) / sumY)
           (seq 0 (H.(pMax) + 1)).

(** [MorphoBSDF::Sample_f] *)
Definition Sample_f (wo : Vector3f) (uc : Float) (u : Point2f)
  (mode : TransportMode) (sampleFlags : BxDFReflTransFlags.t)
  : option BSDFSample.t :=
  let sinTheta_o := wo.(x) in
  let cosTheta_o := H.(SafeSqrt) (1 - Sqr sinTheta_o) in
  let phi_o := atan2 wo.(z) wo.(y) in
  let gamma_o := H.(SafeASin) bxdf.(h) in
  let apPdf := ComputeApPdf cosTheta_o wo in
  let '(p, uc) := H.(SampleDiscrete) apPdf uc in
  let '(sinThetap_o, cosThetap_o) := scale_tilt bxdf p sinTheta_o cosTheta_o in
  let it := Z.abs (round (atan2 wo.(x) cosTheta_o * 180 / Pi)) in
  let ot := Z.abs (round (atan2 sinThetap_o cosThetap_o * 180 / Pi)) in
  let brdfSample := LookupBRDFTable it ot in
  let cosTheta :=
    1 + idx bxdf.(v) p
        * ln (Rmax (fst u) 1e-5
              + (1 - fst u) * H.(FastExp) (- 2 / idx bxdf.(v) p)) in
  let sinTheta := H.(SafeSqrt) (1 - Sqr cosTheta) in
  let cosPhi := cos (2 * Pi * snd u) in
  let sinTheta_i := - cosTheta * sinThetap_o + sinTheta * cosPhi * cosThetap_o in
  let cosTheta_i := H.(SafeSqrt) (1 - Sqr sinTheta_i) in
  let dphi :=
    if (p <? H.(pMax))%nat
    then H.(Phi) p gamma_o gamma_o
         + H.(SampleTrimmedLogistic) uc bxdf.(s) (- Pi) Pi
    else 2 * Pi * uc in
  let phi_i := phi_o + dphi in
  let wi := mkVector3f sinTheta_i (cosTheta_i * cos phi_i)
                       (cosTheta_i * sin phi_i) in
  let pdf :=
    fold_left
      (fun pdf p =>
         let '(sinThetap_o, cosThetap_o) := scale_tilt bxdf p sinTheta_o cosTheta_o in
         pdf + H.(Mp) cosTheta_i cosThetap_o sinTheta_i sinThetap_o (idx bxdf.(v) p)
               * idx apPdf p * H.(Np) dphi p bxdf.(s) gamma_o gamma_o)
      (seq 0 H.(pMax)) 0 in
  let pdf :=
    pdf + H.(Mp) cosTheta_i cosTheta_o sinTheta_i sinTheta_o (idx bxdf.(v) H.(pMax))
          * idx apPdf H.(pMax) * (1 / (2 * Pi)) in
  Some (BSDFSample.mk (f wo wi mode) wi pdf H.(Flags) 1).

(** [MorphoBSDF::Pdf] *)
Definition Pdf (wo wi : Vector3f) (mode : TransportMode)
  (sampleFlags : BxDFReflTransFlags.t) : Float :=
  let sinTheta_o := wo.(x) in
  let cosTheta_o := H.(SafeSqrt) (1 - Sqr sinTheta_o) in
  let phi_o := atan2 wo.(z) wo.(y) in
  let gamma_o := H.(SafeASin) bxdf.(h) in
  let sinTheta_i := wi.(x) in
  let cosTheta_i := H.(SafeSqrt) (1 - Sqr sinTheta_i) in
  let phi_i := atan2 wi.(z) wi.(y) in
  let etap := H.(SafeSqrt) (Sqr bxdf.(eta) - Sqr sinTheta_o) / cosTheta_o in
  let sinGamma_t := bxdf.(h) / etap in
  let gamma_t := H.(SafeASin) sinGamma_t in
  let apPDF := ComputeApPdf cosTheta_o wo in
  let phi := phi_i - phi_o in
  let pdf :=
    fold_left
      (fun pdf p =>
         let it := Z.abs (round (RadiansToDegrees (atan2 wi.(x) cosTheta_i))) in
         let ot := Z.abs (round (RadiansToDegrees (atan2 wo.(x) cosTheta_o))) in
         let Mp := LookupBRDFTable it ot in
         pdf + SampledSpectrum.Average Mp * idx apPDF p
               * H.(Np) phi p bxdf.(s) gamma_o gamma_t)
      (seq 0 H.(pMax)) 0 in
  pdf + H.(Mp) cosTheta_i cosTheta_o sinTheta_i sinTheta_o (idx bxdf.(v) H.(pMax))
        * idx apPDF H.(pMax) * (1 / (2 * Pi)).

End Morpho.

(** Two sets of helpers that differ at most in [Phi] and [Np], and there
    only where the two impact angles given to them differ. *)
Definition agree_on_equal_angles (H H' : Helpers) : Prop :=
  H.(pMax) = H'.(pMax) /\ H.(NSpectrumSamples) = H'.(NSpectrumSamples)
  /\ H.(Mp) = H'.(Mp) /\ H.(Ap) = H'.(Ap)
  /\ H.(SampleDiscrete) = H'.(SampleDiscrete)
  /\ H.(SampleTrimmedLogistic) = H'.(SampleTrimmedLogistic)
  /\ H.(SafeSqrt) = H'.(SafeSqrt) /\ H.(SafeASin) = H'.(SafeASin)
  /\ H.(FastExp) = H'.(FastExp) /\ H.(Flags) = H'.(Flags)
  /\ (forall p gamma, H.(Phi) p gamma gamma = H'.(Phi) p gamma gamma)
  /\ (forall phi p s gamma,
        H.(Np) phi p s gamma gamma = H'.(Np) phi p s gamma gamma).

(** Two sets of helpers that differ at most in [Phi] and [Np], in any way. *)
Definition same_but_Phi_Np (H H' : Helpers) : Prop :=
  H.(pMax) = H'.(pMax) /\ H.(NSpectrumSamples) = H'.(NSpectrumSamples)
  /\ H.(Mp) = H'.(Mp) /\ H.(Ap) = H'.(Ap)
  /\ H.(SampleDiscrete) = H'.(SampleDiscrete)
  /\ H.(SampleTrimmedLogistic) = H'.(SampleTrimmedLogistic)
  /\ H.(SafeSqrt) = H'.(SafeSqrt) /\ H.(SafeASin) = H'.(SafeASin)
  /\ H.(FastExp) = H'.(FastExp) /\ H.(Flags) = H'.(Flags).

(** The impact angles [gamma_o] and [gamma_t] that [Sample_f] and [Pdf]
    compute for a direction [wo]. *)
Definition gamma_o_of (H : Helpers) (bxdf : HairBxDF) : Float :=
  H.(SafeASin) bxdf.(h).

Definition gamma_t_of (H : Helpers) (bxdf : HairBxDF) (wo : Vector3f) : Float :=
  let sinTheta_o := wo.(x) in
  let cosTheta_o := H.(SafeSqrt) (1 - Sqr sinTheta_o) in
  let etap := H.(SafeSqrt) (Sqr bxdf.(eta) - Sqr sinTheta_o) / cosTheta_o in
  H.(SafeASin) (bxdf.(h) / etap).

End Morpho.

(** ** MeasuredBxDF *)

Module MeasuredBxDF.

(** [PLSample], what [Sample] and [Invert] of an interpolant return. *)
Record PLSample : Type := mkPLSample { p : Point2f; pdf : Float }.

(** The resource a [MeasuredBxDF] points to, through the methods of its
    interpolants, with the wavelengths [lambda] of the instance and the
    static reparameterizations of the class; all are declared outside the
    sources. *)
Record Env : Type := mkEnv {
  NSpectrumSamples : nat;
  isotropic : bool;
  vndf_Invert : Point2f -> Float -> Float -> PLSample;
  vndf_Sample : Point2f -> Float -> Float -> PLSample;
  luminance_Sample : Point2f -> Float -> Float -> PLSample;
  luminance_Evaluate : Point2f -> Float -> Float -> Float;
  spectra_Evaluate : Point2f -> Float -> Float -> Float -> Float;
  ndf_Evaluate : Point2f -> Float;
  sigma_Evaluate : Point2f -> Float;
  theta2u : Float -> Float;
  phi2u : Float -> Float;
  u2theta : Float -> Float;
  u2phi : Float -> Float;
  SphericalTheta : Vector3f -> Float;
  SphericalDirection : Float -> Float -> Float -> Vector3f;
  lambda : nat -> Float
}.

(** [pstd::floor] *)
Definition floor (r : Float) : Float := IZR (up r - 1).

Section Measured.

Variable brdf : Env.

(** The spectral interpolant at every wavelength sample, clamped at zero. *)
Definition spectrum_at (u : Point2f) (phi_o theta_o : Float) : SampledSpectrum.t :=
  List.map (fun i => Rmax 0 (brdf.(spectra_Evaluate) u phi_o theta_o (brdf.(lambda) i)))
           (seq 0 brdf.(NSpectrumSamples)).

(** [MeasuredBxDF::f] *)
Definition f (wo wi : Vector3f) (mode : TransportMode) : SampledSpectrum.t :=
  if negb (SameHemisphere wo wi) then SampledSpectrum.const brdf.(NSpectrumSamples) 0
  else
    let '(wo, wi) := if wo.(z) <? 0 then (vneg wo, vneg wi) else (wo, wi) in
    let wm := vadd wi wo in
    if LengthSquared wm =? 0 then SampledSpectrum.const brdf.(NSpectrumSamples) 0
    else
      let wm := Normalize wm in
      let theta_o := brdf.(SphericalTheta) wo in
      let phi_o := atan2 wo.(y) wo.(x) in
      let theta_m := brdf.(SphericalTheta) wm in
      let phi_m := atan2 wm.(y) wm.(x) in
      let u_wo := (brdf.(theta2u) theta_o, brdf.(phi2u) phi_o) in
      let u_wm1 := brdf.(phi2u) (if brdf.(isotropic) then phi_m - phi_o else phi_m) in
      let u_wm := (brdf.(theta2u) theta_m, u_wm1 - floor u_wm1) in
      let ui := brdf.(vndf_Invert) u_wm phi_o theta_o in
      let fr := spectrum_at ui.(p) phi_o theta_o in
      SampledSpectrum.div
        (SampledSpectrum.scale fr (brdf.(ndf_Evaluate) u_wm))
        (4 * brdf.(sigma_Evaluate) u_wo * CosTheta wi).

(** [MeasuredBxDF::Sample_f] *)
Definition Sample_f (wo : Vector3f) (uc : Float) (u : Point2f)
  (mode : TransportMode) (sampleFlags : BxDFReflTransFlags.t)
  : option BSDFSample.t :=
  if negb (BxDFReflTransFlags.has sampleFlags BxDFReflTransFlags.Reflection)
  then None
  else
    let '(wo, flipWi) := if wo.(z) <=? 0 then (vneg wo, true) else (wo, false) in
    let theta_o := brdf.(SphericalTheta) wo in
    let phi_o := atan2 wo.(y) wo.(x) in
    let s := brdf.(luminance_Sample) u phi_o theta_o in
    let u := s.(p) in
    let lum_pdf := s.(pdf) in
    let s := brdf.(vndf_Sample) u phi_o theta_o in
    let u_wm := s.(p) in
    let pdf := s.(pdf) in
    let phi_m := brdf.(u2phi) (snd u_wm) in
    let theta_m := brdf.(u2theta) (fst u_wm) in
    let phi_m := if brdf.(isotropic) then phi_m + phi_o else phi_m in
    let sinTheta_m := sin theta_m in
    let cosTheta_m := cos theta_m in
    let wm := brdf.(SphericalDirection) sinTheta_m cosTheta_m phi_m in
    let wi := Reflect wo wm in
    if wi.(z) <=? 0 then None
    else
      let fr := spectrum_at u phi_o theta_o in
      let u_wo := (brdf.(theta2u) theta_o, brdf.(phi2u) phi_o) in
      let fr := SampledSpectrum.scale fr
                  (brdf.(ndf_Evaluate) u_wm
                   / (4 * brdf.(sigma_Evaluate) u_wo * AbsCosTheta wi)) in
      let pdf := pdf / (4 * Dot wo wm
                        * Rmax (2 * Sqr Pi * fst u_wm * sinTheta_m) 1e-6) in
      let wi := if flipWi then vneg wi else wi in
      Some (BSDFSample.mk fr wi (pdf * lum_pdf) BxDFFlags.GlossyReflection 1).

(** [MeasuredBxDF::PDF] *)
Definition PDF (wo wi : Vector3f) (mode : TransportMode)
  (sampleFlags : BxDFReflTransFlags.t) : Float :=
  if negb (BxDFReflTransFlags.has sampleFlags BxDFReflTransFlags.Reflection)
  then 0
  else if negb (SameHemisphere wo wi) then 0
  else
    let '(wo, wi) := if wo.(z) <? 0 then (vneg wo, vneg wi) else (wo, wi) in
    let wm := vadd wi wo in
    if LengthSquared wm =? 0 then 0
    else
      let wm := Normalize wm in
      (* Cartesian -> spherical coordinates *)
      let theta_o := brdf.(SphericalTheta) wo in
      let phi_o := atan2 wo.(y) wo.(x) in
      let theta_m := brdf.(SphericalTheta) wm in
      let phi_m := atan2 wm.(y) wm.(x) in
      (* Spherical coordinates -> unit coordinate system *)
      let u_wm1 := brdf.(phi2u) (if brdf.(isotropic) then phi_m - phi_o else phi_m) in
      let u_wm := (brdf.(theta2u) theta_m, u_wm1 - floor u_wm1) in
      let ui := brdf.(vndf_Invert) u_wm phi_o theta_o in
      let sample := ui.(p) in
      let vndfPDF := ui.(pdf) in
      let pdf := brdf.(luminance_Evaluate) sample phi_o theta_o in
      let sinTheta_m := sqrt (Sqr wm.(x) + Sqr wm.(y)) in
      let jacobian :=
        4 * Dot wo wm * Rmax (2 * Sqr Pi * fst u_wm * sinTheta_m) 1e-6 in
      vndfPDF * pdf / jacobian.

End Measured.

End MeasuredBxDF.

(** ** The reflectance estimator of [BxDF] *)

Module BxDF.

Section rho.

Variable NSpectrumSamples : nat.

(** [Sample_f] of the variant the [BxDF] holds. *)
Variable Sample_f :
  Vector3f -> Float -> Point2f -> TransportMode -> BxDFReflTransFlags.t ->
  option BSDFSample.t.

(** [BxDF::rho(wo, uc, u2)]; the call of [Sample_f] leaves the mode and the
    filter to their defaults. *)
Definition rho (wo : Vector3f) (uc : list Float) (u2 : list Point2f)
  : SampledSpectrum.t :=
  if wo.(z) =? 0 then SampledSpectrum.const NSpectrumSamples 0
  else
    let r :=
      fold_left
        (fun r ui =>
           match Sample_f wo (fst ui) (snd ui) Radiance BxDFReflTransFlags.All with
           | Some bs =>
               if 0 <? bs.(BSDFSample.pdf)
               then SampledSpectrum.add r
                      (SampledSpectrum.div
                         (SampledSpectrum.scale bs.(BSDFSample.f)
                                                (AbsCosTheta bs.(BSDFSample.wi)))
                         bs.(BSDFSample.pdf))
               else r
           | None => r
           end)
        (combine uc u2)
        (SampledSpectrum.const NSpectrumSamples 0) in
    SampledSpectrum.div r (INR (length uc)).

End rho.

(** A spectrum whose entries all lie between [lo] and [hi]. *)
Definition within (lo hi : Float) (sp : SampledSpectrum.t) : Prop :=
  Forall (fun c => lo <= c <= hi) sp.

End BxDF.

(** ** Helpers to run the hair models on *)

Module Instances.
Import Hair.

(** [Clamp(val, low, high)] *)
Definition Clamp (val low high : Float) : Float :=
  if val <? low then low else if high <? val then high else val.

(** The square root and the arc sine of the clamped argument. *)
Definition SafeSqrt (v : Float) : Float := sqrt (Rmax 0 v).
Definition SafeASin (v : Float) : Float := asin (Clamp v (-1) 1).

(** Helpers with three structured lobes and one wavelength sample, for a
    fiber whose surface reflects everything: the whole energy is in lobe 0,
    which is the only one drawn.  [Mp] is constant, the trimmed logistic is
    replaced by the uniform distribution on the interval, and [np] and [ph]
    stand for [Np] and [Phi]. *)
Definition helpers (np : Float -> nat -> Float -> Float -> Float -> Float)
  (ph : nat -> Float -> Float -> Float) : Helpers :=
  {| pMax := 3;
     NSpectrumSamples := 1;
     Mp := fun _ _ _ _ _ => 1;
     Np := np;
     Phi := ph;
     Ap := fun _ _ _ _ p => match p with 0%nat => [1] | _ => [0] end;
     SampleDiscrete := fun _ uc => (0%nat, uc);
     SampleTrimmedLogistic := fun u _ a b => a + u * (b - a);
     Hair.SafeSqrt := SafeSqrt;
     Hair.SafeASin := SafeASin;
     FastExp := exp;
     Flags := BxDFFlags.GlossyReflection |}.

(** The same helpers with the attenuations [ap p], whatever the angle. *)
Definition helpers_with_Ap (ap : nat -> SampledSpectrum.t) : Helpers :=
  {| pMax := 3;
     NSpectrumSamples := 1;
     Mp := fun _ _ _ _ _ => 1;
     Np := fun _ _ _ _ _ => 1 / (2 * PI);
     Phi := fun _ _ _ => 0;
     Ap := fun _ _ _ _ p => ap p;
     SampleDiscrete := fun _ uc => (0%nat, uc);
     SampleTrimmedLogistic := fun u _ a b => a + u * (b - a);
     Hair.SafeSqrt := SafeSqrt;
     Hair.SafeASin := SafeASin;
     FastExp := exp;
     Flags := BxDFFlags.GlossyReflection |}.

(** Attenuations that decrease with the order of the lobe, attenuations that
    all vanish, and attenuations of both signs. *)
Definition decreasing_Ap (p : nat) : SampledSpectrum.t :=
  match p with 0%nat => [4] | 1%nat => [3] | 2%nat => [2] | _ => [1] end.
Definition vanishing_Ap (p : nat) : SampledSpectrum.t := [0].
Definition signed_Ap (p : nat) : SampledSpectrum.t :=
  match p with 0%nat => [2] | 1%nat => [-1] | _ => [0] end.

(** A fiber without tilt of the scales, hit half way between its axis and
    its edge. *)
Definition fiber : HairBxDF :=
  {| h := 1 / 2; eta := 3 / 2; sigma_a := [0]; beta_m := 1; beta_n := 1;
     v := [1; 1; 1; 1]; s := 1;
     sin2kAlpha := [0; 0; 0]; cos2kAlpha := [1; 1; 1] |}.

(** [Np] that returns the second, or the first, of its impact angles. *)
Definition second_angle (phi : Float) (p : nat) (s gamma_o gamma_t : Float) : Float :=
  gamma_t.
Definition first_angle (phi : Float) (p : nat) (s gamma_o gamma_t : Float) : Float :=
  gamma_o.

(** A lobe function of period [2 * PI] around the phase. *)
Definition cosine_lobe (ph : nat -> Float -> Float -> Float)
  (phi : Float) (p : nat) (s gamma_o gamma_t : Float) : Float :=
  (1 + cos (phi - ph p gamma_o gamma_t)) / (2 * PI).

Definition no_phase (p : nat) (gamma_o gamma_t : Float) : Float := 0.

(** A table with the same entry everywhere. *)
Definition flat_table (it ot : Z) (i : nat) : Float := 2.5.

(** A lobe function that is uniform over the circle. *)
Definition flat_lobe (phi : Float) (p : nat) (s gamma_o gamma_t : Float) : Float :=
  1 / (2 * PI).

(** A microfacet distribution whose terms are all 1, smooth or not. *)
Definition unit_distribution (smooth : bool) : Dielectric.TrowbridgeReitzDistribution :=
  Dielectric.mkDistrib smooth (fun _ _ => mkVector3f 0 0 1)
                       (fun _ => 1) (fun _ _ => 1) (fun _ _ => 1).

(** Glass of index 1.5, polished or rough. *)
Definition glass (smooth : bool) : Dielectric.DielectricBxDF :=
  Dielectric.mkDielectric (3 / 2) (unit_distribution smooth).

(** The Fresnel reflectance of that glass at grazing incidence, where all
    light is reflected, and at normal incidence, [((1.5 - 1) / (1.5 + 1))^2],
    used for every angle. *)
Definition grazing_reflectance (cosTheta_i eta : Float) : Float := 1.
Definition normal_reflectance (cosTheta_i eta : Float) : Float := 1 / 25.

(** A [Refract] that always reports total internal reflection. *)
Definition no_refraction (wi n : Vector3f) (eta : Float)
  : option (Float * Vector3f) := None.

(** A [Refract] for light that enters the glass along the normal: it goes
    straight on, with the relative index of the glass. *)
Definition straight_refraction (wi n : Vector3f) (eta : Float)
  : option (Float * Vector3f) := Some (3 / 2, mkVector3f 0 0 (- 1)).

(** A measured material with constant interpolants, whose visible normal is
    always the surface normal. *)
Definition flat_measurement : MeasuredBxDF.Env :=
  {| MeasuredBxDF.NSpectrumSamples := 1;
     MeasuredBxDF.isotropic := true;
     MeasuredBxDF.vndf_Invert := fun u _ _ => MeasuredBxDF.mkPLSample u 1;
     MeasuredBxDF.vndf_Sample := fun u _ _ => MeasuredBxDF.mkPLSample u 1;
     MeasuredBxDF.luminance_Sample := fun u _ _ => MeasuredBxDF.mkPLSample u 1;
     MeasuredBxDF.luminance_Evaluate := fun _ _ _ => 1;
     MeasuredBxDF.spectra_Evaluate := fun _ _ _ _ => 1;
     MeasuredBxDF.ndf_Evaluate := fun _ => 1;
     MeasuredBxDF.sigma_Evaluate := fun _ => 1;
     MeasuredBxDF.theta2u := fun _ => 0;
     MeasuredBxDF.phi2u := fun _ => 0;
     MeasuredBxDF.u2theta := fun _ => 0;
     MeasuredBxDF.u2phi := fun _ => 0;
     MeasuredBxDF.SphericalTheta := fun _ => 0;
     MeasuredBxDF.SphericalDirection :=
       fun sinTheta cosTheta phi =>
         mkVector3f (sinTheta * cos phi) (sinTheta * sin phi) cosTheta;
     MeasuredBxDF.lambda := fun _ => 0 |}.

End Instances.

Local Close Scope R_scope.

(** * Properties *)

(** ** Tensor file I/O *)

Module TensorFacts.
Import Tensor.

Lemma byte_to_Z_bound (b : byte) : 0 <= byte_to_Z b < 256.
Proof.
  unfold byte_to_Z. pose proof (Byte.to_N_bounded b). lia.
Qed.

Lemma byte_of_to_Z (b : byte) : byte_of_Z (byte_to_Z b) = b.
Proof.
  unfold byte_of_Z. pose proof (byte_to_Z_bound b) as Hb.
  rewrite Z.mod_small by lia. unfold byte_to_Z.
  rewrite N2Z.id, Byte.of_to_N. reflexivity.
Qed.

Lemma byte_to_of_Z (z : Z) : 0 <= z < 256 -> byte_to_Z (byte_of_Z z) = z.
Proof.
  intros Hz. unfold byte_of_Z, byte_to_Z. rewrite Z.mod_small by lia.
  destruct (Byte.of_N (Z.to_N z)) as [b|] eqn:E.
  - apply Byte.to_of_N in E. simpl. lia.
  - apply Byte.of_N_None_iff in E. lia.
Qed.

Lemma le_uint_bound (bs : list byte) :
  0 <= le_uint bs < 2 ^ (Z.of_nat (length bs) * 8).
Proof.
  unfold le_uint.
  pose proof (little_endian_to_Z_bound 8 (map byte_to_Z bs)) as H.
  rewrite length_map in H. apply H; [lia|].
  apply Forall_forall. intros z Hz. apply list_elem_of_In, in_map_iff in Hz.
  destruct Hz as (b & <- & _). apply byte_to_Z_bound.
Qed.

Lemma le_uint_enc (k n : Z) : 0 <= k -> le_uint (enc_uint k n) = n mod 2 ^ (k * 8).
Proof.
  intros Hk. unfold le_uint, enc_uint. rewrite List.map_map.
  rewrite (List.map_ext_in (fun x => byte_to_Z (byte_of_Z x)) (fun x => x)).
  - rewrite List.map_id. apply little_endian_to_Z_to_little_endian; lia.
  - intros z Hz. apply byte_to_of_Z.
    assert (HF : Forall (fun b => 0 <= b < 2 ^ 8) (Z_to_little_endian k 8 n))
      by (apply Z_to_little_endian_bound; lia).
    rewrite Forall_forall in HF. apply HF, list_elem_of_In, Hz.
Qed.

Lemma enc_le_uint (bs : list byte) :
  enc_uint (Z.of_nat (length bs)) (le_uint bs) = bs.
Proof.
  unfold le_uint, enc_uint. rewrite Z_to_little_endian_to_Z.
  - rewrite List.map_map, (List.map_ext _ (fun b => b)); [apply List.map_id|].
    intros b. apply byte_of_to_Z.
  - rewrite length_map. reflexivity.
  - lia.
  - apply Forall_forall. intros z Hz. apply list_elem_of_In, in_map_iff in Hz.
    destruct Hz as (b & <- & _). apply byte_to_Z_bound.
Qed.

Lemma enc_le_uint' (bs : list byte) (k : Z) :
  Z.of_nat (length bs) = k -> enc_uint k (le_uint bs) = bs.
Proof. intros <-. apply enc_le_uint. Qed.

Lemma length_enc_uint (k n : Z) : 0 <= k -> Z.of_nat (length (enc_uint k n)) = k.
Proof.
  intros Hk. unfold enc_uint. rewrite length_map.
  apply length_Z_to_little_endian; lia.
Qed.

(** *** Reads on the stream *)

Lemma bind_Done {A B} (m : io A) (k : A -> io B) f r :
  bind m k f = Done r <-> exists a f1, m f = Done (a, f1) /\ k a f1 = Done r.
Proof.
  unfold bind. split.
  - destruct (m f) as [[a f1]|msg]; [eauto|discriminate].
  - intros (a & f1 & -> & H). exact H.
Qed.

Lemma ASSERT_Done cond msg f r :
  ASSERT cond msg f = Done r <-> cond = true /\ r = (tt, f).
Proof.
  unfold ASSERT. destruct cond; split.
  - intros [= <-]. auto.
  - intros [_ ->]. reflexivity.
  - discriminate.
  - intros [? _]. discriminate.
Qed.

(** A read succeeds exactly when the bytes are there, and then returns the
    slice under the cursor. *)
Lemma SAFE_READ_Done (n : Z) what (f : FILE) bs f' :
  0 <= cursor f -> 0 <= n ->
  SAFE_READ n what f = Done (bs, f')
  <-> (n = 0 \/ cursor f + n <= Z.of_nat (length (contents f)))
      /\ bs = slice (contents f) (cursor f) n
      /\ f' = mkFILE (contents f) (cursor f + n).
Proof.
  intros Hc Hn. destruct f as [bytes pos]. simpl in *.
  unfold SAFE_READ, fread, slice. cbn [contents cursor].
  destruct (Z.leb_spec n 0) as [Hn0|Hn0]; cbn [orb].
  - assert (n = 0) as -> by lia. cbn. rewrite Z.add_0_r. split.
    + intros [= <- <-]. auto.
    + intros (_ & -> & ->). reflexivity.
  - destruct (Z.leb_spec (Z.of_nat (length bytes)) pos) as [Hl|Hl].
    + change (Z.of_nat (length (@nil byte))) with 0.
      destruct (Z.eqb_spec 0 n); [lia|]. split; [discriminate|]. lia.
    + set (got := take (Z.to_nat n) (drop (Z.to_nat pos) bytes)).
      assert (Hlen : Z.of_nat (length got)
                     = Z.min n (Z.of_nat (length bytes) - pos)).
      { unfold got. rewrite length_take, length_drop. lia. }
      destruct (Z.eqb_spec (Z.of_nat (length got)) n) as [E|E].
      * split.
        -- intros [= <- <-]. rewrite E. split; [lia|auto].
        -- intros (_ & -> & ->). rewrite E. reflexivity.
      * split; [discriminate|]. lia.
Qed.

Lemma stream_at_app pre bs suf :
  mkFILE (pre ++ bs ++ suf) (Z.of_nat (length pre) + Z.of_nat (length bs))
  = stream_at (pre ++ bs) suf.
Proof.
  unfold stream_at. rewrite <- app_assoc, length_app. f_equal. lia.
Qed.

Lemma slice_here pre suf n :
  slice (pre ++ suf) (Z.of_nat (length pre)) n = take (Z.to_nat n) suf.
Proof.
  unfold slice. rewrite Nat2Z.id, drop_app_length. reflexivity.
Qed.

Lemma SAFE_READ_at pre bs suf what :
  SAFE_READ (Z.of_nat (length bs)) what (stream_at pre (bs ++ suf))
  = Done (bs, stream_at (pre ++ bs) suf).
Proof.
  apply SAFE_READ_Done; simpl; [lia..|].
  split; [|split].
  - right. rewrite !length_app. lia.
  - rewrite slice_here, Nat2Z.id, take_app_length. reflexivity.
  - symmetry. apply stream_at_app.
Qed.

Lemma SAFE_READ_at_inv pre suf n what bs f' :
  0 <= n ->
  SAFE_READ n what (stream_at pre suf) = Done (bs, f') ->
  Z.of_nat (length bs) = n
  /\ exists suf', suf = bs ++ suf' /\ f' = stream_at (pre ++ bs) suf'.
Proof.
  intros Hn H. apply SAFE_READ_Done in H; simpl; [|lia..]. simpl in H.
  destruct H as (Hav & -> & ->). rewrite slice_here.
  assert (Hlen : Z.of_nat (length (take (Z.to_nat n) suf)) = n).
  { rewrite length_take. rewrite length_app in Hav. lia. }
  split; [exact Hlen|]. exists (drop (Z.to_nat n) suf). split.
  - symmetry. apply take_drop.
  - rewrite <- Hlen at 1. rewrite <- (take_drop (Z.to_nat n) suf) at 1.
    apply stream_at_app.
Qed.

Lemma SAFE_READ_at' pre bs suf n what :
  Z.of_nat (length bs) = n ->
  SAFE_READ n what (stream_at pre (bs ++ suf))
  = Done (bs, stream_at (pre ++ bs) suf).
Proof. intros <-. apply SAFE_READ_at. Qed.

Lemma bind_step {A B} (m : io A) (k : A -> io B) f a f1 :
  m f = Done (a, f1) -> bind m k f = k a f1.
Proof. unfold bind. intros ->. reflexivity. Qed.

(** *** The dimension loop *)

Lemma read_shape_at shape : forall pre suf acc,
  Forall dim_ok shape ->
  read_shape (length shape) acc
             (stream_at pre (concat (map (enc_uint 8) shape) ++ suf))
  = Done ((shape, acc_dims acc shape),
          stream_at (pre ++ concat (map (enc_uint 8) shape)) suf).
Proof.
  induction shape as [|d shape IH]; intros pre suf acc Hok.
  - cbn. unfold ret. rewrite app_nil_r. reflexivity.
  - apply Forall_cons in Hok as [Hd Hok].
    cbn [length read_shape map concat]. rewrite <- app_assoc.
    erewrite bind_step by (apply SAFE_READ_at', length_enc_uint; lia).
    rewrite le_uint_enc by lia.
    change (2 ^ (8 * 8)) with (2 ^ 64). rewrite (Z.mod_small d) by exact Hd.
    erewrite bind_step by (apply IH, Hok).
    unfold ret. cbn [fst snd acc_dims foldl]. rewrite <- app_assoc. reflexivity.
Qed.

Lemma read_shape_inv n : forall acc pre suf shape tot f',
  read_shape n acc (stream_at pre suf) = Done ((shape, tot), f') ->
  length shape = n /\ Forall dim_ok shape /\ tot = acc_dims acc shape
  /\ exists suf', suf = concat (map (enc_uint 8) shape) ++ suf'
       /\ f' = stream_at (pre ++ concat (map (enc_uint 8) shape)) suf'.
Proof.
  induction n as [|n IH]; intros acc pre suf shape tot f' H.
  - cbn in H. unfold ret in H. injection H as <- <- <-.
    repeat split; [constructor|]. exists suf. rewrite app_nil_r. auto.
  - cbn [read_shape] in H.
    apply bind_Done in H as (b & f1 & Hb & H).
    apply SAFE_READ_at_inv in Hb as (Hlen & suf1 & -> & ->); [|lia].
    apply bind_Done in H as ([sh t'] & f2 & Hr & H).
    unfold ret in H. cbn [fst snd] in H. injection H as <- <- <-.
    apply IH in Hr as (Hl & Hok & -> & suf2 & -> & ->).
    assert (Hd : dim_ok (le_uint b)).
    { pose proof (le_uint_bound b) as Hb. unfold dim_ok.
      replace (Z.of_nat (length b) * 8) with 64 in Hb by lia. exact Hb. }
    assert (He : enc_uint 8 (le_uint b) = b).
    { rewrite <- Hlen. apply enc_le_uint. }
    repeat split.
    + cbn. lia.
    + constructor; assumption.
    + exists suf2. cbn [map concat]. rewrite He, <- !app_assoc. auto.
Qed.

(** *** One field *)

Lemma Type_code_range (c : Z) :
  0 <= c ->
  negb (c =? Type_code Invalid) && (c <=? Type_code Float64) = true
  <-> 1 <= c <= 11.
Proof.
  intros Hc.
  change (Type_code Invalid) with 0. change (Type_code Float64) with 11.
  rewrite andb_true_iff, negb_true_iff, Z.eqb_neq, Z.leb_le. lia.
Qed.

Lemma ftell_fits (f : FILE) :
  0 <= cursor f <= LONG_MAX -> ftell f = cursor f.
Proof.
  intros H. unfold ftell. destruct (Z.leb_spec (cursor f) LONG_MAX); lia.
Qed.

Lemma fseek_set_ok (off : Z) (f : FILE) :
  0 <= off -> fseek_set off f = (0, mkFILE (contents f) off).
Proof.
  intros H. unfold fseek_set. destruct (Z.ltb_spec off 0); [lia|reflexivity].
Qed.

Lemma to_long_fits (u : Z) : u <= LONG_MAX -> to_long u = u.
Proof.
  intros H. unfold to_long. destruct (Z.leb_spec u LONG_MAX); lia.
Qed.

(** The payload part of an iteration: tell, seek, read, seek back. *)
Lemma payload_at (f : FILE) (off total : Z) :
  0 <= cursor f <= LONG_MAX -> 0 <= off <= LONG_MAX -> 0 <= total ->
  total = 0 \/ off + total <= Z.of_nat (length (contents f)) ->
  read_payload off total f = Done (slice (contents f) off total, f).
Proof.
  intros Hc Hoff Htot Hav. destruct f as [bytes pos]. cbn [cursor contents] in *.
  unfold read_payload.
  unfold bind at 1. rewrite ftell_fits by (cbn; lia). cbn [cursor].
  unfold bind at 1, ASSERT at 1.
  destruct (Z.eqb_spec pos (-1)) as [?|_]; [lia|]. cbn [negb].
  unfold bind at 1. rewrite to_long_fits, fseek_set_ok by lia. cbn [contents].
  unfold bind at 1, ASSERT at 1. cbn [Z.eqb negb].
  erewrite bind_step.
  2:{ apply SAFE_READ_Done; cbn [cursor contents]; [lia..|]. eauto. }
  unfold bind at 1. rewrite fseek_set_ok by lia. cbn [contents].
  unfold bind at 1, ASSERT at 1. cbn [Z.eqb negb]. reflexivity.
Qed.

Lemma enc_field_prefix_le pre fh suf :
  Z.of_nat (length (pre ++ enc_field fh))
  <= Z.of_nat (length (pre ++ enc_field fh ++ suf)).
Proof. rewrite !length_app. lia. Qed.

Lemma acc_dims_nonneg shape : forall a, 0 <= a -> 0 <= acc_dims a shape.
Proof.
  induction shape as [|d shape IH]; intros a Ha; cbn; [exact Ha|].
  apply IH. apply Z.mod_pos_bound. reflexivity.
Qed.

Lemma total_size_nonneg ty shape : 0 <= total_size ty shape.
Proof. apply acc_dims_nonneg. destruct ty; cbn; lia. Qed.

Lemma read_field_at pre fh suf fields :
  let bytes := pre ++ enc_field fh ++ suf in
  Z.of_nat (length bytes) <= LONG_MAX ->
  accepted_field (Z.of_nat (length bytes)) fh ->
  read_field fields (stream_at pre (enc_field fh ++ suf))
  = Done (<[string_of_list_byte (fh_name fh) := field_of bytes fh]> fields,
          stream_at (pre ++ enc_field fh) suf).
Proof.
  intros bytes Hlen ((Hn & Hr & Hd & Ho & Hsh) & Hty & Hoff & Hav).
  unfold read_field.
  assert (Hb : bytes = pre ++ enc_field fh ++ suf) by reflexivity.
  unfold enc_field in *. rewrite <- !app_assoc in *.
  erewrite bind_step by (apply SAFE_READ_at', length_enc_uint; lia).
  rewrite le_uint_enc, Z.mod_small by lia.
  erewrite bind_step by (apply SAFE_READ_at'; reflexivity).
  erewrite bind_step by (apply SAFE_READ_at', length_enc_uint; lia).
  erewrite bind_step by (apply SAFE_READ_at', length_enc_uint; lia).
  erewrite bind_step by (apply SAFE_READ_at', length_enc_uint; lia).
  rewrite !le_uint_enc by lia.
  rewrite (Z.mod_small (fh_dtype fh)), (Z.mod_small (fh_offset fh)),
    (Z.mod_small (Z.of_nat (length (fh_shape fh)))) by lia.
  unfold bind at 1.
  unfold ASSERT at 1. rewrite (proj2 (Type_code_range _ (proj1 Hd)) Hty).
  rewrite Nat2Z.id.
  erewrite bind_step by (apply read_shape_at, Hsh).
  cbv beta iota.
  fold (total_size (Type_of_code (fh_dtype fh)) (fh_shape fh)).
  erewrite bind_step; [|apply payload_at].
  - unfold ret, field_of, stream_at. cbn [contents]. subst bytes.
    rewrite <- !app_assoc. reflexivity.
  - cbn [cursor stream_at]. split; [lia|].
    etransitivity; [|exact Hlen]. rewrite Hb, !length_app. lia.
  - lia.
  - apply total_size_nonneg.
  - cbn [contents stream_at]. rewrite <- !app_assoc. rewrite <- Hb. exact Hav.
Qed.

Lemma payload_inv (f : FILE) (off total : Z) dat f' :
  0 <= cursor f -> 0 <= off < 2 ^ 64 -> 0 <= total ->
  read_payload off total f = Done (dat, f') ->
  off <= LONG_MAX
  /\ (total = 0 \/ off + total <= Z.of_nat (length (contents f)))
  /\ dat = slice (contents f) off total /\ f' = f.
Proof.
  intros Hc Hoff Htot H. unfold read_payload in H.
  assert (Hpos : cursor f <= LONG_MAX).
  { apply bind_Done in H as (c & f1 & [= <- <-] & H).
    apply bind_Done in H as (? & ? & Ha & _).
    apply ASSERT_Done in Ha as [Ha _]. unfold ftell in Ha.
    destruct (Z.leb_spec (cursor f) LONG_MAX); [assumption|discriminate]. }
  assert (Hseek : off <= LONG_MAX).
  { apply bind_Done in H as (c & f1 & [= <- <-] & H).
    apply bind_Done in H as (? & ? & Ha & H).
    apply ASSERT_Done in Ha as [_ [= -> ->]].
    apply bind_Done in H as (s & f2 & [= Hs] & H).
    apply bind_Done in H as (? & ? & Ha & _).
    apply ASSERT_Done in Ha as [Ha _].
    unfold to_long, fseek_set in Hs.
    destruct (Z.leb_spec off LONG_MAX); [assumption|].
    destruct (Z.ltb_spec (off - size_t_max) 0) as [_|Hge].
    - injection Hs as <- _. discriminate.
    - unfold size_t_max in Hge. lia. }
  assert (Hav : total = 0 \/ off + total <= Z.of_nat (length (contents f))).
  { apply bind_Done in H as (c & f1 & [= <- <-] & H).
    apply bind_Done in H as (? & ? & Ha & H).
    apply ASSERT_Done in Ha as [_ [= -> ->]].
    apply bind_Done in H as (s & f2 & [= Hs] & H).
    rewrite to_long_fits, fseek_set_ok in Hs by lia. injection Hs as <- <-.
    apply bind_Done in H as (? & ? & Ha & H).
    apply ASSERT_Done in Ha as [_ [= -> ->]].
    apply bind_Done in H as (dat' & f3 & Hr & _).
    apply SAFE_READ_Done in Hr; cbn [cursor contents] in *; [|lia..].
    tauto. }
  fold (read_payload off total) in H.
  rewrite payload_at in H by (try assumption; lia).
  injection H as <- <-. auto.
Qed.

Lemma read_field_inv pre suf fields fields' f' :
  read_field fields (stream_at pre suf) = Done (fields', f') ->
  exists fh suf',
    suf = enc_field fh ++ suf'
    /\ accepted_field (Z.of_nat (length (pre ++ suf))) fh
    /\ fields' = <[string_of_list_byte (fh_name fh) := field_of (pre ++ suf) fh]> fields
    /\ f' = stream_at (pre ++ enc_field fh) suf'.
Proof.
  unfold read_field. intros H.
  apply bind_Done in H as (bl & f1 & Hr & H).
  apply SAFE_READ_at_inv in Hr as (Hbl & s1 & -> & ->); [|lia].
  pose proof (le_uint_bound bl) as Bl.
  replace (Z.of_nat (length bl) * 8) with 16 in Bl by lia.
  apply bind_Done in H as (name & f2 & Hr & H).
  apply SAFE_READ_at_inv in Hr as (Hname & s2 & -> & ->); [|lia].
  apply bind_Done in H as (bn & f3 & Hr & H).
  apply SAFE_READ_at_inv in Hr as (Hbn & s3 & -> & ->); [|lia].
  pose proof (le_uint_bound bn) as Bn.
  replace (Z.of_nat (length bn) * 8) with 16 in Bn by lia.
  apply bind_Done in H as (bd & f4 & Hr & H).
  apply SAFE_READ_at_inv in Hr as (Hbd & s4 & -> & ->); [|lia].
  pose proof (le_uint_bound bd) as Bd.
  replace (Z.of_nat (length bd) * 8) with 8 in Bd by lia.
  apply bind_Done in H as (bo & f5 & Hr & H).
  apply SAFE_READ_at_inv in Hr as (Hbo & s5 & -> & ->); [|lia].
  pose proof (le_uint_bound bo) as Bo.
  replace (Z.of_nat (length bo) * 8) with 64 in Bo by lia.
  apply bind_Done in H as (? & ? & Ha & H).
  apply ASSERT_Done in Ha as [Hty [= -> ->]].
  apply Type_code_range in Hty; [|lia].
  apply bind_Done in H as ([sh tot] & f6 & Hr & H).
  apply read_shape_inv in Hr as (Hlen & Hsh & -> & s6 & -> & ->).
  cbv beta iota in H.
  apply bind_Done in H as (dat & f7 & Hp & H).
  apply payload_inv in Hp as (Hoff & Hav & -> & ->);
    [|cbn; lia|lia|apply acc_dims_nonneg; destruct (Type_of_code (le_uint bd)); cbn; lia].
  unfold ret in H. injection H as <- <-.
  exists (mkHeader name (le_uint bd) (le_uint bo) sh), s6.
  assert (E : enc_field (mkHeader name (le_uint bd) (le_uint bo) sh)
              = bl ++ name ++ bn ++ bd ++ bo ++ concat (map (enc_uint 8) sh)).
  { unfold enc_field. cbn [fh_name fh_dtype fh_offset fh_shape].
    rewrite Hname. replace (Z.of_nat (length sh)) with (le_uint bn) by lia.
    rewrite !enc_le_uint' by assumption. reflexivity. }
  assert (Ep : (((((pre ++ bl) ++ name) ++ bn) ++ bd) ++ bo) ++
               concat (map (enc_uint 8) sh)
               = pre ++ bl ++ name ++ bn ++ bd ++ bo ++
                 concat (map (enc_uint 8) sh)).
  { rewrite <- !app_assoc. reflexivity. }
  rewrite Ep in *. unfold stream_at at 1 in Hav. cbn [contents] in *.
  replace ((pre ++ bl ++ name ++ bn ++ bd ++ bo ++
            concat (map (enc_uint 8) sh)) ++ s6)
    with (pre ++ bl ++ name ++ bn ++ bd ++ bo ++
          concat (map (enc_uint 8) sh) ++ s6) in *
    by (rewrite <- !app_assoc; reflexivity).
  split; [|split; [|split]].
  - rewrite E, <- !app_assoc. reflexivity.
  - unfold accepted_field, layout_ok.
    cbn [fh_name fh_dtype fh_offset fh_shape].
    fold (total_size (Type_of_code (le_uint bd)) sh) in Hav.
    repeat split; try lia; try assumption.
  - reflexivity.
  - rewrite E. reflexivity.
Qed.

(** *** The field loop *)

Lemma read_fields_at fhs : forall pre suf fields,
  let bytes := pre ++ concat (map enc_field fhs) ++ suf in
  Z.of_nat (length bytes) <= LONG_MAX ->
  Forall (accepted_field (Z.of_nat (length bytes))) fhs ->
  read_fields (length fhs) fields
              (stream_at pre (concat (map enc_field fhs) ++ suf))
  = Done (fields_of bytes fhs fields,
          stream_at (pre ++ concat (map enc_field fhs)) suf).
Proof.
  induction fhs as [|fh fhs IH]; intros pre suf fields bytes Hlen Hok.
  - cbn. unfold ret. rewrite app_nil_r. reflexivity.
  - apply Forall_cons in Hok as [Hfh Hok].
    assert (Hb : bytes = pre ++ enc_field fh ++ concat (map enc_field fhs) ++ suf).
    { subst bytes. cbn [map concat]. rewrite <- app_assoc. reflexivity. }
    assert (Hb' : bytes = (pre ++ enc_field fh) ++ concat (map enc_field fhs) ++ suf).
    { rewrite Hb, <- app_assoc. reflexivity. }
    clearbody bytes. subst bytes.
    cbn [length read_fields map concat]. rewrite <- app_assoc.
    erewrite bind_step by (apply read_field_at; assumption).
    rewrite Hb' in Hlen, Hok.
    rewrite (IH (pre ++ enc_field fh) suf _ Hlen Hok).
    unfold fields_of. cbn [foldl]. rewrite <- Hb', <- !app_assoc. reflexivity.
Qed.

Lemma read_fields_inv n : forall pre suf fields fields' f',
  read_fields n fields (stream_at pre suf) = Done (fields', f') ->
  exists fhs suf',
    length fhs = n
    /\ suf = concat (map enc_field fhs) ++ suf'
    /\ Forall (accepted_field (Z.of_nat (length (pre ++ suf)))) fhs
    /\ fields' = fields_of (pre ++ suf) fhs fields
    /\ f' = stream_at (pre ++ concat (map enc_field fhs)) suf'.
Proof.
  induction n as [|n IH]; intros pre suf fields fields' f' H.
  - cbn in H. unfold ret in H. injection H as <- <-.
    exists [], suf. cbn. rewrite app_nil_r. auto.
  - cbn [read_fields] in H.
    apply bind_Done in H as (fields1 & f1 & Hf & H).
    apply read_field_inv in Hf as (fh & suf1 & -> & Hok & -> & ->).
    apply IH in H as (fhs & suf2 & Hn & -> & Hoks & -> & ->).
    exists (fh :: fhs), suf2. cbn [length map concat fields_of foldl].
    rewrite <- !app_assoc in *. repeat split; auto.
Qed.

(** *** The constructor *)

Lemma acc_dims_mod shape : forall a,
  0 <= a < size_t_max ->
  acc_dims a shape = (a * foldr Z.mul 1 shape) mod size_t_max.
Proof.
  induction shape as [|d shape IH]; intros a Ha; cbn.
  - rewrite Z.mul_1_r, Z.mod_small; lia.
  - rewrite IH by (apply Z.mod_pos_bound; reflexivity).
    rewrite Z.mul_mod_idemp_l by discriminate. f_equal. lia.
Qed.

Lemma type_size_range ty : 0 <= type_size ty <= 8.
Proof. destruct ty; cbn; lia. Qed.

Lemma total_size_mod ty shape :
  total_size ty shape = payload_size ty shape mod size_t_max.
Proof.
  unfold total_size, payload_size. apply acc_dims_mod.
  pose proof (type_size_range ty). unfold size_t_max. lia.
Qed.

Lemma dims_product_nonneg shape : Forall dim_ok shape -> 0 <= foldr Z.mul 1 shape.
Proof.
  induction 1 as [|d shape Hd _ IH]; cbn; [lia|]. unfold dim_ok in Hd. nia.
Qed.

Lemma payload_size_nonneg ty shape :
  Forall dim_ok shape -> 0 <= payload_size ty shape.
Proof.
  intros H. unfold payload_size. pose proof (type_size_range ty).
  pose proof (dims_product_nonneg shape H). nia.
Qed.

(** When the product fits a [size_t], no wrap-around happens. *)
Lemma total_size_exact ty shape :
  Forall dim_ok shape -> payload_size ty shape < size_t_max ->
  total_size ty shape = payload_size ty shape.
Proof.
  intros Hok Hlt. rewrite total_size_mod. apply Z.mod_small.
  split; [apply payload_size_nonneg, Hok|exact Hlt].
Qed.

Lemma wf_field_accepted len fh :
  len <= LONG_MAX -> wf_field len fh -> accepted_field len fh.
Proof.
  intros Hlen (Hl & Hty & Hav). pose proof Hl as (_ & _ & _ & Ho & Hsh).
  pose proof (payload_size_nonneg (Type_of_code (fh_dtype fh)) _ Hsh) as Hp.
  unfold accepted_field. rewrite total_size_exact.
  - unfold LONG_MAX in *. split; [exact Hl|]. repeat split; lia.
  - exact Hsh.
  - unfold size_t_max, LONG_MAX in *. lia.
Qed.

Lemma enc_header_length fhs :
  Z.of_nat (length fhs) < 2 ^ 32 ->
  Z.of_nat (length (enc_header fhs))
  = 18 + Z.of_nat (length (concat (map enc_field fhs))).
Proof.
  intros Hn. unfold enc_header. rewrite !length_app.
  pose proof (length_enc_uint 4 (Z.of_nat (length fhs)) ltac:(lia)).
  change (length magic) with 12%nat. cbn [length]. lia.
Qed.

(** Up to the field loop, on a file that starts with a header. *)
Lemma load_stream_header bytes fhs rest :
  bytes = enc_header fhs ++ rest ->
  Z.of_nat (length fhs) < 2 ^ 32 ->
  Z.of_nat (length bytes) <= LONG_MAX ->
  load_stream (mkFILE bytes 0)
  = (fields <- read_fields (length fhs) ∅ ;;
     ret (fields, Z.of_nat (length bytes)))
      (stream_at ((magic ++ [x01; x00]) ++ enc_uint 4 (Z.of_nat (length fhs)))
                 (concat (map enc_field fhs) ++ rest)).
Proof.
  intros Hb Hn Hlen. unfold load_stream.
  unfold bind at 1. rewrite fseek_set_ok by lia. cbn [contents].
  unfold bind at 1, ASSERT at 1. cbn [Z.eqb negb].
  unfold bind at 1. rewrite ftell_fits by (cbn [cursor]; lia). cbn [cursor].
  unfold bind at 1, ASSERT at 1.
  destruct (Z.eqb_spec (Z.of_nat (length bytes)) (-1)) as [?|_]; [lia|].
  cbn [negb]. unfold bind at 1. cbn [contents].
  assert (Hsz : 12 + 2 + 4 <= Z.of_nat (length bytes)).
  { rewrite Hb, length_app, Nat2Z.inj_add, enc_header_length by exact Hn. lia. }
  unfold bind at 1, ASSERT at 1.
  destruct (Z.leb_spec (12 + 2 + 4) (Z.of_nat (length bytes))) as [_|?]; [|lia].
  replace (mkFILE bytes 0)
    with (stream_at [] (magic ++ [x01; x00] ++
                        enc_uint 4 (Z.of_nat (length fhs)) ++
                        concat (map enc_field fhs) ++ rest)).
  2:{ unfold stream_at. cbn [app length]. rewrite Hb. unfold enc_header.
      rewrite <- !app_assoc. reflexivity. }
  erewrite bind_step by (apply SAFE_READ_at'; reflexivity).
  erewrite bind_step by (apply (SAFE_READ_at' _ [x01; x00]); reflexivity).
  erewrite bind_step by (apply SAFE_READ_at', length_enc_uint; lia).
  unfold bind at 1, ASSERT at 1. rewrite bool_decide_eq_true_2 by reflexivity.
  unfold bind at 1, ASSERT at 1. rewrite bool_decide_eq_true_2 by reflexivity.
  rewrite le_uint_enc, Z.mod_small, Nat2Z.id by lia. reflexivity.
Qed.

Lemma load_stream_at bytes fhs rest :
  bytes = enc_header fhs ++ rest ->
  Z.of_nat (length fhs) < 2 ^ 32 ->
  Z.of_nat (length bytes) <= LONG_MAX ->
  Forall (accepted_field (Z.of_nat (length bytes))) fhs ->
  load_stream (mkFILE bytes 0)
  = Done ((fields_of bytes fhs ∅, Z.of_nat (length bytes)),
          stream_at (enc_header fhs) rest).
Proof.
  intros Hb Hn Hlen Hok. rewrite (load_stream_header bytes fhs rest Hb Hn Hlen).
  assert (Hb' : bytes = ((magic ++ [x01; x00]) ++
                         enc_uint 4 (Z.of_nat (length fhs))) ++
                        concat (map enc_field fhs) ++ rest).
  { rewrite Hb. unfold enc_header. rewrite <- !app_assoc. reflexivity. }
  erewrite bind_step.
  2:{ apply read_fields_at; rewrite <- Hb'; assumption. }
  unfold ret. rewrite <- Hb'. unfold enc_header. rewrite <- !app_assoc.
  reflexivity.
Qed.

Lemma load_stream_inv bytes fields size f' :
  load_stream (mkFILE bytes 0) = Done ((fields, size), f') ->
  exists fhs rest,
    bytes = enc_header fhs ++ rest
    /\ Z.of_nat (length fhs) < 2 ^ 32
    /\ Z.of_nat (length bytes) <= LONG_MAX
    /\ Forall (accepted_field (Z.of_nat (length bytes))) fhs
    /\ fields = fields_of bytes fhs ∅
    /\ size = Z.of_nat (length bytes).
Proof.
  unfold load_stream. intros H.
  apply bind_Done in H as (s & f1 & [= Hs] & H).
  rewrite fseek_set_ok in Hs by lia. cbn [contents] in Hs. injection Hs as <- <-.
  apply bind_Done in H as (? & ? & Ha & H).
  apply ASSERT_Done in Ha as [_ [= -> ->]].
  apply bind_Done in H as (sz & f2 & [= <- <-] & H).
  apply bind_Done in H as (? & ? & Ha & H).
  apply ASSERT_Done in Ha as [Hsz [= -> ->]].
  unfold ftell in *. cbn [cursor] in *.
  destruct (Z.leb_spec (Z.of_nat (length bytes)) LONG_MAX) as [Hlen|?];
    [|discriminate].
  apply bind_Done in H as (? & f3 & [= <- <-] & H). cbn [contents] in H.
  apply bind_Done in H as (? & ? & Ha & H).
  apply ASSERT_Done in Ha as [_ [= -> ->]].
  change (mkFILE bytes 0) with (stream_at [] bytes) in H.
  apply bind_Done in H as (hd & f4 & Hr & H).
  apply SAFE_READ_at_inv in Hr as (Hhd & s1 & -> & ->); [|lia].
  apply bind_Done in H as (ver & f5 & Hr & H).
  apply SAFE_READ_at_inv in Hr as (Hver & s2 & -> & ->); [|lia].
  apply bind_Done in H as (nb & f6 & Hr & H).
  apply SAFE_READ_at_inv in Hr as (Hnb & s3 & -> & ->); [|lia].
  apply bind_Done in H as (? & ? & Ha & H).
  apply ASSERT_Done in Ha as [Hmagic [= -> ->]].
  apply bool_decide_eq_true_1 in Hmagic.
  apply bind_Done in H as (? & ? & Ha & H).
  apply ASSERT_Done in Ha as [Hv [= -> ->]].
  apply bool_decide_eq_true_1 in Hv.
  apply bind_Done in H as (flds & f7 & Hr & H).
  unfold ret in H. injection H as <- <- <-.
  apply read_fields_inv in Hr as (fhs & rest & Hn & -> & Hok & -> & _).
  pose proof (le_uint_bound nb) as Bn.
  replace (Z.of_nat (length nb) * 8) with 32 in Bn by lia.
  assert (Hcnt : Z.of_nat (length fhs) = le_uint nb) by lia.
  assert (E : hd ++ ver ++ nb ++ concat (map enc_field fhs) ++ rest
              = enc_header fhs ++ rest).
  { unfold enc_header. rewrite Hcnt, (enc_le_uint' nb 4 Hnb), <- !app_assoc.
    rewrite Hmagic, Hv. reflexivity. }
  rewrite <- !app_assoc in *. cbn [app] in *. rewrite E in *.
  exists fhs, rest. repeat split; try assumption; lia.
Qed.

(** *** Rejected files *)

Lemma is_Fatal_bind {A B} (m : io A) (k : A -> io B) f :
  is_Fatal (m f) -> is_Fatal (bind m k f).
Proof. intros [msg H]. unfold bind. rewrite H. exists msg. reflexivity. Qed.

Lemma Done_or_Fatal {A} (o : outcome A) : (exists a, o = Done a) \/ is_Fatal o.
Proof. destruct o as [a|msg]; [left|right]; eexists; reflexivity. Qed.

(** Runs an iteration over an encoded field up to the dtype check. *)
Ltac field_header_steps :=
  unfold read_field, enc_field; rewrite <- !app_assoc;
  erewrite bind_step by (apply SAFE_READ_at', length_enc_uint; lia);
  rewrite le_uint_enc, Z.mod_small by lia;
  erewrite bind_step by (apply SAFE_READ_at'; reflexivity);
  erewrite bind_step by (apply SAFE_READ_at', length_enc_uint; lia);
  erewrite bind_step by (apply SAFE_READ_at', length_enc_uint; lia);
  erewrite bind_step by (apply SAFE_READ_at', length_enc_uint; lia);
  rewrite !le_uint_enc by lia;
  rewrite (Z.mod_small (fh_dtype _)), (Z.mod_small (fh_offset _)),
    (Z.mod_small (Z.of_nat (length (fh_shape _)))) by lia;
  unfold bind at 1; unfold ASSERT at 1.

(** A field whose header is laid out correctly is either stored as read, or
    ends the process; it ends the process when its dtype code is unknown. *)
Lemma read_field_enc pre fh suf fields :
  layout_ok fh ->
  (~ 1 <= fh_dtype fh <= 11 ->
   read_field fields (stream_at pre (enc_field fh ++ suf))
   = Fatal "Invalid tensor file: unknown type.")
  /\ (forall r, read_field fields (stream_at pre (enc_field fh ++ suf)) = Done r ->
      snd r = stream_at (pre ++ enc_field fh) suf).
Proof.
  intros (Hn & Hr & Hd & Ho & Hsh).
  pose proof (Type_code_range (fh_dtype fh) (proj1 Hd)) as Hrange.
  split; [intros Hbad|intros r]; field_header_steps;
    destruct (negb (fh_dtype fh =? Type_code Invalid)
              && (fh_dtype fh <=? Type_code Float64)).
  - tauto.
  - reflexivity.
  - rewrite Nat2Z.id.
    erewrite bind_step by (apply read_shape_at, Hsh).
    cbv beta iota. intros H.
    apply bind_Done in H as (dat & f' & Hp & H).
    apply payload_inv in Hp as (_ & _ & _ & ->);
      [|cbn; lia|lia|apply acc_dims_nonneg, type_size_range].
    unfold ret in H. injection H as <-. cbn [snd].
    rewrite <- !app_assoc. reflexivity.
  - discriminate.
Qed.

Lemma read_fields_bad_dtype fhs1 fh fhs2 suf : forall pre fields,
  Forall layout_ok fhs1 -> layout_ok fh -> ~ 1 <= fh_dtype fh <= 11 ->
  is_Fatal (read_fields (length (fhs1 ++ fh :: fhs2)) fields
              (stream_at pre (concat (map enc_field (fhs1 ++ fh :: fhs2)) ++ suf))).
Proof.
  induction fhs1 as [|fh1 fhs1 IH]; intros pre fields Hok1 Hok Hbad.
  - cbn [app length read_fields map concat]. rewrite <- app_assoc.
    apply is_Fatal_bind. eexists.
    apply (read_field_enc pre fh _ fields Hok), Hbad.
  - apply Forall_cons in Hok1 as [Hfh1 Hok1].
    cbn [app length read_fields map concat]. rewrite <- app_assoc.
    unfold bind.
    destruct (read_field fields _) as [[fields1 f1]|msg] eqn:E;
      [|eexists; reflexivity].
    apply (read_field_enc pre fh1 _ fields Hfh1) in E. cbn [snd] in E. subst f1.
    apply IH; assumption.
Qed.

(** *** The loader as a whole *)

(** The files the constructor accepts, and what it builds from them. *)
Lemma Tensor_Done_iff fs filename tf :
  Tensor fs filename = Done tf
  <-> exists bytes fhs rest,
        fs filename = Some bytes
        /\ bytes = enc_header fhs ++ rest
        /\ Z.of_nat (length fhs) < 2 ^ 32
        /\ Z.of_nat (length bytes) <= LONG_MAX
        /\ Forall (accepted_field (Z.of_nat (length bytes))) fhs
        /\ tf = mkTensor (fields_of bytes fhs ∅) filename
                         (Z.of_nat (length bytes)).
Proof.
  unfold Tensor. split.
  - destruct (fs filename) as [bytes|]; [|discriminate].
    destruct (load_stream (mkFILE bytes 0)) as [[[fields size] f']|msg] eqn:E;
      [|discriminate].
    intros [= <-].
    apply load_stream_inv in E as (fhs & rest & Hb & Hn & Hlen & Hok & -> & ->).
    exists bytes, fhs, rest. auto 10.
  - intros (bytes & fhs & rest & -> & Hb & Hn & Hlen & Hok & ->).
    rewrite (load_stream_at bytes fhs rest Hb Hn Hlen Hok). reflexivity.
Qed.

Lemma fields_of_lookup bytes fhs : forall init name fld,
  fields_of bytes fhs init !! name = Some fld ->
  init !! name = Some fld
  \/ exists fh, In fh fhs /\ fld = field_of bytes fh.
Proof.
  induction fhs as [|fh fhs IH]; intros init name fld H; cbn in H; [auto|].
  apply IH in H as [H|(fh' & Hin & ->)].
  - destruct (decide (string_of_list_byte (fh_name fh) = name)) as [<-|Hne].
    + rewrite lookup_insert_eq in H. injection H as <-.
      right. exists fh. split; [left; reflexivity|reflexivity].
    + rewrite lookup_insert_ne in H by exact Hne. auto.
  - right. exists fh'. split; [right; exact Hin|reflexivity].
Qed.

Lemma slice_length bytes off n :
  0 <= off -> 0 <= n ->
  n = 0 \/ off + n <= Z.of_nat (length bytes) ->
  Z.of_nat (length (slice bytes off n)) = n.
Proof.
  intros Hoff Hn Hav. unfold slice. rewrite length_take, length_drop. lia.
Qed.

(** Every field of a loaded tensor holds the bytes found at its recorded
    offset, [total_size] of them. *)
Lemma Tensor_payload fs filename tf bytes name fld :
  Tensor fs filename = Done tf -> fs filename = Some bytes ->
  m_fields tf !! name = Some fld ->
  data fld = slice bytes (offset fld) (total_size (dtype fld) (shape fld))
  /\ Z.of_nat (length (data fld)) = total_size (dtype fld) (shape fld)
  /\ Forall dim_ok (shape fld).
Proof.
  intros H Hfs Hl.
  apply Tensor_Done_iff in H as (b & fhs & rest & Hfs' & Hb & Hn & Hlen & Hok & ->).
  assert (b = bytes) as -> by congruence. cbn [m_fields] in Hl.
  apply fields_of_lookup in Hl as [Hl|(fh & Hin & ->)].
  - rewrite lookup_empty in Hl. discriminate.
  - rewrite Forall_forall in Hok.
    destruct (Hok fh (proj2 (list_elem_of_In _ _) Hin))
      as ((_ & _ & _ & Ho & Hsh) & _ & _ & Hav).
    unfold field_of. cbn [data offset dtype shape].
    split; [reflexivity|split; [|exact Hsh]].
    apply slice_length; [lia|apply total_size_nonneg|exact Hav].
Qed.

(** Every field of a loaded tensor comes from an entry of the header that
    the loader accepted. *)
Lemma Tensor_field_header fs filename tf bytes name fld :
  Tensor fs filename = Done tf -> fs filename = Some bytes ->
  m_fields tf !! name = Some fld ->
  exists fh, accepted_field (Z.of_nat (length bytes)) fh
             /\ fld = field_of bytes fh.
Proof.
  intros H Hfs Hl.
  apply Tensor_Done_iff in H as (b & fhs & rest & Hfs' & Hb & Hn & Hlen & Hok & ->).
  assert (b = bytes) as -> by congruence. cbn [m_fields] in Hl.
  apply fields_of_lookup in Hl as [Hl|(fh & Hin & ->)].
  - rewrite lookup_empty in Hl. discriminate.
  - rewrite Forall_forall in Hok. exists fh.
    split; [apply Hok, list_elem_of_In, Hin|reflexivity].
Qed.

Lemma Type_code_of_code c : 1 <= c <= 11 -> Type_code (Type_of_code c) = c.
Proof.
  intros Hc.
  assert (c = 1 \/ c = 2 \/ c = 3 \/ c = 4 \/ c = 5 \/ c = 6 \/ c = 7
          \/ c = 8 \/ c = 9 \/ c = 10 \/ c = 11) as Hcases by lia.
  repeat destruct Hcases as [->|Hcases]; try reflexivity. subst c. reflexivity.
Qed.

Lemma Tensor_rejects_bad_dtype fs filename bytes fhs1 fh fhs2 rest :
  fs filename = Some bytes ->
  bytes = enc_header (fhs1 ++ fh :: fhs2) ++ rest ->
  Z.of_nat (length (fhs1 ++ fh :: fhs2)) < 2 ^ 32 ->
  Forall layout_ok fhs1 -> layout_ok fh ->
  fh_dtype fh = 0 \/ 11 < fh_dtype fh ->
  is_Fatal (Tensor fs filename).
Proof.
  intros Hfs Hb Hn Hok1 Hok Hbad. unfold Tensor. rewrite Hfs.
  destruct (Z.le_gt_cases (Z.of_nat (length bytes)) LONG_MAX) as [Hlen|Hlen].
  - rewrite (load_stream_header bytes _ rest Hb Hn Hlen).
    pose proof (read_fields_bad_dtype fhs1 fh fhs2 rest
                  ((magic ++ [x01; x00]) ++
                   enc_uint 4 (Z.of_nat (length (fhs1 ++ fh :: fhs2))))
                  ∅ Hok1 Hok ltac:(lia)) as [msg Hf].
    unfold bind. rewrite Hf. exists msg. reflexivity.
  - destruct (load_stream (mkFILE bytes 0)) as [[[fields size] f']|msg] eqn:E.
    + apply load_stream_inv in E as (_ & _ & _ & _ & ? & _). lia.
    + exists msg. reflexivity.
Qed.

(** *** A header is read back in one way only *)

Lemma enc_uint_app_inj k x y (r1 r2 : list byte) :
  0 <= k -> 0 <= x < 2 ^ (k * 8) -> 0 <= y < 2 ^ (k * 8) ->
  enc_uint k x ++ r1 = enc_uint k y ++ r2 -> x = y /\ r1 = r2.
Proof.
  intros Hk Hx Hy H.
  apply app_inj_1 in H as [H ->].
  - split; [|reflexivity]. apply (f_equal le_uint) in H.
    rewrite !le_uint_enc, !Z.mod_small in H by lia. exact H.
  - apply Nat2Z.inj. rewrite !length_enc_uint by lia. reflexivity.
Qed.

Lemma enc_dims_inj sh1 : forall sh2 (r1 r2 : list byte),
  length sh1 = length sh2 -> Forall dim_ok sh1 -> Forall dim_ok sh2 ->
  concat (map (enc_uint 8) sh1) ++ r1 = concat (map (enc_uint 8) sh2) ++ r2 ->
  sh1 = sh2 /\ r1 = r2.
Proof.
  induction sh1 as [|d1 sh1 IH]; intros [|d2 sh2] r1 r2 Hl H1 H2 H;
    try discriminate.
  - auto.
  - apply Forall_cons in H1 as [Hd1 H1]. apply Forall_cons in H2 as [Hd2 H2].
    cbn [map concat] in H. rewrite <- !app_assoc in H.
    apply enc_uint_app_inj in H as [-> H]; [|lia|exact Hd1|exact Hd2].
    apply IH in H as [-> ->]; auto.
Qed.

Lemma enc_field_inj a b (ra rb : list byte) :
  layout_ok a -> layout_ok b ->
  enc_field a ++ ra = enc_field b ++ rb -> a = b /\ ra = rb.
Proof.
  intros (Hn1 & Hr1 & Hd1 & Ho1 & Hs1) (Hn2 & Hr2 & Hd2 & Ho2 & Hs2) H.
  destruct a as [n1 d1 o1 s1], b as [n2 d2 o2 s2].
  unfold enc_field in H. cbn [fh_name fh_dtype fh_offset fh_shape] in *.
  rewrite <- !app_assoc in H.
  apply enc_uint_app_inj in H as [Hlen H]; [|lia..].
  apply app_inj_1 in H as [-> H]; [|lia].
  apply enc_uint_app_inj in H as [Hrank H]; [|lia..].
  apply enc_uint_app_inj in H as [-> H]; [|lia..].
  apply enc_uint_app_inj in H as [-> H]; [|lia..].
  apply enc_dims_inj in H as [-> ->]; [auto|lia|assumption..].
Qed.

Lemma enc_fields_inj A : forall B (ra rb : list byte),
  length A = length B -> Forall layout_ok A -> Forall layout_ok B ->
  concat (map enc_field A) ++ ra = concat (map enc_field B) ++ rb ->
  A = B /\ ra = rb.
Proof.
  induction A as [|a A IH]; intros [|b B] ra rb Hl HA HB H; try discriminate.
  - auto.
  - apply Forall_cons in HA as [Ha HA]. apply Forall_cons in HB as [Hb HB].
    cbn [map concat] in H. rewrite <- !app_assoc in H.
    apply enc_field_inj in H as [-> H]; [|assumption..].
    apply IH in H as [-> ->]; auto.
Qed.

Lemma enc_header_inj A B (ra rb : list byte) :
  Z.of_nat (length A) < 2 ^ 32 -> Z.of_nat (length B) < 2 ^ 32 ->
  Forall layout_ok A -> Forall layout_ok B ->
  enc_header A ++ ra = enc_header B ++ rb -> A = B /\ ra = rb.
Proof.
  intros HnA HnB HA HB H. unfold enc_header in H. rewrite <- !app_assoc in H.
  apply app_inv_head in H. apply app_inv_head in H.
  apply enc_uint_app_inj in H as [Hl H]; [|lia..].
  apply enc_fields_inj in H; [exact H|lia|assumption..].
Qed.

Lemma accepted_layout_ok len fhs :
  Forall (accepted_field len) fhs -> Forall layout_ok fhs.
Proof. intros H. eapply Forall_impl; [exact H|]. intros fh Hf. apply Hf. Qed.

(** For a file that starts with a correctly laid out header, acceptance is
    decided by the fields: each needs a known dtype code, a seekable offset and
    its payload inside the file. *)
Lemma Tensor_header_Done_iff fs filename bytes fhs rest :
  fs filename = Some bytes ->
  bytes = enc_header fhs ++ rest ->
  Z.of_nat (length fhs) < 2 ^ 32 -> Forall layout_ok fhs ->
  (exists tf, Tensor fs filename = Done tf)
  <-> Z.of_nat (length bytes) <= LONG_MAX
      /\ Forall (accepted_field (Z.of_nat (length bytes))) fhs.
Proof.
  intros Hfs Hb Hn Hok. split.
  - intros [tf H].
    apply Tensor_Done_iff in H as (b & B & rB & Hfs' & Hb' & HnB & Hlen & HB & _).
    assert (b = bytes) as -> by congruence.
    rewrite Hb in Hb' at 1.
    apply enc_header_inj in Hb' as [-> _];
      eauto using accepted_layout_ok.
  - intros [Hlen Hacc]. eexists. apply Tensor_Done_iff.
    exists bytes, fhs, rest. auto 10.
Qed.

Lemma wf_file_accepted bytes fhs :
  wf_file bytes fhs ->
  Forall (accepted_field (Z.of_nat (length bytes))) fhs.
Proof.
  intros (_ & _ & Hlen & Hwf). eapply Forall_impl; [exact Hwf|].
  intros fh. apply wf_field_accepted, Hlen.
Qed.

Lemma wf_file_layout bytes fhs : wf_file bytes fhs -> Forall layout_ok fhs.
Proof.
  intros H. eapply accepted_layout_ok, wf_file_accepted, H.
Qed.

(** A well-formed file cut short, inside its header or inside the payload of
    one of its fields, is refused. *)
Lemma Tensor_rejects_truncated fs filename full fhs (k : nat) :
  wf_file full fhs ->
  fs filename = Some (take k full) ->
  (k < length (enc_header fhs))%nat
  \/ (exists fh, In fh fhs
        /\ 0 < payload_size (Type_of_code (fh_dtype fh)) (fh_shape fh)
        /\ Z.of_nat k < fh_offset fh
                        + payload_size (Type_of_code (fh_dtype fh)) (fh_shape fh)) ->
  is_Fatal (Tensor fs filename).
Proof.
  intros Hwf Hfs Hcut.
  destruct (Done_or_Fatal (Tensor fs filename)) as [[tf H]|HF]; [|exact HF].
  exfalso.
  apply Tensor_Done_iff in H as (b & B & rB & Hfs' & Hb & HnB & Hlen & HB & _).
  assert (b = take k full) as -> by congruence.
  pose proof Hwf as ((rest & Hfull) & Hn & HlenF & Hwff).
  assert (HeqB : B = fhs).
  { assert (E : enc_header B ++ (rB ++ drop k full) = enc_header fhs ++ rest).
    { rewrite app_assoc, <- Hb, take_drop. exact Hfull. }
    apply enc_header_inj in E as [-> _];
      eauto using accepted_layout_ok, wf_file_layout. }
  subst B. destruct Hcut as [Hcut|(fh & Hin & Hpos & Hcut)].
  - apply (f_equal (@length byte)) in Hb.
    rewrite length_take, length_app in Hb. lia.
  - rewrite Forall_forall in HB, Hwff.
    apply list_elem_of_In in Hin.
    destruct (HB fh Hin) as (Hl & _ & _ & Hav).
    destruct (Hwff fh Hin) as (_ & _ & Hin_file).
    pose proof Hl as (_ & _ & _ & Ho & Hsh).
    rewrite total_size_exact in Hav;
      [|exact Hsh|unfold size_t_max, LONG_MAX in *; lia].
    rewrite length_take in Hav. lia.
Qed.

Lemma take_magic fhs rest : take 12 (enc_header fhs ++ rest) = magic.
Proof.
  unfold enc_header. rewrite <- app_assoc.
  apply (take_app_length magic).
Qed.

Lemma take_version fhs rest :
  take 2 (drop 12 (enc_header fhs ++ rest)) = [x01; x00].
Proof.
  unfold enc_header. rewrite <- app_assoc.
  rewrite (drop_app_length magic). reflexivity.
Qed.

Lemma Tensor_too_small fs filename bytes :
  fs filename = Some bytes -> Z.of_nat (length bytes) < 18 ->
  Tensor fs filename = Fatal "Invalid tensor file: too small, truncated?".
Proof.
  intros Hfs Hlen. unfold Tensor. rewrite Hfs. unfold load_stream.
  unfold bind at 1. rewrite fseek_set_ok by lia. cbn [contents].
  unfold bind at 1, ASSERT at 1. cbn [Z.eqb negb].
  unfold bind at 1. rewrite ftell_fits by (cbn [cursor]; unfold LONG_MAX; lia).
  cbn [cursor].
  unfold bind at 1, ASSERT at 1.
  destruct (Z.eqb_spec (Z.of_nat (length bytes)) (-1)) as [?|_]; [lia|].
  cbn [negb]. unfold bind at 1. cbn [contents].
  unfold bind at 1, ASSERT at 1.
  destruct (Z.leb_spec (12 + 2 + 4) (Z.of_nat (length bytes))) as [?|_]; [lia|].
  reflexivity.
Qed.

(** C7, as amended.  The tensor loader ends the process on a file that is
    too small or cut short, on a wrong magic string, on a version other than
    1.0, on a field whose dtype code is 0 or above 11, and whenever a read or
    a seek fails (a file is only accepted when its whole header, a seekable
    offset and the payload of every field were found).  It accepts every
    well-formed file, whatever the number, names and shapes of the fields.
    In an accepted file every field has a dtype code from 1 to 11, of 1, 1,
    2, 2, 4, 4, 8, 8, 2, 4 and 8 bytes, and its payload is the slice of the
    file at the absolute offset of the header whose length is the product of
    the shape and the dtype size reduced modulo [2^64], as the loader
    computes it in a [size_t]; the slice lies inside the file unless it is
    empty.  That length is the exact product whenever the product is below
    [2^64], as in every well-formed file. *)
Theorem Tensor_loader_contract fs filename bytes :
  fs filename = Some bytes ->
  (Z.of_nat (length bytes) < 18 ->
   Tensor fs filename = Fatal "Invalid tensor file: too small, truncated?")
  /\ (forall full fhs (k : nat),
        wf_file full fhs -> bytes = take k full ->
        (k < length (enc_header fhs))%nat
        \/ (exists fh, In fh fhs
              /\ 0 < payload_size (Type_of_code (fh_dtype fh)) (fh_shape fh)
              /\ Z.of_nat k < fh_offset fh
                    + payload_size (Type_of_code (fh_dtype fh)) (fh_shape fh)) ->
        is_Fatal (Tensor fs filename))
  /\ (take 12 bytes <> magic -> is_Fatal (Tensor fs filename))
  /\ (take 2 (drop 12 bytes) <> [x01; x00] -> is_Fatal (Tensor fs filename))
  /\ (forall fhs1 fh fhs2 rest,
        bytes = enc_header (fhs1 ++ fh :: fhs2) ++ rest ->
        Z.of_nat (length (fhs1 ++ fh :: fhs2)) < 2 ^ 32 ->
        Forall layout_ok fhs1 -> layout_ok fh ->
        fh_dtype fh = 0 \/ 11 < fh_dtype fh ->
        is_Fatal (Tensor fs filename))
  /\ (forall tf, Tensor fs filename = Done tf ->
        exists fhs rest,
          bytes = enc_header fhs ++ rest
          /\ Forall (accepted_field (Z.of_nat (length bytes))) fhs)
  /\ (forall fhs, wf_file bytes fhs ->
        Tensor fs filename
        = Done (mkTensor (fields_of bytes fhs ∅) filename
                         (Z.of_nat (length bytes)))
        /\ Forall (fun fh =>
                     total_size (Type_of_code (fh_dtype fh)) (fh_shape fh)
                     = payload_size (Type_of_code (fh_dtype fh)) (fh_shape fh))
                  fhs)
  /\ (forall tf name fld,
        Tensor fs filename = Done tf -> m_fields tf !! name = Some fld ->
        data fld = slice bytes (offset fld) (total_size (dtype fld) (shape fld))
        /\ Z.of_nat (length (data fld)) = total_size (dtype fld) (shape fld)
        /\ (payload_size (dtype fld) (shape fld) < size_t_max ->
            total_size (dtype fld) (shape fld)
            = payload_size (dtype fld) (shape fld))
        /\ 1 <= Type_code (dtype fld) <= 11
        /\ type_size (dtype fld)
           = match Type_code (dtype fld) with
             | 1 | 2 => 1
             | 3 | 4 | 9 => 2
             | 5 | 6 | 10 => 4
             | _ => 8
             end
        /\ total_size (dtype fld) (shape fld)
           = (type_size (dtype fld) * foldr Z.mul 1 (shape fld)) mod 2 ^ 64
        /\ 0 <= offset fld <= LONG_MAX
        /\ (total_size (dtype fld) (shape fld) = 0
            \/ offset fld + total_size (dtype fld) (shape fld)
               <= Z.of_nat (length bytes))).
Proof.
  intros Hfs. repeat apply conj.
  - apply Tensor_too_small, Hfs.
  - intros full fhs k Hwf -> Hcut.
    eapply Tensor_rejects_truncated; eassumption.
  - intros Hm.
    destruct (Done_or_Fatal (Tensor fs filename)) as [[tf H]|HF]; [|exact HF].
    apply Tensor_Done_iff in H as (b & B & rB & Hfs' & -> & _).
    assert (bytes = enc_header B ++ rB) as -> by congruence.
    destruct Hm. apply take_magic.
  - intros Hv.
    destruct (Done_or_Fatal (Tensor fs filename)) as [[tf H]|HF]; [|exact HF].
    apply Tensor_Done_iff in H as (b & B & rB & Hfs' & -> & _).
    assert (bytes = enc_header B ++ rB) as -> by congruence.
    destruct Hv. apply take_version.
  - intros fhs1 fh fhs2 rest. apply Tensor_rejects_bad_dtype, Hfs.
  - intros tf H.
    apply Tensor_Done_iff in H as (b & B & rB & Hfs' & Hb & _ & _ & HB & _).
    assert (b = bytes) as -> by congruence. eauto.
  - intros fhs Hwf. split.
    + apply Tensor_Done_iff. pose proof Hwf as ((rest & Hb) & Hn & Hlen & _).
      exists bytes, fhs, rest. auto 10 using wf_file_accepted.
    + destruct Hwf as (_ & _ & Hlen & Hwf). eapply Forall_impl; [exact Hwf|].
      intros fh ((_ & _ & _ & Ho & Hsh) & _ & Hav). cbn beta.
      pose proof (payload_size_nonneg (Type_of_code (fh_dtype fh)) _ Hsh).
      apply total_size_exact; [exact Hsh|].
      unfold size_t_max, LONG_MAX in *. lia.
  - intros tf name fld H Hl.
    destruct (Tensor_payload fs filename tf bytes name fld H Hfs Hl)
      as (Hd & Hlen & Hsh).
    destruct (Tensor_field_header fs filename tf bytes name fld H Hfs Hl)
      as (fh & ((_ & _ & _ & Ho & _) & Hty & Hoff & Hav) & ->).
    cbn [field_of dtype offset shape] in *.
    pose proof (Type_code_of_code _ Hty) as Hcode.
    split; [exact Hd|]. split; [exact Hlen|].
    split; [apply total_size_exact, Hsh|].
    split; [rewrite Hcode; exact Hty|].
    split.
    { destruct (Type_of_code (fh_dtype fh)); cbn in Hcode |- *;
        try reflexivity. lia. }
    split; [apply total_size_mod|].
    split; [lia|exact Hav].
Qed.

(** A file of 48 bytes whose only field, of dtype [UInt8], announces the
    shape [[2^32; 2^32]]: the loader accepts it with an empty payload, while
    the product of the shape and the dtype size is [2^64]. *)
Lemma wrapped_payload_is_accepted :
  exists tf fld,
    Tensor (fun _ => Some (enc_header [mkHeader (list_byte_of_string "a") 1 0
                                                [2 ^ 32; 2 ^ 32]]))
           "w.bsdf" = Done tf
    /\ m_fields tf !! "a"%string = Some fld
    /\ dtype fld = UInt8 /\ shape fld = [2 ^ 32; 2 ^ 32]
    /\ data fld = []
    /\ payload_size (dtype fld) (shape fld) = 2 ^ 64
    /\ Z.of_nat (length (data fld)) <> payload_size (dtype fld) (shape fld).
Proof.
  destruct (Tensor (fun _ => Some (enc_header
                                     [mkHeader (list_byte_of_string "a") 1 0
                                               [2 ^ 32; 2 ^ 32]])) "w.bsdf")
    as [tf|msg] eqn:Htf; [|vm_compute in Htf; discriminate].
  exists tf, (mkField UInt8 0 [2 ^ 32; 2 ^ 32] []).
  vm_compute in Htf. injection Htf as <-.
  repeat split; vm_compute; (reflexivity || discriminate).
Qed.

Lemma Tensor_loader_contract_witness :
  exists fhs rest,
    Measured.measured_file = enc_header fhs ++ rest
    /\ Forall (accepted_field (Z.of_nat (length Measured.measured_file))) fhs.
Proof.
  destruct (Tensor (fun _ => Some Measured.measured_file) "m.bsdf")
    as [tf|msg] eqn:E; [|vm_compute in E; discriminate].
  destruct (Tensor_loader_contract (fun _ => Some Measured.measured_file)
              "m.bsdf" Measured.measured_file eq_refl)
    as (_ & _ & _ & _ & _ & Hacc & _).
  exact (Hacc tf E).
Defined.

End TensorFacts.

(** ** The measured-BRDF resource *)

Module MeasuredFacts.
Import Tensor Measured.

Section Create.

Variable float32 : list byte -> R.
Variable rint : R -> Z.

Local Abbreviation Create := (Measured.Create float32 rint).
Local Abbreviation BRDFDataFromFile := (Measured.BRDFDataFromFile float32 rint).
Local Abbreviation serve := (Measured.serve float32 rint).

Lemma field_Some tf name fld :
  m_fields tf !! name = Some fld -> field tf name = Done fld.
Proof. unfold field. intros ->. reflexivity. Qed.

Lemma field_None tf name :
  m_fields tf !! name = None ->
  field tf name = Fatal "Check failed: it != m_fields.end()".
Proof. unfold field. intros ->. reflexivity. Qed.

(** A missing field stops [Create] at the [CHECK] of [Tensor::field]. *)
Lemma Create_missing_field fs filename tf name :
  Tensor fs filename = Done tf ->
  In name required_fields -> m_fields tf !! name = None ->
  Create fs filename = Fatal "Check failed: it != m_fields.end()".
Proof.
  intros Htf Hin Hmiss. unfold Measured.Create. rewrite Htf. cbn [obind].
  unfold required_fields in Hin. cbn [In] in Hin.
  repeat match goal with
  | |- obind (field tf ?n) _ = _ =>
      let E := fresh "E" in
      destruct (m_fields tf !! n) as [?fld|] eqn:E;
      [rewrite (field_Some _ _ _ E); cbn [obind]
      |rewrite (field_None _ _ E); reflexivity]
  end.
  exfalso.
  repeat (destruct Hin as [<-|Hin]; [congruence|]). exact Hin.
Qed.

(** With the ten fields present, a structure that fails the check gives the
    null pointer and one message. *)
Lemma Create_bad_structure fs filename tf
  theta_i phi_i ndf sigma vndf spectra luminance wavelengths description jacobian :
  Tensor fs filename = Done tf ->
  m_fields tf !! "theta_i"%string = Some theta_i ->
  m_fields tf !! "phi_i"%string = Some phi_i ->
  m_fields tf !! "ndf"%string = Some ndf ->
  m_fields tf !! "sigma"%string = Some sigma ->
  m_fields tf !! "vndf"%string = Some vndf ->
  m_fields tf !! "spectra"%string = Some spectra ->
  m_fields tf !! "luminance"%string = Some luminance ->
  m_fields tf !! "wavelengths"%string = Some wavelengths ->
  m_fields tf !! "description"%string = Some description ->
  m_fields tf !! "jacobian"%string = Some jacobian ->
  structure_ok theta_i phi_i ndf sigma vndf spectra luminance wavelengths
               description jacobian = false ->
  Create fs filename
  = Done (mkCreated None [filename +:+ ": invalid BRDF file structure: "]).
Proof.
  intros Htf H1 H2 H3 H4 H5 H6 H7 H8 H9 H10 Hbad.
  unfold Measured.Create. rewrite Htf. cbn [obind].
  rewrite (field_Some _ _ _ H1), (field_Some _ _ _ H2), (field_Some _ _ _ H3),
    (field_Some _ _ _ H4), (field_Some _ _ _ H5), (field_Some _ _ _ H6),
    (field_Some _ _ _ H7), (field_Some _ _ _ H8), (field_Some _ _ _ H9),
    (field_Some _ _ _ H10).
  cbn [obind]. rewrite Hbad. reflexivity.
Qed.

(** *** The table of loaded resources *)

Lemma BRDFDataFromFile_hit fs name c v :
  loadedData c !! name = Some v ->
  BRDFDataFromFile fs name c = Done (v, c).
Proof.
  intros H. unfold Measured.BRDFDataFromFile. rewrite H. cbn [obind].
  rewrite H. reflexivity.
Qed.

Lemma BRDFDataFromFile_miss fs name c r :
  loadedData c !! name = None -> Measured.Create float32 rint fs name = Done r ->
  BRDFDataFromFile fs name c
  = Done (resource r,
          mkCache (<[name := resource r]> (loadedData c))
                  (builds c ++ [name]) (errors c ++ diagnostics r)).
Proof.
  intros H Hr. unfold Measured.BRDFDataFromFile. rewrite H, Hr. cbn [obind loadedData].
  rewrite lookup_insert_eq. reflexivity.
Qed.

Lemma BRDFDataFromFile_inv fs name c v c' :
  BRDFDataFromFile fs name c = Done (v, c') ->
  (loadedData c !! name = Some v /\ c' = c)
  \/ (loadedData c !! name = None
      /\ exists r, Measured.Create float32 rint fs name = Done r /\ v = resource r
         /\ c' = mkCache (<[name := resource r]> (loadedData c))
                         (builds c ++ [name]) (errors c ++ diagnostics r)).
Proof.
  intros H. destruct (loadedData c !! name) as [w|] eqn:E.
  - rewrite (BRDFDataFromFile_hit fs name c w E) in H. injection H as <- <-. auto.
  - destruct (Measured.Create float32 rint fs name) as [r|msg] eqn:Er.
    + rewrite (BRDFDataFromFile_miss fs name c r E Er) in H.
      injection H as <- <-. right. eauto.
    + unfold Measured.BRDFDataFromFile in H. rewrite E, Er in H. discriminate.
Qed.

Lemma build_count_app name c l e :
  build_count name (mkCache l (builds c ++ [name]) e) = S (build_count name c).
Proof.
  unfold build_count. cbn [builds]. rewrite filter_app, length_app.
  cbn. rewrite decide_True by reflexivity. cbn. lia.
Qed.

Lemma build_count_app_ne name n c l e :
  n <> name ->
  build_count name (mkCache l (builds c ++ [n]) e) = build_count name c.
Proof.
  intros Hne. unfold build_count. cbn [builds]. rewrite filter_app, length_app.
  cbn. rewrite decide_False by exact Hne. cbn. lia.
Qed.

Lemma cache_inv_init : cache_inv init_cache.
Proof. intros name. unfold init_cache. cbn. rewrite lookup_empty. reflexivity. Qed.

Lemma cache_inv_call fs name c v c' :
  cache_inv c -> BRDFDataFromFile fs name c = Done (v, c') -> cache_inv c'.
Proof.
  intros Hinv H.
  apply BRDFDataFromFile_inv in H as [[_ ->]|(Hmiss & r & _ & _ & ->)];
    [exact Hinv|].
  intros n. cbn [loadedData]. destruct (decide (name = n)) as [<-|Hne].
  - rewrite build_count_app, lookup_insert_eq, Hinv, Hmiss. reflexivity.
  - rewrite build_count_app_ne, lookup_insert_ne by assumption. apply Hinv.
Qed.

Lemma entries_kept_call fs name c v c' n w :
  BRDFDataFromFile fs name c = Done (v, c') ->
  loadedData c !! n = Some w -> loadedData c' !! n = Some w.
Proof.
  intros H Hn.
  apply BRDFDataFromFile_inv in H as [[_ ->]|(Hmiss & r & _ & _ & ->)];
    [exact Hn|].
  cbn [loadedData]. rewrite lookup_insert_ne; [exact Hn|]. congruence.
Qed.

Lemma serve_inv reqs : forall c rs c',
  cache_inv c -> serve reqs c = Done (rs, c') ->
  cache_inv c'
  /\ forall n w, loadedData c !! n = Some w -> loadedData c' !! n = Some w.
Proof.
  induction reqs as [|[fs name] reqs IH]; intros c rs c' Hinv H.
  - cbn in H. injection H as <- <-. auto.
  - cbn [Measured.serve] in H.
    destruct (BRDFDataFromFile fs name c) as [[v c1]|msg] eqn:E1;
      [|discriminate].
    cbn [obind snd fst] in H.
    destruct (serve reqs c1) as [[rs1 c2]|msg] eqn:E2; [|discriminate].
    cbn [obind snd fst] in H. injection H as <- <-.
    destruct (IH c1 rs1 c2 (cache_inv_call _ _ _ _ _ Hinv E1) E2) as [Hinv2 Hkept].
    split; [exact Hinv2|]. intros n w Hn.
    eapply Hkept, entries_kept_call; eassumption.
Qed.

Lemma serve_app reqs1 : forall reqs2 c rs c',
  serve (reqs1 ++ reqs2) c = Done (rs, c') ->
  exists rs1 c1 rs2,
    serve reqs1 c = Done (rs1, c1) /\ serve reqs2 c1 = Done (rs2, c')
    /\ rs = rs1 ++ rs2.
Proof.
  induction reqs1 as [|[fs name] reqs1 IH]; intros reqs2 c rs c' H.
  - exists [], c, rs. auto.
  - cbn [app Measured.serve] in H |- *.
    destruct (BRDFDataFromFile fs name c) as [[v c1]|msg]; [|discriminate].
    cbn [obind snd fst] in H |- *.
    destruct (serve (reqs1 ++ reqs2) c1) as [[rs' c2]|msg] eqn:E; [|discriminate].
    cbn [obind snd fst] in H. injection H as <- <-.
    apply IH in E as (rs1 & c1' & rs2 & -> & E2 & ->).
    cbn [obind snd fst]. exists (v :: rs1), c1', rs2. auto.
Qed.

(** C9, as amended.  For requests served one after the other, starting from
    the empty table and whatever the files are at the time of each request:
    no path goes through [Create] more than once, and a path that was
    requested went through it exactly once; a request for a path already in
    the table returns the stored pointer and leaves the table as it is; no
    later request removes or replaces an entry.  (Requests that overlap are
    not covered: nothing in [BRDFDataFromFile] orders their statements.) *)
Theorem BRDFDataFromFile_memoized reqs rs c :
  serve reqs init_cache = Done (rs, c) ->
  (forall name, (build_count name c <= 1)%nat)
  /\ (forall fs name, In (fs, name) reqs ->
        build_count name c = 1%nat /\ is_Some (loadedData c !! name))
  /\ (forall fs name v, loadedData c !! name = Some v ->
        BRDFDataFromFile fs name c = Done (v, c))
  /\ (forall reqs' rs' c' name v,
        serve reqs' c = Done (rs', c') ->
        loadedData c !! name = Some v ->
        loadedData c' !! name = Some v /\ build_count name c' = 1%nat).
Proof.
  intros H.
  destruct (serve_inv reqs init_cache rs c cache_inv_init H) as [Hinv _].
  repeat apply conj.
  - intros name. rewrite Hinv. destruct (loadedData c !! name); lia.
  - intros fs name Hin.
    apply in_split in Hin as (reqs1 & reqs2 & ->).
    apply serve_app in H as (rs1 & c1 & rs2 & H1 & H2 & _).
    cbn [Measured.serve] in H2.
    destruct (BRDFDataFromFile fs name c1) as [[v c2]|msg] eqn:E; [|discriminate].
    cbn [obind snd fst] in H2.
    destruct (serve reqs2 c2) as [[rs3 c3]|msg] eqn:E3; [|discriminate].
    cbn [obind snd fst] in H2. injection H2 as _ <-.
    destruct (serve_inv reqs1 _ _ _ cache_inv_init H1) as [Hinv1 _].
    pose proof (cache_inv_call _ _ _ _ _ Hinv1 E) as Hinv2.
    destruct (serve_inv reqs2 _ _ _ Hinv2 E3) as [_ Hkept].
    assert (Hv : loadedData c2 !! name = Some v).
    { apply BRDFDataFromFile_inv in E as [[Hv ->]|(_ & r & _ & -> & ->)];
        [exact Hv|]. cbn [loadedData]. apply lookup_insert_eq. }
    apply Hkept in Hv. rewrite Hinv, Hv. eauto.
  - intros fs name v. apply BRDFDataFromFile_hit.
  - intros reqs' rs' c' name v H' Hv.
    destruct (serve_inv reqs' c rs' c' Hinv H') as [Hinv' Hkept].
    apply Hkept in Hv. rewrite Hinv', Hv. auto.
Qed.

End Create.

(** C2, as amended.  For a tensor file that loads: when one of the ten
    required fields is missing, [Create] ends the process at the [CHECK] of
    [Tensor::field]; when the ten fields are there and their ranks, dtypes or
    shapes fail the structure check, [Create] returns the null pointer
    together with one diagnostic and the process goes on. *)
Theorem Create_schema_rejection (float32 : list byte -> R) (rint : R -> Z)
  fs filename tf :
  Tensor fs filename = Done tf ->
  (forall name, In name required_fields -> m_fields tf !! name = None ->
     Create float32 rint fs filename
     = Fatal "Check failed: it != m_fields.end()")
  /\ (forall theta_i phi_i ndf sigma vndf spectra luminance wavelengths
             description jacobian,
        m_fields tf !! "theta_i"%string = Some theta_i ->
        m_fields tf !! "phi_i"%string = Some phi_i ->
        m_fields tf !! "ndf"%string = Some ndf ->
        m_fields tf !! "sigma"%string = Some sigma ->
        m_fields tf !! "vndf"%string = Some vndf ->
        m_fields tf !! "spectra"%string = Some spectra ->
        m_fields tf !! "luminance"%string = Some luminance ->
        m_fields tf !! "wavelengths"%string = Some wavelengths ->
        m_fields tf !! "description"%string = Some description ->
        m_fields tf !! "jacobian"%string = Some jacobian ->
        structure_ok theta_i phi_i ndf sigma vndf spectra luminance wavelengths
                     description jacobian = false ->
        Create float32 rint fs filename
        = Done (mkCreated None [filename +:+ ": invalid BRDF file structure: "])).
Proof.
  intros Htf. split.
  - intros name. apply Create_missing_field, Htf.
  - intros. eapply Create_bad_structure; eassumption.
Qed.

(** A file with a [spectra] of rank 4: loaded, then refused with the null
    pointer and a message. *)
Lemma Create_schema_rejection_witness :
  Create (fun _ => 0%R) (fun _ => 0) (fun _ => Some file_with_flat_spectra) "m.bsdf"
  = Done (mkCreated None ["m.bsdf: invalid BRDF file structure: "%string]).
Proof.
  destruct (Tensor (fun _ => Some file_with_flat_spectra) "m.bsdf")
    as [tf|msg] eqn:Htf; [|vm_compute in Htf; discriminate].
  refine (proj2 (Create_schema_rejection _ _ _ _ tf Htf) _ _ _ _ _ _ _ _ _ _
            _ _ _ _ _ _ _ _ _ _ _);
    vm_compute in Htf; injection Htf as <-; vm_compute; reflexivity.
Defined.

(** The file without [vndf] loads, and [Create] then ends the process: it
    does not return a null pointer. *)
Lemma Create_aborts_without_vndf :
  (exists tf, Tensor (fun _ => Some file_without_vndf) "m.bsdf" = Done tf
              /\ m_fields tf !! "vndf"%string = None)
  /\ Create (fun _ => 0%R) (fun _ => 0) (fun _ => Some file_without_vndf) "m.bsdf"
     = Fatal "Check failed: it != m_fields.end()".
Proof.
  destruct (Tensor (fun _ => Some file_without_vndf) "m.bsdf")
    as [tf|msg] eqn:Htf; [|vm_compute in Htf; discriminate].
  assert (Hmiss : m_fields tf !! "vndf"%string = None).
  { vm_compute in Htf. injection Htf as <-. vm_compute. reflexivity. }
  split; [exists tf; auto|].
  eapply Create_missing_field; [exact Htf| |exact Hmiss].
  unfold required_fields. cbn. tauto.
Qed.

(** Two requests for one path, the file being gone by the time of the
    second: one build, and the second request returns the stored resource. *)
Lemma BRDFDataFromFile_memoized_witness :
  exists r c,
    Measured.serve (fun _ => 0%R) (fun _ => 0)
      [(fun _ => Some measured_file, "m.bsdf"%string);
       (fun _ => None, "m.bsdf"%string)] init_cache
    = Done ([Some r; Some r], c)
    /\ build_count "m.bsdf" c = 1%nat.
Proof.
  destruct (Measured.serve (fun _ => 0%R) (fun _ => 0)
              [(fun _ => Some measured_file, "m.bsdf"%string);
               (fun _ => None, "m.bsdf"%string)] init_cache)
    as [[rs c]|msg] eqn:E; [|vm_compute in E; discriminate].
  pose proof (BRDFDataFromFile_memoized _ _ _ _ _ E) as (_ & Hone & _).
  destruct (Hone (fun _ => None) "m.bsdf"%string) as [Hcount _].
  { right. left. reflexivity. }
  vm_compute in E. injection E as <- <-.
  eexists. eexists. split; [reflexivity|exact Hcount].
Defined.

(** Two threads ask for the same path, not yet in the table; both pass the
    [find] before either stores its pointer, and [Create] runs twice. *)
Lemma concurrent_first_access_builds_twice :
  exists c v1 v2,
    steps (fun _ => 0%R) (fun _ => 0) (fun _ => Some measured_file)
      (init_cache, [mkThread "m.bsdf" AtFind; mkThread "m.bsdf" AtFind])
      (c, [mkThread "m.bsdf" (Returned v1); mkThread "m.bsdf" (Returned v2)])
    /\ build_count "m.bsdf" c = 2%nat.
Proof.
  destruct (Measured.Create (fun _ => 0%R) (fun _ => 0)
              (fun _ => Some measured_file) "m.bsdf")
    as [r|msg] eqn:Hr; [|vm_compute in Hr; discriminate].
  eexists. eexists. eexists. split.
  - eapply steps_step.
    { eapply (step_thread _ _ _ _ _ [] _ _ [_]). apply step_find_miss. reflexivity. }
    eapply steps_step.
    { eapply (step_thread _ _ _ _ _ [_] _ _ []). apply step_find_miss. reflexivity. }
    eapply steps_step.
    { eapply (step_thread _ _ _ _ _ [] _ _ [_]). apply step_create. exact Hr. }
    eapply steps_step.
    { eapply (step_thread _ _ _ _ _ [_] _ _ []). apply step_create. exact Hr. }
    eapply steps_step.
    { eapply (step_thread _ _ _ _ _ [] _ _ [_]). apply step_store. }
    eapply steps_step.
    { eapply (step_thread _ _ _ _ _ [_] _ _ []). apply step_store. }
    eapply steps_step.
    { eapply (step_thread _ _ _ _ _ [] _ _ [_]). apply step_return. }
    eapply steps_step.
    { eapply (step_thread _ _ _ _ _ [_] _ _ []). apply step_return. }
    apply steps_refl.
  - reflexivity.
Qed.

End MeasuredFacts.

(** ** Comparisons and directions *)

Local Open Scope R_scope.

Lemma ltb_spec (a b : Float) : reflect (a < b) (a <? b).
Proof. unfold ltb. destruct (Rlt_dec a b); constructor; assumption. Qed.

Lemma leb_spec (a b : Float) : reflect (a <= b) (a <=? b).
Proof. unfold leb. destruct (Rle_dec a b); constructor; assumption. Qed.

Lemma eqb_spec (a b : Float) : reflect (a = b) (a =? b).
Proof. unfold eqb. destruct (Req_dec_T a b); constructor; assumption. Qed.

Lemma eqb_refl (a : Float) : (a =? a) = true.
Proof. destruct (eqb_spec a a); [reflexivity|contradiction]. Qed.

(** ** DielectricBxDF *)

Module DielectricFacts.
Import Dielectric.

Lemma masked_eq sampleFlags bit p :
  (if negb (BxDFReflTransFlags.has sampleFlags bit) then 0 else p)
  = masked sampleFlags bit p.
Proof. unfold masked. destruct (BxDFReflTransFlags.has _ _); reflexivity. Qed.

Section Smooth.

Variable NSpectrumSamples : nat.
Variable FrDielectric : Float -> Float -> Float.
Variable Refract : Vector3f -> Vector3f -> Float -> option (Float * Vector3f).
Variable bxdf : DielectricBxDF.

Local Abbreviation Sample_f :=
  (Dielectric.Sample_f NSpectrumSamples FrDielectric Refract bxdf).

(** The reflection branch of the smooth dielectric. *)
Lemma smooth_reflection wo uc u mode sampleFlags :
  (bxdf.(eta) =? 1) || bxdf.(mfDistrib).(EffectivelySmooth) = true ->
  let R := FrDielectric (CosTheta wo) bxdf.(eta) in
  let T := 1 - R in
  let pr := masked sampleFlags BxDFReflTransFlags.Reflection R in
  let pt := masked sampleFlags BxDFReflTransFlags.Transmission T in
  let mirrored := mkVector3f (- wo.(x)) (- wo.(y)) wo.(z) in
  ~ (pr = 0 /\ pt = 0) -> uc < pr / (pr + pt) ->
  Sample_f wo uc u mode sampleFlags
  = Some (BSDFSample.mk
            (SampledSpectrum.const NSpectrumSamples (R / Rabs mirrored.(z)))
            mirrored (pr / (pr + pt)) BxDFFlags.SpecularReflection 1).
Proof.
  intros Hc R T pr pt mirrored Hnz Hlt.
  unfold Dielectric.Sample_f. rewrite Hc.
  fold R. fold T. cbv zeta. rewrite !masked_eq. fold pr pt. clearbody pr pt.
  destruct (eqb_spec pr 0), (eqb_spec pt 0); cbn [andb]; try tauto;
    destruct (ltb_spec uc (pr / (pr + pt))); tauto.
Qed.

(** C3.  The smooth dielectric, with [R] the Fresnel reflectance at [wo],
    [T = 1 - R], and [pr], [pt] their values after the sample filter: no
    sample when [pr] and [pt] are both zero; reflection exactly when
    [uc < pr / (pr + pt)], with the mirrored direction, the weight
    [R / |cos theta_i|] and the density [pr / (pr + pt)]; otherwise
    refraction, with no sample when [Refract] fails, and else the weight
    [T / |cos theta_i|], divided by the squared relative index in Radiance
    mode, and the density [pt / (pr + pt)]. *)
Theorem smooth_Sample_f wo uc u mode sampleFlags :
  bxdf.(eta) = 1 \/ bxdf.(mfDistrib).(EffectivelySmooth) = true ->
  let R := FrDielectric (CosTheta wo) bxdf.(eta) in
  let T := 1 - R in
  let pr := masked sampleFlags BxDFReflTransFlags.Reflection R in
  let pt := masked sampleFlags BxDFReflTransFlags.Transmission T in
  let mirrored := mkVector3f (- wo.(x)) (- wo.(y)) wo.(z) in
  (pr = 0 /\ pt = 0 -> Sample_f wo uc u mode sampleFlags = None)
  /\ (~ (pr = 0 /\ pt = 0) -> uc < pr / (pr + pt) ->
      Sample_f wo uc u mode sampleFlags
      = Some (BSDFSample.mk
                (SampledSpectrum.const NSpectrumSamples (R / Rabs mirrored.(z)))
                mirrored (pr / (pr + pt)) BxDFFlags.SpecularReflection 1))
  /\ (~ (pr = 0 /\ pt = 0) -> ~ uc < pr / (pr + pt) ->
      Refract wo (mkVector3f 0 0 1) bxdf.(eta) = None ->
      Sample_f wo uc u mode sampleFlags = None)
  /\ (forall etap wi,
        ~ (pr = 0 /\ pt = 0) -> ~ uc < pr / (pr + pt) ->
        Refract wo (mkVector3f 0 0 1) bxdf.(eta) = Some (etap, wi) ->
        Sample_f wo uc u mode sampleFlags
        = Some (BSDFSample.mk
                  (match mode with
                   | Radiance =>
                       SampledSpectrum.div
                         (SampledSpectrum.const NSpectrumSamples (T / Rabs wi.(z)))
                         (Sqr etap)
                   | Importance =>
                       SampledSpectrum.const NSpectrumSamples (T / Rabs wi.(z))
                   end)
                  wi (pt / (pr + pt)) BxDFFlags.SpecularTransmission etap)).
Proof.
  intros Hsmooth R T pr pt mirrored.
  assert (Hc : (bxdf.(eta) =? 1) || bxdf.(mfDistrib).(EffectivelySmooth) = true).
  { destruct Hsmooth as [->| ->]; [rewrite eqb_refl; reflexivity|].
    apply orb_true_r. }
  split; [|split; [exact (smooth_reflection wo uc u mode sampleFlags Hc)|]];
    unfold Dielectric.Sample_f; rewrite Hc;
    fold R; fold T; cbv zeta; rewrite !masked_eq; fold pr pt; clearbody pr pt;
    [|split].
  - intros [-> ->]. rewrite eqb_refl. reflexivity.
  - intros Hnz Hge HR. rewrite HR.
    destruct (eqb_spec pr 0), (eqb_spec pt 0); cbn [andb]; try tauto;
      destruct (ltb_spec uc (pr / (pr + pt))); tauto.
  - intros etap wi Hnz Hge HR. rewrite HR.
    destruct (eqb_spec pr 0), (eqb_spec pt 0); cbn [andb]; try tauto;
      destruct (ltb_spec uc (pr / (pr + pt))); try tauto;
      destruct mode; reflexivity.
Qed.

End Smooth.

Lemma smooth_Sample_f_witness :
  Dielectric.Sample_f 1 Instances.grazing_reflectance Instances.no_refraction
    (Instances.glass true) (mkVector3f 0 0 1) (1 / 2) (0, 0) Radiance
    BxDFReflTransFlags.All
  = Some (BSDFSample.mk [1 / Rabs 1] (mkVector3f (- 0) (- 0) 1)
                        (1 / (1 + (1 - 1))) BxDFFlags.SpecularReflection 1).
Proof.
  pose proof (smooth_Sample_f 1 Instances.grazing_reflectance
                Instances.no_refraction (Instances.glass true)
                (mkVector3f 0 0 1) (1 / 2) (0, 0) Radiance
                BxDFReflTransFlags.All (or_intror eq_refl))
    as (_ & Hrefl & _).
  cbv zeta in Hrefl. unfold masked in Hrefl.
  change (Instances.grazing_reflectance _ _) with 1 in Hrefl.
  change (BxDFReflTransFlags.has BxDFReflTransFlags.All
            BxDFReflTransFlags.Reflection) with true in Hrefl.
  change (BxDFReflTransFlags.has BxDFReflTransFlags.All
            BxDFReflTransFlags.Transmission) with true in Hrefl.
  cbn [x y z] in Hrefl. apply Hrefl; lra.
Defined.

End DielectricFacts.

(** ** HairBxDF *)

Module HairFacts.
Import Hair.

Lemma fold_left_Rplus {A} (g : A -> Float) (l : list A) : forall a,
  fold_left (fun acc p => acc + g p) l a = a + SampledSpectrum.sum (List.map g l).
Proof.
  induction l as [|p l IH]; intros a; cbn.
  - lra.
  - rewrite IH. unfold SampledSpectrum.sum. lra.
Qed.

Lemma sum_map_div {A} (g : A -> Float) (l : list A) (c : Float) :
  SampledSpectrum.sum (List.map (fun i => g i / c) l)
  = SampledSpectrum.sum (List.map g l) / c.
Proof.
  induction l as [|p l IH]; cbn.
  - unfold Rdiv. lra.
  - unfold SampledSpectrum.sum in IH. rewrite IH. unfold Rdiv. lra.
Qed.

Lemma idx_map_seq (g : nat -> Float) (n i : nat) :
  (i < n)%nat -> idx (List.map g (seq 0 n)) i = g i.
Proof.
  intros Hi. unfold idx.
  rewrite (nth_indep _ 0 (g 0%nat)) by (rewrite length_map, length_seq; exact Hi).
  rewrite (map_nth g), seq_nth by exact Hi. reflexivity.
Qed.

Section Lobes.

Variable H : Helpers.
Variable bxdf : HairBxDF.

Local Abbreviation ap_of := (Hair.ap_of H bxdf).
Local Abbreviation sumY_of := (Hair.sumY_of H bxdf).

Lemma Sample_f_Some wo uc u mode sampleFlags :
  exists bs, Sample_f H bxdf wo uc u mode sampleFlags = Some bs.
Proof.
  unfold Sample_f.
  destruct (sample_wi H bxdf wo uc u) as [[[w si] ci] dphi]. eexists. reflexivity.
Qed.

(** C10.  [Sample_f] and [PDF] of the hair model do not look at the sample
    filter: any two filters, the empty one included, give the same results,
    and [Sample_f] returns a sample whatever the filter. *)
Theorem sample_filter_ignored wo wi uc u mode
  (sampleFlags sampleFlags' : BxDFReflTransFlags.t) :
  Sample_f H bxdf wo uc u mode sampleFlags
  = Sample_f H bxdf wo uc u mode sampleFlags'
  /\ PDF H bxdf wo wi mode sampleFlags = PDF H bxdf wo wi mode sampleFlags'
  /\ exists bs, Sample_f H bxdf wo uc u mode sampleFlags = Some bs.
Proof.
  repeat split. apply Sample_f_Some.
Qed.

Lemma ApPDF_eq cosTheta_o :
  ApPDF H bxdf cosTheta_o
  = List.map (fun i => SampledSpectrum.Average (ap_of cosTheta_o i)
                       / sumY_of cosTheta_o)
             (seq 0 (H.(pMax) + 1)).
Proof.
  unfold ApPDF, Hair.sumY_of, Hair.ap_of. cbv zeta.
  rewrite fold_left_Rplus, Rplus_0_l.
  reflexivity.
Qed.


End Lobes.

Lemma Average_singleton (c : Float) : SampledSpectrum.Average [c] = c.
Proof.
  unfold SampledSpectrum.Average, SampledSpectrum.sum. cbn [fold_right length INR].
  field.
Qed.

Lemma sumY_of_helpers_with_Ap ap bxdf cosTheta_o :
  Hair.sumY_of (Instances.helpers_with_Ap ap) bxdf cosTheta_o
  = SampledSpectrum.Average (ap 0%nat)
    + (SampledSpectrum.Average (ap 1%nat)
       + (SampledSpectrum.Average (ap 2%nat)
          + (SampledSpectrum.Average (ap 3%nat) + 0))).
Proof.
  unfold Hair.sumY_of, Hair.ap_of.
  cbn [Instances.helpers_with_Ap Ap pMax Nat.add seq List.map].
  unfold SampledSpectrum.sum at 1. cbn [fold_right]. reflexivity.
Qed.



End HairFacts.

(** ** MorphoBSDF *)

Module MorphoFacts.
Import Hair Morpho.

Lemma fold_left_ext {A B} (g g' : A -> B -> A) (l : list B) :
  (forall a b, g a b = g' a b) ->
  forall a, fold_left g l a = fold_left g' l a.
Proof.
  intros Hg. induction l as [|b l IH]; intros a; cbn; [reflexivity|].
  rewrite Hg. apply IH.
Qed.

Lemma fold_left_ext_in {A B} (g g' : A -> B -> A) (l : list B) :
  (forall a b, In b l -> g a b = g' a b) ->
  forall a, fold_left g l a = fold_left g' l a.
Proof.
  induction l as [|b l IH]; intros Hg a; cbn; [reflexivity|].
  rewrite Hg by (left; reflexivity).
  apply IH. intros a' b' Hb. apply Hg. right. exact Hb.
Qed.

Section Angles.

Variable CurrentBRDFTable : Z -> Z -> nat -> Float.
Variable bxdf : HairBxDF.

(** The sample path gives [gamma_o] twice to [Phi] and to [Np], for the lobes
    below [pMax] and with the scale [s] of the fiber: helpers that differ in
    [Phi] and [Np] but agree at these arguments give the same sample. *)
Lemma Sample_f_equal_angles (H H' : Helpers) wo uc u mode sampleFlags :
  same_but_Phi_Np H H' ->
  (forall p, (p < H.(pMax))%nat ->
     H.(Phi) p (gamma_o_of H bxdf) (gamma_o_of H bxdf)
     = H'.(Phi) p (gamma_o_of H bxdf) (gamma_o_of H bxdf)) ->
  (forall phi p, (p < H.(pMax))%nat ->
     H.(Np) phi p bxdf.(s) (gamma_o_of H bxdf) (gamma_o_of H bxdf)
     = H'.(Np) phi p bxdf.(s) (gamma_o_of H bxdf) (gamma_o_of H bxdf)) ->
  Morpho.Sample_f H CurrentBRDFTable bxdf wo uc u mode sampleFlags
  = Morpho.Sample_f H' CurrentBRDFTable bxdf wo uc u mode sampleFlags.
Proof.
  destruct H as [pM N mp np ph ap sd stl ss sa fe fl].
  destruct H' as [pM' N' mp' np' ph' ap' sd' stl' ss' sa' fe' fl'].
  unfold same_but_Phi_Np, gamma_o_of. cbn.
  intros (-> & -> & -> & -> & -> & -> & -> & -> & -> & ->) Hphi Hnp.
  unfold Morpho.Sample_f. cbn.
  destruct (sd' _ uc) as [p uc']. destruct (scale_tilt bxdf p _ _) as [st ct].
  assert (Hdphi : forall t : Float,
            (if (p <? pM')%nat then ph p (sa' bxdf.(h)) (sa' bxdf.(h)) + t
             else 2 * Pi * uc')
            = (if (p <? pM')%nat then ph' p (sa' bxdf.(h)) (sa' bxdf.(h)) + t
               else 2 * Pi * uc')).
  { intros t. destruct (Nat.ltb_spec p pM') as [Hp|_]; [|reflexivity].
    rewrite (Hphi p Hp). reflexivity. }
  rewrite Hdphi. do 2 f_equal.
  f_equal. apply fold_left_ext_in. intros a q Hq.
  apply in_seq in Hq.
  destruct (scale_tilt bxdf q _ _) as [sq cq]. rewrite Hnp by lia. reflexivity.
Qed.

(** The density path gives [gamma_o] and [gamma_t] to [Np] and does not call
    [Phi]: helpers that differ in [Phi] and [Np], with [Np] agreeing at that
    pair of angles, give the same density. *)
Lemma Pdf_both_angles (H H' : Helpers) wo wi mode sampleFlags :
  same_but_Phi_Np H H' ->
  (forall phi p, (p < H.(pMax))%nat ->
     H.(Np) phi p bxdf.(s) (gamma_o_of H bxdf) (gamma_t_of H bxdf wo)
     = H'.(Np) phi p bxdf.(s) (gamma_o_of H bxdf) (gamma_t_of H bxdf wo)) ->
  Morpho.Pdf H CurrentBRDFTable bxdf wo wi mode sampleFlags
  = Morpho.Pdf H' CurrentBRDFTable bxdf wo wi mode sampleFlags.
Proof.
  destruct H as [pM N mp np ph ap sd stl ss sa fe fl].
  destruct H' as [pM' N' mp' np' ph' ap' sd' stl' ss' sa' fe' fl'].
  unfold same_but_Phi_Np, gamma_o_of, gamma_t_of. cbn.
  intros (-> & -> & -> & -> & _ & _ & -> & -> & _ & _) Hnp.
  unfold Morpho.Pdf. cbn. f_equal.
  apply fold_left_ext_in. intros a q Hq. apply in_seq in Hq.
  rewrite Hnp by lia. reflexivity.
Qed.

(** The density path of the primary model reads [Np] at the same pair. *)
Lemma Hair_PDF_both_angles (H H' : Helpers) wo wi mode sampleFlags :
  same_but_Phi_Np H H' ->
  (forall phi p, (p < H.(pMax))%nat ->
     H.(Np) phi p bxdf.(s) (gamma_o_of H bxdf) (gamma_t_of H bxdf wo)
     = H'.(Np) phi p bxdf.(s) (gamma_o_of H bxdf) (gamma_t_of H bxdf wo)) ->
  Hair.PDF H bxdf wo wi mode sampleFlags
  = Hair.PDF H' bxdf wo wi mode sampleFlags.
Proof.
  destruct H as [pM N mp np ph ap sd stl ss sa fe fl].
  destruct H' as [pM' N' mp' np' ph' ap' sd' stl' ss' sa' fe' fl'].
  unfold same_but_Phi_Np, gamma_o_of, gamma_t_of. cbn.
  intros (-> & -> & -> & -> & _ & _ & -> & -> & _ & _) Hnp.
  unfold Hair.PDF, lobe_pdf. cbn. f_equal.
  apply fold_left_ext_in. intros a q Hq. apply in_seq in Hq.
  destruct (scale_tilt bxdf q _ _) as [sq cq].
  unfold Sqr in *. rewrite Hnp by lia. reflexivity.
Qed.


End Angles.

Import Instances.

Lemma SafeSqrt_square (r : Float) : 0 <= r -> Instances.SafeSqrt (r * r) = r.
Proof.
  intros Hr. unfold Instances.SafeSqrt. rewrite Rmax_right by nra.
  apply sqrt_square, Hr.
Qed.

Lemma SafeASin_inj (a b : Float) :
  -1 <= a <= 1 -> -1 <= b <= 1 ->
  Instances.SafeASin a = Instances.SafeASin b -> a = b.
Proof.
  intros Ha Hb. unfold Instances.SafeASin, Clamp.
  destruct (ltb_spec a (-1)), (ltb_spec 1 a), (ltb_spec b (-1)), (ltb_spec 1 b);
    try lra.
  intros E. apply (f_equal sin) in E. rewrite !sin_asin in E by lra. exact E.
Qed.



End MorphoFacts.

(** ** Degenerate directions *)

Module DegenerateFacts.
Import Dielectric.

Lemma eqb_true (a b : Float) : a = b -> (a =? b) = true.
Proof. intros ->. apply eqb_refl. Qed.

Lemma ltb_irrefl_0 (a : Float) : a = 0 -> (0 <? a) = false.
Proof. intros ->. destruct (ltb_spec 0 0); [lra|reflexivity]. Qed.

Lemma Dielectric_f_degenerate NSpectrumSamples FrDielectric bxdf wo wi mode :
  wo.(z) = 0 \/ wi.(z) = 0 \/ LengthSquared (half_vector bxdf.(eta) wo wi) = 0 ->
  Dielectric.f NSpectrumSamples FrDielectric bxdf wo wi mode
  = SampledSpectrum.const NSpectrumSamples 0.
Proof.
  intros Hdeg. unfold Dielectric.f.
  destruct ((bxdf.(eta) =? 1) || bxdf.(mfDistrib).(EffectivelySmooth));
    [reflexivity|].
  cbv zeta. fold (relative_index bxdf.(eta) wo wi).
  fold (half_vector bxdf.(eta) wo wi). unfold CosTheta.
  destruct Hdeg as [Hz|[Hz|Hz]]; rewrite (eqb_true _ _ Hz);
    rewrite ?orb_true_r; reflexivity.
Qed.

Lemma Measured_f_degenerate brdf wo wi mode :
  wo.(z) = 0 \/ LengthSquared (vadd wi wo) = 0 ->
  MeasuredBxDF.f brdf wo wi mode
  = SampledSpectrum.const brdf.(MeasuredBxDF.NSpectrumSamples) 0.
Proof.
  intros Hdeg. unfold MeasuredBxDF.f, SameHemisphere.
  destruct (ltb_spec 0 (wo.(z) * wi.(z))) as [Hsame|Hnot]; [|reflexivity].
  cbn [negb]. destruct Hdeg as [Hz|Hz].
  - rewrite Hz in Hsame. lra.
  - exfalso. unfold LengthSquared, Dot, vadd in Hz. cbn [x y z] in Hz.
    pose proof (Rle_0_sqr (wi.(x) + wo.(x))) as Hx.
    pose proof (Rle_0_sqr (wi.(y) + wo.(y))) as Hy.
    pose proof (Rle_0_sqr (wi.(z) + wo.(z))) as Hzz.
    unfold Rsqr in Hx, Hy, Hzz.
    assert (Hsq : (wi.(z) + wo.(z)) * (wi.(z) + wo.(z)) = 0) by lra.
    apply Rmult_integral in Hsq.
    assert (wi.(z) = - wo.(z)) as Hw by lra. rewrite Hw in Hsame.
    pose proof (Rle_0_sqr wo.(z)) as Ho. unfold Rsqr in Ho. lra.
Qed.

Lemma rho_degenerate NSpectrumSamples Sample_f wo uc u2 :
  wo.(z) = 0 ->
  BxDF.rho NSpectrumSamples Sample_f wo uc u2
  = SampledSpectrum.const NSpectrumSamples 0.
Proof. intros Hz. unfold BxDF.rho. rewrite (eqb_true _ _ Hz). reflexivity. Qed.

(** C4, as amended.  [evaluate] of the dielectric and of the measured model
    returns the zero spectrum when [wo.z == 0] and when the half vector the
    pair of directions implies has zero length (for the dielectric also when
    [wi.z == 0]); the reflectance estimator returns the zero spectrum for
    [wo.z == 0] before it draws any sample.  Nothing is said of [sample] in
    the variants themselves. *)
Theorem degenerate_directions wo wi mode :
  (forall NSpectrumSamples FrDielectric bxdf,
     wo.(z) = 0 \/ wi.(z) = 0
     \/ LengthSquared (half_vector bxdf.(eta) wo wi) = 0 ->
     Dielectric.f NSpectrumSamples FrDielectric bxdf wo wi mode
     = SampledSpectrum.const NSpectrumSamples 0)
  /\ (forall brdf,
        wo.(z) = 0 \/ LengthSquared (vadd wi wo) = 0 ->
        MeasuredBxDF.f brdf wo wi mode
        = SampledSpectrum.const brdf.(MeasuredBxDF.NSpectrumSamples) 0)
  /\ (forall NSpectrumSamples Sample_f uc u2,
        wo.(z) = 0 ->
        BxDF.rho NSpectrumSamples Sample_f wo uc u2
        = SampledSpectrum.const NSpectrumSamples 0).
Proof.
  repeat apply conj.
  - intros. apply Dielectric_f_degenerate. assumption.
  - intros. apply Measured_f_degenerate. assumption.
  - intros. apply rho_degenerate. assumption.
Qed.

Import Instances.

(** A direction in the plane of the surface, [wo.z == 0]: the polished glass
    returns a sample, with the weight [R / |cos theta_i|] = 1 / 0, and so
    does the hair model. *)
Lemma Sample_f_at_grazing_wo :
  (mkVector3f 1 0 0).(z) = 0
  /\ Dielectric.Sample_f 1 grazing_reflectance no_refraction (glass true)
       (mkVector3f 1 0 0) (1 / 2) (0, 0) Radiance BxDFReflTransFlags.All
     = Some (BSDFSample.mk [1 / Rabs 0] (mkVector3f (- (1)) (- 0) 0)
                           (1 / (1 + (1 - 1))) BxDFFlags.SpecularReflection 1)
  /\ exists bs,
       Hair.Sample_f (helpers flat_lobe no_phase) fiber
         (mkVector3f 1 0 0) (1 / 2) (0, 0) Radiance BxDFReflTransFlags.All
       = Some bs.
Proof.
  split; [reflexivity|split].
  - pose proof (DielectricFacts.smooth_reflection 1 grazing_reflectance
                  no_refraction (glass true) (mkVector3f 1 0 0) (1 / 2) (0, 0)
                  Radiance BxDFReflTransFlags.All (orb_true_r _)) as Hrefl.
    cbv zeta in Hrefl. unfold masked in Hrefl.
    change (grazing_reflectance _ _) with 1 in Hrefl.
    change (BxDFReflTransFlags.has BxDFReflTransFlags.All
              BxDFReflTransFlags.Reflection) with true in Hrefl.
    change (BxDFReflTransFlags.has BxDFReflTransFlags.All
              BxDFReflTransFlags.Transmission) with true in Hrefl.
    cbn [x y z] in Hrefl. apply Hrefl; lra.
  - apply HairFacts.Sample_f_Some.
Qed.

Lemma degenerate_directions_witness :
  Dielectric.f 1 normal_reflectance (glass false)
    (mkVector3f 1 0 0) (mkVector3f 0 0 1) Radiance
  = SampledSpectrum.const 1 0.
Proof.
  apply (degenerate_directions (mkVector3f 1 0 0) (mkVector3f 0 0 1) Radiance).
  left. reflexivity.
Defined.

End DegenerateFacts.

(** ** Reciprocity *)

Module ReciprocityFacts.
Import Dielectric.

Lemma Dot_comm a b : Dot a b = Dot b a.
Proof. unfold Dot. ring. Qed.

Lemma Dot_vneg_l a b : Dot (vneg a) b = - Dot a b.
Proof. unfold Dot, vneg. cbn [x y z]. ring. Qed.

Lemma Dot_vdiv_l a b c : Dot (vdiv a c) b = Dot a b / c.
Proof. unfold Dot, vdiv, Rdiv. cbn [x y z]. ring. Qed.

Lemma LengthSquared_vscale v c :
  LengthSquared (vscale v c) = c * c * LengthSquared v.
Proof. unfold LengthSquared, Dot, vscale. cbn [x y z]. ring. Qed.

Lemma LengthSquared_nonneg v : 0 <= LengthSquared v.
Proof.
  unfold LengthSquared, Dot.
  pose proof (Rle_0_sqr v.(x)). pose proof (Rle_0_sqr v.(y)).
  pose proof (Rle_0_sqr v.(z)). unfold Rsqr in *. lra.
Qed.

Lemma Length_vscale v c : 0 <= c -> Length (vscale v c) = c * Length v.
Proof.
  intros Hc. unfold Length. rewrite LengthSquared_vscale.
  rewrite sqrt_mult by (try apply LengthSquared_nonneg; nra).
  rewrite sqrt_square by exact Hc. reflexivity.
Qed.

Lemma div_scaled (a c l : Float) : c <> 0 -> a * c / (c * l) = a / l.
Proof.
  intros Hc. destruct (Req_dec l 0) as [->|Hl].
  - rewrite Rmult_0_r. unfold Rdiv. rewrite Rinv_0. ring.
  - field. auto.
Qed.

Lemma Normalize_vscale v c : 0 < c -> Normalize (vscale v c) = Normalize v.
Proof.
  intros Hc. unfold Normalize. rewrite Length_vscale by lra.
  unfold vdiv, vscale. cbn [x y z].
  rewrite !div_scaled by lra. reflexivity.
Qed.

Lemma half_vector_swap (e e' : Float) wo wi :
  e * e' = 1 ->
  vadd (vscale wo e') wi = vscale (vadd (vscale wi e) wo) e'.
Proof.
  intros He. unfold vadd, vscale. cbn [x y z]. f_equal.
  - replace (wi.(x)) with (wi.(x) * (e * e')) at 1 by (rewrite He; ring). ring.
  - replace (wi.(y)) with (wi.(y) * (e * e')) at 1 by (rewrite He; ring). ring.
  - replace (wi.(z)) with (wi.(z) * (e * e')) at 1 by (rewrite He; ring). ring.
Qed.

Lemma eqb_mult_pos (c a : Float) : c <> 0 -> (c * c * a =? 0) = (a =? 0).
Proof.
  intros Hc. destruct (eqb_spec (c * c * a) 0) as [E|E], (eqb_spec a 0) as [E'|E'];
    try reflexivity.
  - exfalso. apply E'. apply Rmult_integral in E as [E|E]; [|exact E].
    apply Rmult_integral in E. tauto.
  - exfalso. apply E. rewrite E'. ring.
Qed.

Lemma ltb_false_iff (a b : Float) : (a <? b) = false <-> ~ a < b.
Proof. destruct (ltb_spec a b); split; intros; try tauto; discriminate. Qed.

Lemma eqb_false_iff (a b : Float) : (a =? b) = false <-> a <> b.
Proof. destruct (eqb_spec a b); split; intros; try tauto; discriminate. Qed.

Lemma const_div n (a c : Float) :
  SampledSpectrum.div (SampledSpectrum.const n a) c
  = SampledSpectrum.const n (a / c).
Proof.
  unfold SampledSpectrum.div, SampledSpectrum.map, SampledSpectrum.const.
  induction n as [|n IH]; [reflexivity|]. cbn [repeat List.map]. now rewrite IH.
Qed.

Lemma const_scale n (a c : Float) :
  SampledSpectrum.scale (SampledSpectrum.const n a) c
  = SampledSpectrum.const n (a * c).
Proof.
  unfold SampledSpectrum.scale, SampledSpectrum.map, SampledSpectrum.const.
  induction n as [|n IH]; [reflexivity|]. cbn [repeat List.map]. now rewrite IH.
Qed.

Lemma relative_index_pos (eta : Float) wo wi :
  0 < eta -> 0 < relative_index eta wo wi.
Proof.
  intros He. unfold relative_index.
  destruct (negb _); [|lra]. destruct (0 <? CosTheta wo); [exact He|].
  apply Rdiv_lt_0_compat; lra.
Qed.

Lemma relative_index_inverse (eta : Float) wo wi :
  0 < eta -> CosTheta wi * CosTheta wo < 0 ->
  relative_index eta wo wi * relative_index eta wi wo = 1.
Proof.
  intros He Hneg. unfold relative_index.
  rewrite (Rmult_comm (CosTheta wo) (CosTheta wi)).
  destruct (ltb_spec 0 (CosTheta wi * CosTheta wo)) as [|_]; [lra|]. cbn [negb].
  destruct (ltb_spec 0 (CosTheta wo)) as [Ho|Ho],
           (ltb_spec 0 (CosTheta wi)) as [Hi|Hi]; try nra; field; lra.
Qed.

Lemma vadd_vscale_1_comm wo wi :
  vadd (vscale wo 1) wi = vadd (vscale wi 1) wo.
Proof. unfold vadd, vscale. cbn [x y z]. f_equal; ring. Qed.

(** Directions of the same length make the same angle with their half
    vector. *)
Lemma Dot_half_vector wo wi :
  LengthSquared wo = LengthSquared wi ->
  let n := FaceForward (Normalize (vadd (vscale wi 1) wo)) (mkVector3f 0 0 1) in
  Dot wo n = Dot wi n.
Proof.
  intros Hl n.
  assert (Hd : Dot wo (vadd (vscale wi 1) wo) = Dot wi (vadd (vscale wi 1) wo)).
  { unfold LengthSquared, Dot, vadd, vscale in *. cbn [x y z]. lra. }
  subst n. unfold FaceForward, Normalize.
  destruct (_ <? 0);
    rewrite !(Dot_comm wo), !(Dot_comm wi), ?Dot_vneg_l, !Dot_vdiv_l,
      !(Dot_comm _ wo), !(Dot_comm _ wi), Hd; reflexivity.
Qed.

(** The heart of the matter: the Jacobian term seen from the other side. *)
Lemma transmission_factor (a b e e' ci co : Float) :
  0 < e -> e * e' = 1 -> ci <> 0 -> co <> 0 ->
  Rabs (a * b / (Sqr (a + b / e) * ci * co))
  = Rabs (b * a / (Sqr (b + a / e') * co * ci)) / Sqr e'.
Proof.
  intros He Hee Hci Hco.
  assert (He' : 0 < e') by nra.
  assert (Ee' : e' = / e) by (apply Rmult_eq_reg_l with e; [rewrite Hee; field|]; lra).
  assert (Hs : 0 < Sqr e') by (unfold Sqr; nra).
  transitivity (Rabs (b * a / (Sqr (b + a / e') * co * ci) * / Sqr e')).
  2:{ rewrite Rabs_mult, (Rabs_pos_eq (/ Sqr e')); [reflexivity|].
      left. apply Rinv_0_lt_compat, Hs. }
  destruct (Req_dec (a + b / e) 0) as [Hz|Hnz].
  - assert (Hz' : b + a / e' = 0).
    { assert (Hb : b = - a * e).
      { replace b with (b / e * e) by (field; lra).
        replace (b / e) with (- a) by lra. ring. }
      rewrite Ee'. unfold Rdiv. rewrite Rinv_inv, Hb. ring. }
    rewrite Hz, Hz'. unfold Sqr, Rdiv. rewrite !Rmult_0_l, !Rinv_0, !Rmult_0_r.
    rewrite Rmult_0_l. reflexivity.
  - f_equal. subst e'. unfold Sqr. field. repeat split; try lra.
    intros E. apply Hnz. replace (a + b / e) with ((b + a * e) / e) by (field; lra).
    unfold Rdiv. rewrite E. ring.
Qed.

Section Adjoint.

Variable NSpectrumSamples : nat.
Variable FrDielectric : Float -> Float -> Float.
Variable bxdf : DielectricBxDF.

Local Abbreviation f := (Dielectric.f NSpectrumSamples FrDielectric bxdf).
Local Abbreviation transmission :=
  (Dielectric.transmission NSpectrumSamples FrDielectric bxdf).

Lemma transmission_adjoint (e e' : Float) wo wi :
  0 < e -> e * e' = 1 ->
  bxdf.(mfDistrib).(G) wo wi = bxdf.(mfDistrib).(G) wi wo ->
  (let n := FaceForward (Normalize (vadd (vscale wi e) wo)) (mkVector3f 0 0 1) in
   FrDielectric (Dot wo n) bxdf.(eta) = FrDielectric (Dot wi n) bxdf.(eta)) ->
  transmission e wo wi Importance = transmission e' wi wo Radiance.
Proof.
  intros He Hee HG HF.
  assert (He' : 0 < e') by nra.
  unfold Dielectric.transmission. cbv zeta.
  rewrite (half_vector_swap e e' wo wi Hee).
  rewrite LengthSquared_vscale, eqb_mult_pos by lra.
  rewrite Normalize_vscale by exact He'.
  rewrite (orb_comm (CosTheta wo =? 0)).
  destruct (eqb_spec (CosTheta wi) 0) as [|Hci]; [reflexivity|].
  destruct (eqb_spec (CosTheta wo) 0) as [|Hco]; [reflexivity|].
  cbn [orb].
  destruct (LengthSquared (vadd (vscale wi e) wo) =? 0); [reflexivity|].
  set (n := FaceForward (Normalize (vadd (vscale wi e) wo)) (mkVector3f 0 0 1)) in *.
  rewrite (orb_comm (Dot n wo * CosTheta wo <? 0)).
  destruct ((Dot n wi * CosTheta wi <? 0) || (Dot n wo * CosTheta wo <? 0));
    [reflexivity|].
  f_equal. cbv zeta in HF. rewrite HF, HG.
  rewrite (transmission_factor (Dot wi n) (Dot wo n) e e' (CosTheta wi) (CosTheta wo))
    by assumption.
  unfold Rdiv. ring.
Qed.

Lemma f_transmissive wo wi mode :
  (bxdf.(eta) =? 1) || bxdf.(mfDistrib).(EffectivelySmooth) = false ->
  (0 <? CosTheta wi * CosTheta wo) = false ->
  f wo wi mode = transmission (relative_index bxdf.(eta) wo wi) wo wi mode.
Proof.
  intros Hr Ht. unfold Dielectric.f, Dielectric.transmission, relative_index.
  rewrite Hr, Ht. reflexivity.
Qed.

Lemma f_zero wo wi mode :
  (bxdf.(eta) =? 1) || bxdf.(mfDistrib).(EffectivelySmooth) = true
  \/ CosTheta wi = 0 \/ CosTheta wo = 0 ->
  f wo wi mode = SampledSpectrum.const NSpectrumSamples 0.
Proof.
  intros Hz. unfold Dielectric.f.
  destruct ((bxdf.(eta) =? 1) || bxdf.(mfDistrib).(EffectivelySmooth));
    [reflexivity|].
  cbv zeta. destruct Hz as [Hz|[Hz|Hz]]; [discriminate| |];
    rewrite (DegenerateFacts.eqb_true _ _ Hz); rewrite ?orb_true_r; reflexivity.
Qed.

(** The two transport modes differ by the square of the relative index, and
    only where light crosses the interface. *)
Lemma f_modes wo wi :
  (0 <? CosTheta wi * CosTheta wo) = false ->
  f wo wi Radiance
  = SampledSpectrum.div (f wo wi Importance)
                        (Sqr (relative_index bxdf.(eta) wo wi)).
Proof.
  intros Ht. unfold Dielectric.f, relative_index. rewrite Ht. cbv zeta. cbn [negb].
  repeat match goal with
         | |- context [if ?b then _ else _] => destruct b
         end;
    rewrite const_div; try reflexivity;
    f_equal; unfold Rdiv; ring.
Qed.

Lemma f_adjoint wo wi :
  0 < bxdf.(eta) ->
  bxdf.(mfDistrib).(G) wo wi = bxdf.(mfDistrib).(G) wi wo ->
  (let n := microfacet_normal bxdf.(eta) wo wi in
   FrDielectric (Dot wo n) bxdf.(eta) = FrDielectric (Dot wi n) bxdf.(eta)) ->
  ~ 0 < CosTheta wi * CosTheta wo ->
  f wo wi Importance = f wi wo Radiance.
Proof.
  intros He HG HF Ht.
  destruct ((bxdf.(eta) =? 1) || bxdf.(mfDistrib).(EffectivelySmooth)) eqn:Hr;
    [rewrite !f_zero by (left; exact Hr); reflexivity|].
  destruct (Req_dec (CosTheta wi) 0) as [Hi|Hi];
    [rewrite !f_zero by tauto; reflexivity|].
  destruct (Req_dec (CosTheta wo) 0) as [Ho|Ho];
    [rewrite !f_zero by tauto; reflexivity|].
  assert (Hneg : CosTheta wi * CosTheta wo < 0).
  { destruct (Rtotal_order (CosTheta wi * CosTheta wo) 0) as [H|[H|H]];
      [exact H| |lra].
    apply Rmult_integral in H. tauto. }
  rewrite !f_transmissive; try exact Hr; try (apply ltb_false_iff; lra).
  apply transmission_adjoint.
  - apply relative_index_pos, He.
  - apply relative_index_inverse; assumption.
  - exact HG.
  - exact HF.
Qed.

Lemma f_reflective wo wi mode :
  bxdf.(mfDistrib).(G) wo wi = bxdf.(mfDistrib).(G) wi wo ->
  (let n := microfacet_normal bxdf.(eta) wo wi in
   FrDielectric (Dot wo n) bxdf.(eta) = FrDielectric (Dot wi n) bxdf.(eta)) ->
  0 < CosTheta wi * CosTheta wo ->
  f wo wi mode = f wi wo mode.
Proof.
  intros HG HF Hrefl. unfold microfacet_normal, half_vector, relative_index in HF.
  unfold Dielectric.f.
  destruct ((bxdf.(eta) =? 1) || bxdf.(mfDistrib).(EffectivelySmooth));
    [reflexivity|].
  cbv zeta in *. rewrite (Rmult_comm (CosTheta wo) (CosTheta wi)).
  destruct (ltb_spec 0 (CosTheta wi * CosTheta wo)) as [_|]; [|contradiction].
  cbn [negb] in *. rewrite (vadd_vscale_1_comm wo wi).
  rewrite (orb_comm (CosTheta wo =? 0)).
  destruct ((CosTheta wi =? 0) || (CosTheta wo =? 0) || _); [reflexivity|].
  set (n := FaceForward (Normalize (vadd (vscale wi 1) wo)) (mkVector3f 0 0 1)) in *.
  rewrite (orb_comm (Dot n wo * CosTheta wo <? 0)).
  destruct ((Dot n wi * CosTheta wi <? 0) || _); [reflexivity|].
  rewrite HF, HG. do 3 f_equal. ring.
Qed.

Lemma f_const wo wi mode :
  exists a, f wo wi mode = SampledSpectrum.const NSpectrumSamples a.
Proof.
  unfold Dielectric.f. cbv zeta.
  repeat match goal with
         | |- context [if ?b then _ else _] => destruct b
         end;
    eexists; reflexivity.
Qed.

Variable H : Hair.Helpers.
Variable hair : Hair.HairBxDF.

(** C6, as amended.  For a dielectric interface with a positive index, a
    symmetric masking term [G] and a Fresnel reflectance that is the same
    seen from both directions at the microfacet normal:
    - a pair of directions on the same side of the surface is reciprocal in
      both transport modes;
    - for a pair on opposite sides, [evaluate(wo, wi)] under Importance is
      [evaluate(wi, wo)] under Radiance; the Radiance value is the Importance
      value divided by the square of the relative index [etap] of the pair;
      so exchanging the directions multiplies the Importance value by
      [etap^2] and the Radiance value by [1 / etap^2];
    - the hair model does not look at the transport mode. *)
Theorem evaluate_reciprocity wo wi :
  0 < bxdf.(eta) ->
  bxdf.(mfDistrib).(G) wo wi = bxdf.(mfDistrib).(G) wi wo ->
  (let n := microfacet_normal bxdf.(eta) wo wi in
   FrDielectric (Dot wo n) bxdf.(eta) = FrDielectric (Dot wi n) bxdf.(eta)) ->
  let etap := relative_index bxdf.(eta) wo wi in
  (0 < CosTheta wi * CosTheta wo -> forall mode, f wo wi mode = f wi wo mode)
  /\ (~ 0 < CosTheta wi * CosTheta wo ->
      f wo wi Importance = f wi wo Radiance
      /\ f wo wi Radiance
         = SampledSpectrum.div (f wo wi Importance) (Sqr etap)
      /\ f wo wi Importance
         = SampledSpectrum.scale (f wi wo Importance) (Sqr etap)
      /\ f wi wo Radiance
         = SampledSpectrum.scale (f wo wi Radiance) (Sqr etap))
  /\ (forall mode mode', Hair.f H hair wo wi mode = Hair.f H hair wo wi mode').
Proof.
  intros He HG HF etap.
  assert (Hpos : 0 < etap) by (apply relative_index_pos, He).
  split; [|split].
  - intros Hrefl mode. apply f_reflective; assumption.
  - intros Ht.
    assert (Hadj : f wo wi Importance = f wi wo Radiance)
      by (apply f_adjoint; assumption).
    assert (Hmode : f wo wi Radiance
                    = SampledSpectrum.div (f wo wi Importance) (Sqr etap))
      by (apply f_modes, ltb_false_iff, Ht).
    repeat apply conj; [exact Hadj|exact Hmode| |].
    + destruct ((bxdf.(eta) =? 1) || bxdf.(mfDistrib).(EffectivelySmooth)) eqn:Hr.
      { rewrite !f_zero by (left; exact Hr). rewrite const_scale.
        f_equal. ring. }
      destruct (Req_dec (CosTheta wi) 0) as [Hi|Hi].
      { rewrite !f_zero by tauto. rewrite const_scale. f_equal. ring. }
      destruct (Req_dec (CosTheta wo) 0) as [Ho|Ho].
      { rewrite !f_zero by tauto. rewrite const_scale. f_equal. ring. }
      assert (Hneg : CosTheta wi * CosTheta wo < 0).
      { destruct (Rtotal_order (CosTheta wi * CosTheta wo) 0) as [E|[E|E]];
          [exact E| |lra].
        apply Rmult_integral in E. tauto. }
      pose proof (relative_index_inverse bxdf.(eta) wo wi He Hneg) as Hinv.
      pose proof (relative_index_pos bxdf.(eta) wi wo He) as Hpos'.
      fold etap in Hinv. rewrite Hadj.
      rewrite (f_modes wi wo) by (apply ltb_false_iff; lra).
      destruct (f_const wi wo Importance) as [a ->].
      rewrite const_div, const_scale. f_equal.
      assert (E : etap = / relative_index bxdf.(eta) wi wo).
      { apply Rmult_eq_reg_r with (relative_index bxdf.(eta) wi wo); [|lra].
        rewrite Hinv. field. lra. }
      rewrite E. unfold Sqr. field. lra.
    + rewrite Hmode, <- Hadj.
      destruct (f_const wo wi Importance) as [a ->].
      rewrite const_div, const_scale. f_equal. unfold Sqr. field. lra.
  - intros mode mode'. reflexivity.
Qed.

End Adjoint.

Import Instances.

Lemma sqrt_quarter : sqrt (1 / 4) = 1 / 2.
Proof. replace (1 / 4) with ((1 / 2) * (1 / 2)) by lra. apply sqrt_square. lra. Qed.

Lemma sqrt_ninth : sqrt (1 / 9) = 1 / 3.
Proof. replace (1 / 9) with ((1 / 3) * (1 / 3)) by lra. apply sqrt_square. lra. Qed.

Ltac decide_comparisons :=
  repeat match goal with
         | |- context [?a <? ?b] =>
             destruct (ltb_spec a b); [try (exfalso; lra)|try (exfalso; lra)]
         | |- context [?a =? ?b] =>
             destruct (eqb_spec a b); [try (exfalso; lra)|try (exfalso; lra)]
         end.

(** Directions along the normal: their half vector and the microfacet normal
    [f] derives from it. *)
Lemma axis_half_vector (a b e : Float) :
  vadd (vscale (mkVector3f 0 0 a) e) (mkVector3f 0 0 b)
  = mkVector3f 0 0 (a * e + b).
Proof. unfold vadd, vscale. cbn [x y z]. f_equal; ring. Qed.

Lemma axis_LengthSquared (c : Float) : LengthSquared (mkVector3f 0 0 c) = c * c.
Proof. unfold LengthSquared, Dot. cbn [x y z]. ring. Qed.

Lemma axis_normal (c : Float) :
  c < 0 ->
  FaceForward (Normalize (mkVector3f 0 0 c)) (mkVector3f 0 0 1) = mkVector3f 0 0 1.
Proof.
  intros Hc. unfold Normalize, Length. rewrite axis_LengthSquared.
  replace (c * c) with ((- c) * (- c)) by ring. rewrite sqrt_square by lra.
  unfold FaceForward, vdiv, Dot, vneg. cbn [x y z].
  destruct (ltb_spec (0 / - c * 0 + 0 / - c * 0 + c / - c * 1) 0) as [_|Hn].
  - f_equal; field; lra.
  - exfalso. apply Hn. replace (c / - c) with (-1) by (field; lra). lra.
Qed.

(** Straight through rough glass, along the normal: the value under
    Importance from above is [9 / 4 = 1.5^2] times the value from below. *)
Lemma Importance_transmission_not_reciprocal :
  Dielectric.f 1 normal_reflectance (glass false)
    (mkVector3f 0 0 1) (mkVector3f 0 0 (-1)) Importance = [216 / 25]
  /\ Dielectric.f 1 normal_reflectance (glass false)
       (mkVector3f 0 0 (-1)) (mkVector3f 0 0 1) Importance = [96 / 25]
  /\ Dielectric.f 1 normal_reflectance (glass false)
       (mkVector3f 0 0 1) (mkVector3f 0 0 (-1)) Importance
     <> Dielectric.f 1 normal_reflectance (glass false)
          (mkVector3f 0 0 (-1)) (mkVector3f 0 0 1) Importance.
Proof.
  assert (Ha : Dielectric.f 1 normal_reflectance (glass false)
                 (mkVector3f 0 0 1) (mkVector3f 0 0 (-1)) Importance = [216 / 25]).
  { unfold Dielectric.f, glass, unit_distribution, normal_reflectance.
    cbn [eta mfDistrib EffectivelySmooth D G CosTheta x y z orb].
    destruct (ltb_spec 0 (-1 * 1)) as [?|_]; [lra|].
    destruct (ltb_spec 0 1) as [_|?]; [|lra].
    cbn [negb]. rewrite axis_half_vector, axis_LengthSquared.
    rewrite axis_normal by lra. unfold Dot, Sqr. cbn [x y z].
    decide_comparisons. cbn [orb SampledSpectrum.const repeat]. f_equal.
    replace (0 * 0 + 0 * 0 + -1 * 1) with (-1) by ring.
    replace (0 * 0 + 0 * 0 + 1 * 1) with 1 by ring.
    replace (-1 * 1 / ((-1 + 1 / (3 / 2)) * (-1 + 1 / (3 / 2)) * -1 * 1))
      with 9 by (field; lra).
    rewrite Rabs_pos_eq by lra. field. }
  assert (Hb : Dielectric.f 1 normal_reflectance (glass false)
                 (mkVector3f 0 0 (-1)) (mkVector3f 0 0 1) Importance = [96 / 25]).
  { unfold Dielectric.f, glass, unit_distribution, normal_reflectance.
    cbn [eta mfDistrib EffectivelySmooth D G CosTheta x y z orb].
    destruct (ltb_spec 0 (1 * -1)) as [?|_]; [lra|].
    destruct (ltb_spec 0 (-1)) as [?|_]; [lra|].
    cbn [negb]. rewrite axis_half_vector, axis_LengthSquared.
    rewrite axis_normal by lra. unfold Dot, Sqr. cbn [x y z].
    decide_comparisons. cbn [orb SampledSpectrum.const repeat]. f_equal.
    replace (0 * 0 + 0 * 0 + -1 * 1) with (-1) by ring.
    replace (0 * 0 + 0 * 0 + 1 * 1) with 1 by ring.
    replace (1 * -1 / ((1 + -1 / (1 / (3 / 2))) * (1 + -1 / (1 / (3 / 2))) * 1 * -1))
      with 4 by (field; lra).
    rewrite Rabs_pos_eq by lra. field. }
  split; [exact Ha|split; [exact Hb|]].
  rewrite Ha, Hb. intros E. injection E as E. lra.
Qed.

Lemma evaluate_reciprocity_witness :
  let fg := Dielectric.f 1 normal_reflectance (glass false) in
  let wo := mkVector3f 0 0 1 in
  let wi := mkVector3f 0 0 (-1) in
  fg wo wi Importance = fg wi wo Radiance
  /\ fg wo wi Importance
     = SampledSpectrum.scale (fg wi wo Importance)
         (Sqr (relative_index (3 / 2) wo wi)).
Proof.
  intros fg wo wi.
  destruct (evaluate_reciprocity 1 normal_reflectance (glass false)
              (helpers flat_lobe no_phase) fiber wo wi) as (_ & Ht & _).
  - cbn [eta glass]. lra.
  - reflexivity.
  - reflexivity.
  - destruct Ht as (H1 & _ & H3 & _).
    + cbn [CosTheta z wo wi]. lra.
    + split; assumption.
Defined.

(** The hair model divides by the cosine of [wi] alone: with lobe functions
    that do not tell the two directions apart, exchanging the directions
    changes the value. *)
Lemma hair_f_exchanged :
  Hair.f (helpers flat_lobe no_phase) fiber
    (mkVector3f 0 (3 / 5) (4 / 5)) (mkVector3f 0 (4 / 5) (3 / 5)) Importance
  <> Hair.f (helpers flat_lobe no_phase) fiber
       (mkVector3f 0 (4 / 5) (3 / 5)) (mkVector3f 0 (3 / 5) (4 / 5)) Importance.
Proof.
  unfold Hair.f. cbv zeta.
  cbn [helpers fiber Hair.pMax Hair.Np Hair.Mp Hair.Ap Hair.NSpectrumSamples
       seq fold_left Hair.scale_tilt x y z AbsCosTheta].
  unfold AbsCosTheta, flat_lobe, SampledSpectrum.div, SampledSpectrum.add,
    SampledSpectrum.scale, SampledSpectrum.zip, SampledSpectrum.map,
    SampledSpectrum.const.
  cbn [x y z List.map combine repeat fst snd].
  rewrite !Rabs_pos_eq by lra.
  decide_comparisons.
  intros E. injection E as E.
  pose proof PI_RGT_0 as HPI. unfold Pi in E.
  assert (Hc : 0 < 1 / (2 * PI)) by (apply Rdiv_lt_0_compat; lra).
  set (c := 1 / (2 * PI)) in *.
  replace (0 + 1 * 1 * c + 0 * 1 * c + 0 * 1 * c + 0 * 1 / (2 * PI))
    with c in E by (field; lra).
  assert (E' : c / (3 / 5) * (3 / 5) * (4 / 5) = c / (4 / 5) * (4 / 5) * (3 / 5))
    by (rewrite E; ring).
  replace (c / (3 / 5) * (3 / 5)) with c in E' by (field; lra).
  replace (c / (4 / 5) * (4 / 5)) with c in E' by (field; lra).
  lra.
Qed.

End ReciprocityFacts.

(** ** The density of the hair sample *)

Module HairDensityFacts.
Import Hair.

Lemma range_reduction (a : Float) :
  exists (k : Z) (a0 : Float), a = a0 + 2 * IZR k * PI /\ - PI < a0 <= PI.
Proof.
  pose proof PI_RGT_0 as HPI.
  set (r := (a - PI) / (2 * PI)).
  assert (Hr : r * (2 * PI) = a - PI) by (unfold r; field; lra).
  destruct (archimed (- r)) as [Hup1 Hup2].
  exists (1 - up (- r))%Z, (a - 2 * IZR (1 - up (- r)) * PI).
  rewrite minus_IZR. split; [ring|].
  set (U := IZR (up (- r))) in *.
  assert (H1 : r * (2 * PI) <= (1 - U) * (2 * PI))
    by (apply Rmult_le_compat_r; lra).
  assert (H2 : (1 - U) * (2 * PI) < (r + 1) * (2 * PI))
    by (apply Rmult_lt_compat_r; lra).
  lra.
Qed.

Lemma sin_period_Z (a : Float) (k : Z) : sin (a + 2 * IZR k * PI) = sin a.
Proof.
  destruct (Z_le_gt_dec 0 k) as [Hk|Hk].
  - rewrite <- (Z2Nat.id k Hk), <- INR_IZR_INZ. apply sin_period.
  - rewrite <- (sin_period (a + 2 * IZR k * PI) (Z.to_nat (- k))).
    f_equal. rewrite INR_IZR_INZ, Z2Nat.id by lia. rewrite opp_IZR. ring.
Qed.

Lemma cos_period_Z (a : Float) (k : Z) : cos (a + 2 * IZR k * PI) = cos a.
Proof.
  destruct (Z_le_gt_dec 0 k) as [Hk|Hk].
  - rewrite <- (Z2Nat.id k Hk), <- INR_IZR_INZ. apply cos_period.
  - rewrite <- (cos_period (a + 2 * IZR k * PI) (Z.to_nat (- k))).
    f_equal. rewrite INR_IZR_INZ, Z2Nat.id by lia. rewrite opp_IZR. ring.
Qed.

Lemma tan_shift (a : Float) : cos a <> 0 -> tan (a + PI) = tan a.
Proof. intros Hc. unfold tan. rewrite neg_sin, neg_cos. field. exact Hc. Qed.

Lemma polar_quotient (c a : Float) :
  0 < c -> cos a <> 0 -> c * sin a / (c * cos a) = tan a.
Proof. intros Hc Ha. unfold tan. field. split; lra. Qed.

(** [atan2] gives back the angle of a point of the circle of radius [c]. *)
Lemma atan2_polar_principal (c a : Float) :
  0 < c -> - PI < a <= PI -> atan2 (c * sin a) (c * cos a) = a.
Proof.
  intros Hc [Hlo Hhi]. pose proof PI_RGT_0 as HPI. unfold atan2.
  destruct (Rtotal_order a (- (PI / 2))) as [Ha|[Ha|Ha]].
  - (* third quadrant *)
    assert (Hcos : cos a < 0).
    { rewrite <- cos_neg. apply cos_lt_0; lra. }
    assert (Hsin : sin a < 0) by (apply sin_lt_0_var; lra).
    destruct (ltb_spec 0 (c * cos a)); [nra|].
    destruct (ltb_spec (c * cos a) 0); [|nra].
    destruct (leb_spec 0 (c * sin a)); [nra|].
    rewrite polar_quotient by lra. rewrite <- tan_shift by lra.
    rewrite atan_tan by lra. ring.
  - subst a. rewrite cos_neg, sin_neg, cos_PI2, sin_PI2.
    destruct (ltb_spec 0 (c * 0)); [lra|].
    destruct (ltb_spec (c * 0) 0); [lra|].
    destruct (ltb_spec 0 (c * - (1))); [lra|].
    destruct (ltb_spec (c * - (1)) 0); [reflexivity|lra].
  - destruct (Rtotal_order a (PI / 2)) as [Hb|[Hb|Hb]].
    + assert (Hcos : 0 < cos a) by (apply cos_gt_0; lra).
      destruct (ltb_spec 0 (c * cos a)); [|nra].
      rewrite polar_quotient by lra. apply atan_tan. lra.
    + subst a. rewrite cos_PI2, sin_PI2.
      destruct (ltb_spec 0 (c * 0)); [lra|].
      destruct (ltb_spec (c * 0) 0); [lra|].
      destruct (ltb_spec 0 (c * 1)); [reflexivity|lra].
    + assert (Hcos : cos a < 0) by (apply cos_lt_0; lra).
      assert (Hsin : 0 <= sin a) by (apply sin_ge_0; lra).
      destruct (ltb_spec 0 (c * cos a)); [nra|].
      destruct (ltb_spec (c * cos a) 0); [|nra].
      destruct (leb_spec 0 (c * sin a)); [|nra].
      rewrite polar_quotient by lra.
      assert (Hc' : 0 < cos (a - PI)) by (apply cos_gt_0; lra).
      replace (tan a) with (tan (a - PI + PI)) by (f_equal; ring).
      rewrite tan_shift by lra. rewrite atan_tan by lra. ring.
Qed.

Lemma atan2_polar (c a : Float) :
  0 < c -> exists k : Z, atan2 (c * sin a) (c * cos a) = a + 2 * IZR k * PI.
Proof.
  intros Hc. destruct (range_reduction a) as (k & a0 & -> & Ha0).
  exists (- k)%Z. rewrite sin_period_Z, cos_period_Z.
  rewrite atan2_polar_principal by assumption. rewrite opp_IZR. ring.
Qed.

Section Density.

Variable H : Helpers.
Variable bxdf : HairBxDF.

Lemma lobe_pdf_twice apPDF so co si ci dphi go gt :
  lobe_pdf H bxdf true apPDF so co si ci dphi go gt
  = lobe_pdf H bxdf false apPDF so co si ci dphi go gt.
Proof.
  unfold lobe_pdf. f_equal. apply MorphoFacts.fold_left_ext. intros a p.
  destruct (scale_tilt bxdf p so co) as [sp cp]. rewrite Rabs_Rabsolu.
  reflexivity.
Qed.

Lemma lobe_pdf_periodic b apPDF so co si ci dphi go gt (k : Z) :
  (forall phi (k : Z) p s gamma_o gamma_t,
     H.(Np) (phi + 2 * IZR k * PI) p s gamma_o gamma_t
     = H.(Np) phi p s gamma_o gamma_t) ->
  lobe_pdf H bxdf b apPDF so co si ci (dphi + 2 * IZR k * PI) go gt
  = lobe_pdf H bxdf b apPDF so co si ci dphi go gt.
Proof.
  intros Hper. unfold lobe_pdf. f_equal. apply MorphoFacts.fold_left_ext.
  intros a p. destruct (scale_tilt bxdf p so co) as [sp cp]. rewrite Hper.
  reflexivity.
Qed.

(** The direction [Sample_f] builds from the angles it has drawn. *)
Lemma sample_wi_shape wo uc u :
  let '(wi, sinTheta_i, cosTheta_i, dphi) := sample_wi H bxdf wo uc u in
  cosTheta_i = H.(SafeSqrt) (1 - Sqr sinTheta_i)
  /\ wi = mkVector3f sinTheta_i
            (cosTheta_i * cos (atan2 wo.(z) wo.(y) + dphi))
            (cosTheta_i * sin (atan2 wo.(z) wo.(y) + dphi)).
Proof.
  unfold sample_wi. cbv zeta.
  destruct (H.(SampleDiscrete) _ uc) as [p uc'].
  destruct (scale_tilt bxdf p _ _) as [sp cp].
  split; reflexivity.
Qed.

(** C1, as amended.  [Sample_f] always returns a sample; its density is the
    sum over all lobes, the residual one included, of the per-lobe expression
    of [f] with the weights [ApPDF] in place of [Ap], taken at the sampled
    angles.  When [Np] has period [2 * PI] in its first argument and the
    sampled direction is not along the axis of the fiber
    ([cosTheta_i > 0]), this is the value [PDF] computes for the sampled
    direction. *)
Theorem Sample_f_pdf_is_PDF wo uc u mode sampleFlags :
  (forall phi (k : Z) p s gamma_o gamma_t,
     H.(Np) (phi + 2 * IZR k * PI) p s gamma_o gamma_t
     = H.(Np) phi p s gamma_o gamma_t) ->
  let '(wi, sinTheta_i, cosTheta_i, dphi) := sample_wi H bxdf wo uc u in
  let sinTheta_o := wo.(x) in
  let cosTheta_o := H.(SafeSqrt) (1 - Sqr sinTheta_o) in
  let gamma_o := H.(SafeASin) bxdf.(h) in
  let gamma_t := H.(SafeASin) (sinGamma_t_of H bxdf sinTheta_o cosTheta_o) in
  let apPDF := ApPDF H bxdf cosTheta_o in
  exists bs,
    Sample_f H bxdf wo uc u mode sampleFlags = Some bs
    /\ bs.(BSDFSample.wi) = wi
    /\ bs.(BSDFSample.pdf)
       = SampledSpectrum.sum
           (List.map
              (fun p =>
                 H.(Mp) cosTheta_i (Rabs (snd (scale_tilt bxdf p sinTheta_o cosTheta_o)))
                        sinTheta_i (fst (scale_tilt bxdf p sinTheta_o cosTheta_o))
                        (idx bxdf.(v) p)
                 * idx apPDF p * H.(Np) dphi p bxdf.(s) gamma_o gamma_t)
              (seq 0 H.(pMax)))
         + H.(Mp) cosTheta_i cosTheta_o sinTheta_i sinTheta_o
                  (idx bxdf.(v) H.(pMax))
           * idx apPDF H.(pMax) * (1 / (2 * Pi))
    /\ (0 < cosTheta_i ->
        bs.(BSDFSample.pdf) = PDF H bxdf wo wi mode sampleFlags).
Proof.
  intros Hper. pose proof (sample_wi_shape wo uc u) as Hshape.
  unfold Sample_f.
  destruct (sample_wi H bxdf wo uc u) as [[[wi si] ci] dphi].
  destruct Hshape as [Hci Hwi]. cbv zeta.
  eexists. split; [reflexivity|]. cbn [BSDFSample.wi BSDFSample.pdf].
  split; [reflexivity|]. rewrite lobe_pdf_twice. split.
  - unfold lobe_pdf. f_equal.
    rewrite <- (Rplus_0_l (SampledSpectrum.sum _)).
    rewrite <- (HairFacts.fold_left_Rplus
                  (fun p => H.(Mp) ci
                     (Rabs (snd (scale_tilt bxdf p wo.(x)
                                   (H.(SafeSqrt) (1 - Sqr wo.(x))))))
                     si (fst (scale_tilt bxdf p wo.(x)
                                (H.(SafeSqrt) (1 - Sqr wo.(x)))))
                     (idx bxdf.(v) p)
                   * idx (ApPDF H bxdf (H.(SafeSqrt) (1 - Sqr wo.(x)))) p
                   * H.(Np) dphi p bxdf.(s) (H.(SafeASin) bxdf.(h))
                       (H.(SafeASin)
                          (sinGamma_t_of H bxdf wo.(x)
                             (H.(SafeSqrt) (1 - Sqr wo.(x))))))).
    apply MorphoFacts.fold_left_ext. intros a p.
    destruct (scale_tilt bxdf p _ _) as [sp cp]. reflexivity.
  - intros Hpos. unfold PDF. cbv zeta. subst wi. cbn [x y z].
    rewrite <- Hci.
    destruct (atan2_polar ci (atan2 wo.(z) wo.(y) + dphi) Hpos) as [k ->].
    replace (atan2 wo.(z) wo.(y) + dphi + 2 * IZR k * PI - atan2 wo.(z) wo.(y))
      with (dphi + 2 * IZR k * PI) by ring.
    rewrite lobe_pdf_periodic by exact Hper. reflexivity.
Qed.

End Density.

Import Instances.

Lemma SafeSqrt_1 : Instances.SafeSqrt (1 - Sqr 0) = 1.
Proof.
  replace (1 - Sqr 0) with (1 * 1) by (unfold Sqr; lra).
  apply MorphoFacts.SafeSqrt_square. lra.
Qed.

Lemma SafeSqrt_0 : Instances.SafeSqrt (1 - Sqr 1) = 0.
Proof.
  replace (1 - Sqr 1) with (0 * 0) by (unfold Sqr; lra).
  apply MorphoFacts.SafeSqrt_square. lra.
Qed.

Lemma atan2_0_1 : atan2 0 1 = 0.
Proof.
  unfold atan2. destruct (ltb_spec 0 1); [|lra].
  replace (0 / 1) with 0 by lra. apply atan_0.
Qed.

Lemma atan2_0_0 : atan2 0 0 = 0.
Proof.
  unfold atan2. destruct (ltb_spec 0 0); [lra|reflexivity].
Qed.

(** What [Sample_f] draws on the fiber of the example, seen across its
    axis. *)
Lemma sample_wi_fiber np uc u0 u1 :
  sample_wi (helpers np no_phase) fiber (mkVector3f 0 1 0) uc (u0, u1)
  = (let cosTheta := 1 + ln (Rmax u0 1e-5 + (1 - u0) * exp (- 2)) in
     let si := Instances.SafeSqrt (1 - Sqr cosTheta) * cos (2 * PI * u1) in
     let ci := Instances.SafeSqrt (1 - Sqr si) in
     let dphi := - PI + uc * (2 * PI) in
     (mkVector3f si (ci * cos dphi) (ci * sin dphi), si, ci, dphi)).
Proof.
  unfold sample_wi. cbv zeta.
  cbn [helpers fiber pMax SampleDiscrete SampleTrimmedLogistic Phi FastExp
       Hair.SafeSqrt Hair.SafeASin scale_tilt idx nth v s h x y z fst snd
       cos2kAlpha sin2kAlpha Nat.ltb Nat.leb].
  rewrite SafeSqrt_1, atan2_0_1. unfold no_phase, Pi.
  replace (-2 / 1) with (- 2) by lra.
  rewrite Rmult_1_l.
  set (L := ln (Rmax u0 1e-5 + (1 - u0) * exp (- 2))).
  set (S := Instances.SafeSqrt (1 - Sqr (1 + L))).
  set (C := cos (2 * PI * u1)).
  replace (- (1 + L) * (0 * 1 - 1 * 0) + S * C * Rabs (1 * 1 + 0 * 0))
    with (S * C)
    by (replace (1 * 1 + 0 * 0) with 1 by ring; rewrite Rabs_pos_eq by lra; ring).
  replace (0 + (0 + (- PI + uc * (PI - - PI)))) with (- PI + uc * (2 * PI)) by ring.
  replace (0 + (- PI + uc * (PI - - PI))) with (- PI + uc * (2 * PI)) by ring.
  reflexivity.
Qed.

Lemma cosine_lobe_periodic phi (k : Z) p s gamma_o gamma_t :
  cosine_lobe no_phase (phi + 2 * IZR k * PI) p s gamma_o gamma_t
  = cosine_lobe no_phase phi p s gamma_o gamma_t.
Proof.
  unfold cosine_lobe, no_phase.
  replace (phi + 2 * IZR k * PI - 0) with (phi - 0 + 2 * IZR k * PI) by ring.
  rewrite cos_period_Z. reflexivity.
Qed.

(** The first random number that sends the sampled direction across the
    axis, and the one that sends it along the axis. *)
Lemma draw_across :
  Instances.SafeSqrt (1 - Sqr (1 + ln (Rmax 1 1e-5 + (1 - 1) * exp (- 2))))
  * cos (2 * PI * 0) = 0.
Proof.
  rewrite Rmax_left by lra.
  replace (1 + (1 - 1) * exp (- 2)) with 1 by ring.
  rewrite ln_1, Rplus_0_r, SafeSqrt_0. ring.
Qed.

Lemma draw_along :
  Instances.SafeSqrt
    (1 - Sqr (1 + ln (Rmax (1 / (1 + exp 1)) 1e-5
                      + (1 - 1 / (1 + exp 1)) * exp (- 2))))
  * cos (2 * PI * 0) = 1.
Proof.
  pose proof (exp_pos 1) as He. pose proof exp_le_3 as He3.
  assert (Hu : 1 / 4 <= 1 / (1 + exp 1)).
  { apply Rmult_le_reg_r with (4 * (1 + exp 1)); [lra|].
    replace (1 / (1 + exp 1) * (4 * (1 + exp 1))) with 4 by (field; lra). lra. }
  rewrite Rmax_left by lra.
  replace (exp (- 2)) with (/ (exp 1 * exp 1))
    by (rewrite <- exp_plus, <- exp_Ropp; f_equal; lra).
  replace (1 / (1 + exp 1) + (1 - 1 / (1 + exp 1)) * / (exp 1 * exp 1))
    with (/ exp 1) by (field; lra).
  rewrite ln_Rinv by exact He. rewrite ln_exp. replace (1 + - (1)) with 0 by ring.
  rewrite SafeSqrt_1, Rmult_0_r, cos_0. ring.
Qed.

Lemma Sample_f_pdf_is_PDF_witness :
  exists bs,
    Sample_f (helpers (cosine_lobe no_phase) no_phase) fiber
      (mkVector3f 0 1 0) (3 / 4) (1, 0) Radiance BxDFReflTransFlags.All
    = Some bs
    /\ bs.(BSDFSample.pdf)
       = PDF (helpers (cosine_lobe no_phase) no_phase) fiber
           (mkVector3f 0 1 0) bs.(BSDFSample.wi) Radiance
           BxDFReflTransFlags.All.
Proof.
  pose proof (Sample_f_pdf_is_PDF (helpers (cosine_lobe no_phase) no_phase)
                fiber (mkVector3f 0 1 0) (3 / 4) (1, 0) Radiance
                BxDFReflTransFlags.All cosine_lobe_periodic) as Hthm.
  rewrite sample_wi_fiber in Hthm. cbv beta iota zeta in Hthm.
  destruct Hthm as (bs & HS & Hw & _ & Hpdf).
  exists bs. split; [exact HS|]. rewrite Hw. apply Hpdf.
  rewrite draw_across, SafeSqrt_1. lra.
Defined.

(** On that fiber all the weight is on lobe 0, and the mixture density is
    the lobe function of the azimuth. *)
Lemma lobe_pdf_fiber b si ci phi go gt :
  lobe_pdf (helpers (cosine_lobe no_phase) no_phase) fiber b
    (ApPDF (helpers (cosine_lobe no_phase) no_phase) fiber 1)
    0 1 si ci phi go gt
  = (1 + cos phi) / (2 * PI).
Proof.
  unfold lobe_pdf, ApPDF, cosine_lobe, no_phase.
  cbn [helpers fiber pMax Mp Np Ap seq fold_left List.map Nat.add idx nth v s].
  unfold SampledSpectrum.Average, SampledSpectrum.sum, Pi.
  cbn [fold_right length INR].
  cbn [scale_tilt]. pose proof PI_RGT_0 as HPI.
  replace (phi - 0) with phi by ring. field. lra.
Qed.

(** With [u[0] = 1 / (1 + e)] the sampled direction is the axis of the
    fiber, where the azimuth that [PDF] recomputes with [atan2] is [0]
    whatever [dphi] was drawn: here [dphi = PI / 2], the density of the
    sample is [1 / (2 PI)], and [PDF] gives [1 / PI] for its direction. *)
Lemma pdf_of_a_sample_along_the_axis :
  exists bs,
    Sample_f (helpers (cosine_lobe no_phase) no_phase) fiber
      (mkVector3f 0 1 0) (3 / 4) (1 / (1 + exp 1), 0) Radiance
      BxDFReflTransFlags.All
    = Some bs
    /\ bs.(BSDFSample.wi) = mkVector3f 1 0 0
    /\ bs.(BSDFSample.pdf) = 1 / (2 * PI)
    /\ PDF (helpers (cosine_lobe no_phase) no_phase) fiber
         (mkVector3f 0 1 0) bs.(BSDFSample.wi) Radiance BxDFReflTransFlags.All
       = 1 / PI
    /\ bs.(BSDFSample.pdf)
       <> PDF (helpers (cosine_lobe no_phase) no_phase) fiber
            (mkVector3f 0 1 0) bs.(BSDFSample.wi) Radiance
            BxDFReflTransFlags.All.
Proof.
  pose proof PI_RGT_0 as HPI.
  unfold Sample_f. rewrite sample_wi_fiber. cbv beta iota zeta.
  rewrite draw_along, SafeSqrt_0.
  eexists. split; [reflexivity|]. cbn [BSDFSample.wi BSDFSample.pdf].
  assert (Hwi : mkVector3f 1 (0 * cos (- PI + 3 / 4 * (2 * PI)))
                  (0 * sin (- PI + 3 / 4 * (2 * PI))) = mkVector3f 1 0 0)
    by (f_equal; ring).
  assert (Hs : lobe_pdf (helpers (cosine_lobe no_phase) no_phase) fiber true
                 (ApPDF (helpers (cosine_lobe no_phase) no_phase) fiber
                    (Hair.SafeSqrt (helpers (cosine_lobe no_phase) no_phase)
                       (1 - Sqr (mkVector3f 0 1 0).(x))))
                 (mkVector3f 0 1 0).(x)
                 (Hair.SafeSqrt (helpers (cosine_lobe no_phase) no_phase)
                    (1 - Sqr (mkVector3f 0 1 0).(x)))
                 1 0 (- PI + 3 / 4 * (2 * PI))
                 (Hair.SafeASin (helpers (cosine_lobe no_phase) no_phase)
                    fiber.(h))
                 (Hair.SafeASin (helpers (cosine_lobe no_phase) no_phase)
                    (sinGamma_t_of (helpers (cosine_lobe no_phase) no_phase)
                       fiber (mkVector3f 0 1 0).(x)
                       (Hair.SafeSqrt (helpers (cosine_lobe no_phase) no_phase)
                          (1 - Sqr (mkVector3f 0 1 0).(x)))))
               = 1 / (2 * PI)).
  { cbn [x helpers Hair.SafeSqrt]. rewrite SafeSqrt_1, lobe_pdf_fiber.
    replace (- PI + 3 / 4 * (2 * PI)) with (PI / 2) by field.
    rewrite cos_PI2. field. lra. }
  assert (Hp : PDF (helpers (cosine_lobe no_phase) no_phase) fiber
                 (mkVector3f 0 1 0) (mkVector3f 1 0 0) Radiance
                 BxDFReflTransFlags.All = 1 / PI).
  { unfold PDF. cbv zeta. cbn [x y z helpers Hair.SafeSqrt].
    rewrite SafeSqrt_1, lobe_pdf_fiber, atan2_0_0, atan2_0_1.
    replace (0 - 0) with 0 by ring. rewrite cos_0. field. lra. }
  rewrite Hwi, Hs, Hp. repeat split.
  intros E.
  assert (E' : 1 / (2 * PI) * (2 * PI) = 1 / PI * (2 * PI)) by (rewrite E; ring).
  replace (1 / (2 * PI) * (2 * PI)) with 1 in E' by (field; lra).
  replace (1 / PI * (2 * PI)) with 2 in E' by (field; lra).
  lra.
Qed.

End HairDensityFacts.

(** * Further properties *)

(** ** Looking fields up in a loaded tensor *)

Local Close Scope R_scope.

Module TensorLookupFacts.
Import Tensor.

Lemma fields_of_app bytes fhs1 fhs2 init :
  fields_of bytes (fhs1 ++ fhs2) init
  = fields_of bytes fhs2 (fields_of bytes fhs1 init).
Proof. unfold fields_of. apply foldl_app. Qed.

Lemma fields_of_other bytes fhs name : forall init,
  Forall (fun fh => string_of_list_byte (fh_name fh) <> name) fhs ->
  fields_of bytes fhs init !! name = init !! name.
Proof.
  unfold fields_of.
  induction fhs as [|fh fhs IH]; intros init Hne; cbn [foldl]; [reflexivity|].
  inversion Hne as [|? ? Hfh Hrest]; subst.
  rewrite IH by exact Hrest. apply lookup_insert_ne, Hfh.
Qed.

Lemma string_of_list_byte_inj (a b : list byte) :
  string_of_list_byte a = string_of_list_byte b -> a = b.
Proof.
  intros E. apply (f_equal list_byte_of_string) in E.
  rewrite !list_byte_of_string_of_list_byte in E. exact E.
Qed.

Lemma wf_file_loads fs filename bytes fhs :
  fs filename = Some bytes -> wf_file bytes fhs ->
  Tensor fs filename
  = Done (mkTensor (fields_of bytes fhs ∅) filename (Z.of_nat (length bytes))).
Proof.
  intros Hfs Hwf. apply TensorFacts.Tensor_Done_iff.
  pose proof Hwf as ((rest & Hb) & Hn & Hlen & _).
  exists bytes, fhs, rest. auto 10 using TensorFacts.wf_file_accepted.
Qed.

(** After a well-formed file is loaded, the name of a header entry that no
    later entry repeats is found by [has_field], and [field] returns the
    dtype, the offset and the shape of that entry with the bytes of the file
    at the offset: of two entries with the same name the later one is
    kept. *)
Theorem field_of_loaded_header fs filename bytes fhs1 fh fhs2 :
  fs filename = Some bytes ->
  wf_file bytes (fhs1 ++ fh :: fhs2) ->
  Forall (fun fh' => fh_name fh' <> fh_name fh) fhs2 ->
  exists tf,
    Tensor fs filename = Done tf
    /\ has_field tf (string_of_list_byte (fh_name fh)) = true
    /\ field tf (string_of_list_byte (fh_name fh)) = Done (field_of bytes fh).
Proof.
  intros Hfs Hwf Hlast. eexists. split; [apply wf_file_loads; eassumption|].
  assert (Hl : fields_of bytes (fhs1 ++ fh :: fhs2) ∅
               !! string_of_list_byte (fh_name fh) = Some (field_of bytes fh)).
  { rewrite fields_of_app. cbn [fields_of foldl].
    change (foldl _ ?m fhs2) with (fields_of bytes fhs2 m).
    rewrite fields_of_other.
    - apply lookup_insert_eq.
    - eapply Forall_impl; [exact Hlast|]. intros fh' Hne E. apply Hne.
      apply string_of_list_byte_inj, E. }
  unfold has_field, field. cbn [m_fields]. rewrite Hl. split; [|reflexivity].
  apply bool_decide_eq_true. eauto.
Qed.

(** A name that no header entry carries is not found: [has_field] answers
    [false] and [field] ends the process at its [CHECK]. *)
Theorem field_of_absent_name fs filename bytes fhs name :
  fs filename = Some bytes ->
  wf_file bytes fhs ->
  Forall (fun fh => string_of_list_byte (fh_name fh) <> name) fhs ->
  exists tf,
    Tensor fs filename = Done tf
    /\ has_field tf name = false
    /\ field tf name = Fatal "Check failed: it != m_fields.end()".
Proof.
  intros Hfs Hwf Hne. eexists. split; [apply wf_file_loads; eassumption|].
  unfold has_field, field. cbn [m_fields].
  rewrite fields_of_other by exact Hne. rewrite lookup_empty.
  split; [|reflexivity]. apply bool_decide_eq_false. intros [? ?]. discriminate.
Qed.

(** The loader accepts exactly the files that begin with the header of
    fewer than [2^32] fields, each with a dtype code from 1 to 11, an offset
    that is a valid [long] and a payload, of the size computed in a
    [size_t], that is empty or lies inside the file; what it returns is the
    table of these fields with the size of the file. *)
Theorem Tensor_accepts_exactly fs filename tf :
  Tensor fs filename = Done tf
  <-> exists bytes fhs rest,
        fs filename = Some bytes
        /\ bytes = enc_header fhs ++ rest
        /\ Z.of_nat (length fhs) < 2 ^ 32
        /\ Z.of_nat (length bytes) <= LONG_MAX
        /\ Forall (accepted_field (Z.of_nat (length bytes))) fhs
        /\ tf = mkTensor (fields_of bytes fhs ∅) filename
                         (Z.of_nat (length bytes)).
Proof. apply TensorFacts.Tensor_Done_iff. Qed.

(** The size of a payload is computed in a [size_t]: a shape whose product
    with the dtype size is a multiple of [2^64] has size 0, and a header of
    such fields is accepted whatever the length of the file, every field
    with an empty payload. *)
Theorem Tensor_size_wraps fs filename fhs rest :
  fs filename = Some (enc_header fhs ++ rest) ->
  Z.of_nat (length fhs) < 2 ^ 32 ->
  Z.of_nat (length (enc_header fhs ++ rest)) <= LONG_MAX ->
  Forall (fun fh =>
            layout_ok fh /\ 1 <= fh_dtype fh <= 11 /\ fh_offset fh <= LONG_MAX
            /\ payload_size (Type_of_code (fh_dtype fh)) (fh_shape fh)
               mod size_t_max = 0) fhs ->
  exists tf,
    Tensor fs filename = Done tf
    /\ forall name fld, m_fields tf !! name = Some fld -> data fld = [].
Proof.
  intros Hfs Hn Hlen Hok.
  assert (Hacc : Forall (accepted_field
                           (Z.of_nat (length (enc_header fhs ++ rest)))) fhs).
  { eapply Forall_impl; [exact Hok|]. intros fh (Hl & Hty & Ho & Hz).
    unfold accepted_field. rewrite TensorFacts.total_size_mod. auto. }
  eexists. split.
  - apply TensorFacts.Tensor_Done_iff. exists (enc_header fhs ++ rest), fhs, rest.
    auto 10.
  - intros name fld Hl. cbn [m_fields] in Hl.
    apply TensorFacts.fields_of_lookup in Hl as [Hl|(fh & Hin & ->)].
    + rewrite lookup_empty in Hl. discriminate.
    + rewrite Forall_forall in Hok.
      destruct (Hok fh (proj2 (list_elem_of_In _ _) Hin)) as (_ & _ & _ & Hz).
      unfold field_of. cbn [data]. rewrite TensorFacts.total_size_mod, Hz.
      unfold slice. reflexivity.
Qed.

(** The printed names of the dtypes tell all of them apart but two: [Int32]
    is printed with the name of [Int8]. *)
Theorem Type_name_collisions (a b : Type_) :
  Type_name a = Type_name b
  <-> a = b \/ (a = Int8 /\ b = Int32) \/ (a = Int32 /\ b = Int8).
Proof.
  split.
  - destruct a, b; cbn; intros E; try discriminate E; auto.
  - intros [->|[[-> ->]|[-> ->]]]; reflexivity.
Qed.

Ltac forall_steps :=
  match goal with
  | |- Forall _ _ => constructor
  end.

Lemma measured_file_wf :
  wf_file Measured.measured_file Measured.measured_entries.
Proof.
  split; [exists []; unfold Measured.measured_file; rewrite app_nil_r; reflexivity|].
  split; [vm_compute; reflexivity|]. split; [vm_compute; discriminate|].
  unfold Measured.measured_entries.
  repeat forall_steps;
    (split; [|split; [vm_compute; split; discriminate|vm_compute; discriminate]]);
    unfold layout_ok;
    (split; [vm_compute; reflexivity|]); (split; [vm_compute; reflexivity|]);
    (split; [vm_compute; split; [discriminate|reflexivity]|]);
    (split; [vm_compute; split; [discriminate|reflexivity]|]);
    repeat forall_steps;
    (vm_compute; split; [discriminate|reflexivity]).
Qed.


Lemma field_of_loaded_header_witness :
  exists tf,
    Tensor (fun _ => Some Measured.measured_file) "m.bsdf" = Done tf
    /\ has_field tf "description" = true
    /\ field tf "description"
       = Done (field_of Measured.measured_file
                        (Measured.entry "description" UInt8 [1])).
Proof.
  assert (Hlast : Forall (fun fh' => fh_name fh'
                            <> fh_name (Measured.entry "description" UInt8 [1]))
                         (tl Measured.measured_entries)).
  { cbn [tl Measured.measured_entries].
    repeat forall_steps; (vm_compute; discriminate). }
  pose proof (field_of_loaded_header (fun _ => Some Measured.measured_file)
                "m.bsdf" Measured.measured_file []
                (Measured.entry "description" UInt8 [1])
                (tl Measured.measured_entries) eq_refl measured_file_wf Hlast)
    as Hw.
  cbn [fh_name Measured.entry] in Hw.
  change (string_of_list_byte (list_byte_of_string "description"))
    with "description"%string in Hw.
  exact Hw.
Defined.

Lemma field_of_absent_name_witness :
  exists tf,
    Tensor (fun _ => Some Measured.measured_file) "m.bsdf" = Done tf
    /\ has_field tf "albedo" = false
    /\ field tf "albedo" = Fatal "Check failed: it != m_fields.end()".
Proof.
  assert (Hne : Forall (fun fh => string_of_list_byte (fh_name fh)
                                  <> "albedo"%string)
                       Measured.measured_entries).
  { unfold Measured.measured_entries.
    repeat forall_steps; (vm_compute; discriminate). }
  exact (field_of_absent_name (fun _ => Some Measured.measured_file) "m.bsdf"
           Measured.measured_file Measured.measured_entries "albedo" eq_refl
           measured_file_wf Hne).
Defined.

Lemma Tensor_size_wraps_witness :
  exists tf,
    Tensor (fun _ => Some (enc_header
                             [mkHeader (list_byte_of_string "a") 1 0
                                       [2 ^ 32; 2 ^ 32]] ++ []))
           "w.bsdf" = Done tf
    /\ forall name fld, m_fields tf !! name = Some fld -> data fld = [].
Proof.
  refine (Tensor_size_wraps
            (fun _ => Some (enc_header
                              [mkHeader (list_byte_of_string "a") 1 0
                                        [2 ^ 32; 2 ^ 32]] ++ []))
            "w.bsdf" [mkHeader (list_byte_of_string "a") 1 0 [2 ^ 32; 2 ^ 32]]
            [] eq_refl _ _ _).
  - vm_compute. reflexivity.
  - vm_compute. discriminate.
  - repeat forall_steps. unfold layout_ok.
    cbn [fh_name fh_dtype fh_offset fh_shape].
    repeat match goal with
           | |- _ /\ _ => split
           end;
      match goal with
      | |- Forall _ _ =>
          repeat forall_steps; (vm_compute; split; [discriminate|reflexivity])
      | |- _ => vm_compute; (reflexivity || discriminate)
      end.
Defined.

End TensorLookupFacts.

(** ** Building and caching the measured data *)

Module MeasuredCreateFacts.
Import Tensor Measured.

Section Create.

Variable float32 : list byte -> R.
Variable rint : R -> Z.

Local Abbreviation Create := (Measured.Create float32 rint).
Local Abbreviation BRDFDataFromFile := (Measured.BRDFDataFromFile float32 rint).

(** [reduction] of [Create], for the field [phi_i]. *)
Local Abbreviation reduction_of phi_i :=
  (to_int (rint (2 * PI / (float_at float32 (data phi_i) (at_ (shape phi_i) 0 - 1)
                           - float_at float32 (data phi_i) 0))%R)).

Ltac field_steps tf :=
  repeat match goal with
  | H : obind (field tf ?n) _ = _ |- _ =>
      let E := fresh "E" in
      destruct (field tf n) as [?fld|?msg] eqn:E; cbn [obind] in H;
      [|discriminate H]
  end.

(** When [Create] returns, it returns either a null pointer with exactly one
    diagnostic, or a resource without any diagnostic; the resource carries
    the file name, is isotropic exactly when [phi_i] has at most two samples,
    and has one wavelength for every entry of the field [wavelengths]. *)
Theorem Create_outcomes fs filename r :
  Create fs filename = Done r ->
  (resource r = None
   /\ diagnostics r = [filename +:+ ": invalid BRDF file structure: "])
  \/ (exists d tf phi_i wl,
        resource r = Some d /\ diagnostics r = []
        /\ Tensor fs filename = Done tf
        /\ field tf "phi_i" = Done phi_i
        /\ field tf "wavelengths" = Done wl
        /\ Measured.filename d = filename
        /\ isotropic d = (at_ (shape phi_i) 0 <=? 2)
        /\ length (wavelengths d) = Z.to_nat (at_ (shape wl) 0)).
Proof.
  unfold Measured.Create. intros H.
  destruct (Tensor fs filename) as [tf|msg] eqn:Etf; cbn [obind] in H;
    [|discriminate H].
  field_steps tf.
  destruct (negb (structure_ok _ _ _ _ _ _ _ _ _ _)).
  - injection H as <-. left. split; reflexivity.
  - cbv zeta in H.
    match type of H with
    | obind ?m _ = _ => destruct m as [[]|msg]; cbn [obind] in H; [|discriminate H]
    end.
    injection H as <-. right. do 4 eexists. cbn [resource diagnostics].
    repeat apply conj; try reflexivity; try eassumption.
    cbn [wavelengths]. unfold wavelengths_of. rewrite length_map, length_seq.
    reflexivity.
Qed.


(** Whatever a request returned, the next request for the same path returns
    it again, null pointer included, without reading the file as it is by
    then and without a new call of [Create] or a new diagnostic. *)
Theorem BRDFDataFromFile_again fs fs' name c v c1 :
  BRDFDataFromFile fs name c = Done (v, c1) ->
  BRDFDataFromFile fs' name c1 = Done (v, c1).
Proof.
  intros H. apply MeasuredFacts.BRDFDataFromFile_hit.
  apply MeasuredFacts.BRDFDataFromFile_inv in H
    as [[Hv ->]|(_ & r & _ & -> & ->)]; [exact Hv|].
  cbn [loadedData]. apply lookup_insert_eq.
Qed.

End Create.

Lemma Create_outcomes_witness :
  exists d,
    Measured.Create (fun _ => 0%R) (fun _ => 0)
      (fun _ => Some measured_file) "m.bsdf"
    = Done (mkCreated (Some d) [])
    /\ Measured.filename d = "m.bsdf"%string /\ isotropic d = true.
Proof.
  destruct (Measured.Create (fun _ => 0%R) (fun _ => 0)
              (fun _ => Some measured_file) "m.bsdf") as [r|msg] eqn:E;
    [|vm_compute in E; discriminate].
  destruct (Create_outcomes _ _ _ _ r E)
    as [[Hnone _]|(d & tf & phi_i & wl & Hd & Hdiag & Htf & Hphi & _ & Hname & Hiso & _)].
  - vm_compute in E. injection E as <-. discriminate Hnone.
  - destruct r as [res diag]. cbn [resource diagnostics] in Hd, Hdiag.
    subst res diag. exists d. split; [reflexivity|]. split; [exact Hname|].
    rewrite Hiso. vm_compute in Htf. injection Htf as <-.
    vm_compute in Hphi. injection Hphi as <-. reflexivity.
Defined.


Lemma BRDFDataFromFile_again_witness :
  exists v c1,
    Measured.BRDFDataFromFile (fun _ => 0%R) (fun _ => 0)
      (fun _ => Some file_with_flat_spectra) "m.bsdf" init_cache = Done (v, c1)
    /\ Measured.BRDFDataFromFile (fun _ => 0%R) (fun _ => 0)
         (fun _ => Some measured_file) "m.bsdf" c1 = Done (v, c1).
Proof.
  destruct (Measured.BRDFDataFromFile (fun _ => 0%R) (fun _ => 0)
              (fun _ => Some file_with_flat_spectra) "m.bsdf" init_cache)
    as [[v c1]|msg] eqn:E; [|vm_compute in E; discriminate].
  exists v, c1. split; [reflexivity|].
  exact (BRDFDataFromFile_again _ _ _ (fun _ => Some measured_file) _ _ _ _ E).
Defined.

End MeasuredCreateFacts.

(** ** Sampling, evaluation and density of the dielectric *)

Local Open Scope R_scope.

Module DielectricDensityFacts.
Import Dielectric.

(** Which branch the comparison of [uc] with [pr / (pr + pt)] selects. *)
Lemma branch_choice (hr ht : bool) (R T uc : Float) :
  0 <= uc < 1 ->
  let pr := if negb hr then 0 else R in
  let pt := if negb ht then 0 else T in
  (pr =? 0) && (pt =? 0) = false ->
  if uc <? pr / (pr + pt) then hr = true else ht = true.
Proof.
  intros Huc pr pt Hnz. subst pr pt.
  destruct hr, ht; cbn [negb] in *.
  - destruct (_ <? _); reflexivity.
  - rewrite eqb_refl, andb_true_r in Hnz.
    apply ReciprocityFacts.eqb_false_iff in Hnz.
    replace (R / (R + 0)) with 1 by (field; lra).
    destruct (ltb_spec uc 1); [reflexivity|lra].
  - replace (0 / (0 + T)) with 0 by (unfold Rdiv; ring).
    destruct (ltb_spec uc 0); [lra|reflexivity].
  - rewrite !eqb_refl in Hnz. discriminate.
Qed.

Section Filter.

Variable NSpectrumSamples : nat.
Variable FrDielectric : Float -> Float -> Float.
Variable Refract : Vector3f -> Vector3f -> Float -> option (Float * Vector3f).
Variable bxdf : DielectricBxDF.

Local Abbreviation Sample_f :=
  (Dielectric.Sample_f NSpectrumSamples FrDielectric Refract bxdf).
Local Abbreviation f := (Dielectric.f NSpectrumSamples FrDielectric bxdf).
Local Abbreviation PDF := (Dielectric.PDF FrDielectric bxdf).

(** For a random number [uc] in [[0, 1)], a sample of the dielectric is a
    reflection only if the filter has [Reflection], and a transmission only
    if the filter has [Transmission]. *)
Theorem Sample_f_honours_filter wo uc u mode sampleFlags bs :
  0 <= uc < 1 ->
  Sample_f wo uc u mode sampleFlags = Some bs ->
  ((bs.(BSDFSample.flags) = BxDFFlags.SpecularReflection
    \/ bs.(BSDFSample.flags) = BxDFFlags.GlossyReflection)
   /\ BxDFReflTransFlags.has sampleFlags BxDFReflTransFlags.Reflection = true)
  \/ ((bs.(BSDFSample.flags) = BxDFFlags.SpecularTransmission
       \/ bs.(BSDFSample.flags) = BxDFFlags.GlossyTransmission)
      /\ BxDFReflTransFlags.has sampleFlags BxDFReflTransFlags.Transmission = true).
Proof.
  intros Huc. unfold Dielectric.Sample_f.
  destruct ((bxdf.(eta) =? 1) || bxdf.(mfDistrib).(EffectivelySmooth)); cbv zeta.
  - pose proof (branch_choice
                  (BxDFReflTransFlags.has sampleFlags BxDFReflTransFlags.Reflection)
                  (BxDFReflTransFlags.has sampleFlags BxDFReflTransFlags.Transmission)
                  (FrDielectric (CosTheta wo) bxdf.(eta))
                  (1 - FrDielectric (CosTheta wo) bxdf.(eta)) uc Huc) as Hb.
    cbv zeta in Hb.
    destruct (_ && _); [discriminate|]. specialize (Hb eq_refl).
    destruct (uc <? _).
    + intros E. injection E as <-. left. cbn [BSDFSample.flags]. auto.
    + destruct (Refract _ _ _) as [[etap wi]|]; [|discriminate].
      intros E. injection E as <-. right. cbn [BSDFSample.flags]. auto.
  - pose proof (branch_choice
                  (BxDFReflTransFlags.has sampleFlags BxDFReflTransFlags.Reflection)
                  (BxDFReflTransFlags.has sampleFlags BxDFReflTransFlags.Transmission)
                  (FrDielectric (Dot wo (bxdf.(mfDistrib).(Sample_wm) wo u))
                                bxdf.(eta))
                  (1 - FrDielectric (Dot wo (bxdf.(mfDistrib).(Sample_wm) wo u))
                                    bxdf.(eta)) uc Huc) as Hb.
    cbv zeta in Hb.
    destruct (_ && _); [discriminate|]. specialize (Hb eq_refl).
    destruct (uc <? _).
    + destruct (negb (SameHemisphere _ _)); [discriminate|].
      intros E. injection E as <-. left. cbn [BSDFSample.flags]. auto.
    + destruct (Refract _ _ _) as [[etap wi]|]; [|discriminate].
      destruct (_ || _); [discriminate|].
      intros E. injection E as <-. right. cbn [BSDFSample.flags]. auto.
Qed.

End Filter.

Lemma vneg_vneg v : vneg (vneg v) = v.
Proof. destruct v. unfold vneg. cbn [x y z]. f_equal; ring. Qed.

Lemma Normalize_unit v : LengthSquared v = 1 -> Normalize v = v.
Proof.
  intros Hl. unfold Normalize, Length. rewrite Hl, sqrt_1.
  destruct v. unfold vdiv. cbn [x y z]. f_equal; field.
Qed.

Lemma vscale_vneg v c : vscale v c = vscale (vneg v) (- c).
Proof. unfold vscale, vneg. cbn [x y z]. f_equal; ring. Qed.

Lemma LengthSquared_vneg v : LengthSquared (vneg v) = LengthSquared v.
Proof. unfold LengthSquared, Dot, vneg. cbn [x y z]. ring. Qed.

(** The microfacet normal is found again from any multiple of it. *)
Lemma normal_recovered wm c :
  LengthSquared wm = 1 -> 0 < wm.(z) -> c <> 0 ->
  FaceForward (Normalize (vscale wm c)) (mkVector3f 0 0 1) = wm.
Proof.
  intros Hl Hz Hc. unfold FaceForward.
  destruct (Rtotal_order c 0) as [Hneg|[?|Hpos]]; [|contradiction|].
  - rewrite vscale_vneg, ReciprocityFacts.Normalize_vscale by lra.
    rewrite Normalize_unit by (rewrite LengthSquared_vneg; exact Hl).
    assert (Hd : Dot (vneg wm) (mkVector3f 0 0 1) < 0).
    { unfold Dot, vneg. cbn [x y z]. lra. }
    destruct (ltb_spec (Dot (vneg wm) (mkVector3f 0 0 1)) 0); [|contradiction].
    apply vneg_vneg.
  - rewrite ReciprocityFacts.Normalize_vscale by lra.
    rewrite Normalize_unit by exact Hl.
    assert (Hd : ~ Dot wm (mkVector3f 0 0 1) < 0).
    { unfold Dot. cbn [x y z]. lra. }
    destruct (ltb_spec (Dot wm (mkVector3f 0 0 1)) 0); [contradiction|].
    reflexivity.
Qed.

Lemma half_vector_of_Reflect wo wm :
  vadd (vscale (Reflect wo wm) 1) wo = vscale wm (2 * Dot wo wm).
Proof. unfold Reflect, vadd, vscale, vneg. cbn [x y z]. f_equal; ring. Qed.

Lemma Dot_Reflect wo wm :
  LengthSquared wm = 1 -> Dot wm (Reflect wo wm) = Dot wo wm.
Proof.
  intros Hl.
  transitivity (- Dot wo wm + 2 * Dot wo wm * LengthSquared wm).
  - unfold Reflect, LengthSquared, Dot, vadd, vscale, vneg. cbn [x y z]. ring.
  - rewrite Hl. ring.
Qed.

Lemma Glossy_flags_differ :
  BxDFFlags.GlossyTransmission <> BxDFFlags.GlossyReflection.
Proof. vm_compute. discriminate. Qed.

Section Consistency.

Variable NSpectrumSamples : nat.
Variable FrDielectric : Float -> Float -> Float.
Variable Refract : Vector3f -> Vector3f -> Float -> option (Float * Vector3f).
Variable bxdf : DielectricBxDF.

Local Abbreviation Sample_f :=
  (Dielectric.Sample_f NSpectrumSamples FrDielectric Refract bxdf).
Local Abbreviation f := (Dielectric.f NSpectrumSamples FrDielectric bxdf).
Local Abbreviation PDF := (Dielectric.PDF FrDielectric bxdf).

(** A reflection sampled on a rough interface, off a unit microfacet normal
    of the upper hemisphere that faces [wo]: the value and the density that
    [Sample_f] returns are the ones [f] and [PDF] compute for the sampled
    direction. *)
Theorem rough_reflection_consistent wo uc u mode sampleFlags bs :
  (bxdf.(eta) =? 1) || bxdf.(mfDistrib).(EffectivelySmooth) = false ->
  let wm := bxdf.(mfDistrib).(Sample_wm) wo u in
  LengthSquared wm = 1 -> 0 < wm.(z) -> 0 < Dot wo wm * CosTheta wo ->
  Sample_f wo uc u mode sampleFlags = Some bs ->
  bs.(BSDFSample.flags) = BxDFFlags.GlossyReflection ->
  bs.(BSDFSample.wi) = Reflect wo wm
  /\ bs.(BSDFSample.f) = f wo bs.(BSDFSample.wi) mode
  /\ bs.(BSDFSample.pdf) = PDF wo bs.(BSDFSample.wi) mode sampleFlags.
Proof.
  intros Hrough wm Hl Hz Hface.
  unfold Dielectric.Sample_f. rewrite Hrough. cbv zeta. fold wm.
  set (R := FrDielectric (Dot wo wm) bxdf.(eta)).
  set (pr := if negb (BxDFReflTransFlags.has sampleFlags
                        BxDFReflTransFlags.Reflection) then 0 else R).
  set (pt := if negb (BxDFReflTransFlags.has sampleFlags
                        BxDFReflTransFlags.Transmission) then 0 else 1 - R).
  destruct ((pr =? 0) && (pt =? 0)) eqn:Hnz; [discriminate|].
  destruct (uc <? pr / (pr + pt)).
  2:{ destruct (Refract wo wm bxdf.(eta)) as [[etap wi]|]; [|discriminate].
      destruct (SameHemisphere wo wi || _); [discriminate|].
      intros E Hfl. injection E as <-. cbn [BSDFSample.flags] in Hfl.
      destruct (Glossy_flags_differ Hfl). }
  destruct (SameHemisphere wo (Reflect wo wm)) eqn:Hsame; [|discriminate].
  cbn [negb]. intros E _. injection E as <-.
  cbn [BSDFSample.wi BSDFSample.f BSDFSample.pdf].
  unfold SameHemisphere in Hsame.
  destruct (ltb_spec 0 (wo.(z) * (Reflect wo wm).(z))) as [Hs|]; [|discriminate].
  set (wi := Reflect wo wm) in *.
  assert (Hd : Dot wo wm <> 0) by (intros E; rewrite E in Hface; lra).
  assert (Hco : CosTheta wo <> 0) by (intros E; rewrite E in Hface; lra).
  assert (Hci : CosTheta wi <> 0).
  { unfold CosTheta. intros E. rewrite E in Hs. lra. }
  assert (Hrefl : (0 <? CosTheta wi * CosTheta wo) = true).
  { unfold CosTheta. destruct (ltb_spec 0 (wi.(z) * wo.(z))); [reflexivity|lra]. }
  assert (Hwm : FaceForward (Normalize (vadd (vscale wi 1) wo)) (mkVector3f 0 0 1)
                = wm).
  { unfold wi. rewrite half_vector_of_Reflect. apply normal_recovered; auto; try lra. }
  assert (Hls : (LengthSquared (vadd (vscale wi 1) wo) =? 0) = false).
  { unfold wi. rewrite half_vector_of_Reflect.
    rewrite ReciprocityFacts.LengthSquared_vscale, Hl.
    apply ReciprocityFacts.eqb_false_iff. intros E.
    assert (E2 : Dot wo wm * Dot wo wm = 0) by lra.
    apply Rmult_integral in E2. tauto. }
  assert (Hback : (Dot wm wi * CosTheta wi <? 0)
                  || (Dot wm wo * CosTheta wo <? 0) = false).
  { unfold wi at 1. rewrite Dot_Reflect by exact Hl.
    rewrite (ReciprocityFacts.Dot_comm wm wo).
    assert (0 < Dot wo wm * CosTheta wi).
    { unfold CosTheta in *.
      assert (0 < (Dot wo wm * wo.(z)) * (wo.(z) * wi.(z))) by
        (apply Rmult_lt_0_compat; assumption).
      assert (0 < wo.(z) * wo.(z)) by
        (destruct (Rtotal_order wo.(z) 0) as [?|[?|?]]; [nra|contradiction|nra]).
      nra. }
    destruct (ltb_spec (Dot wo wm * CosTheta wi) 0); [lra|].
    destruct (ltb_spec (Dot wo wm * CosTheta wo) 0); [lra|reflexivity]. }
  assert (H4 : 0 < 4 * CosTheta wi * CosTheta wo).
  { unfold CosTheta. lra. }
  split; [reflexivity|]. split.
  - unfold Dielectric.f. rewrite Hrough. cbv zeta. rewrite Hrefl. cbn [negb].
    rewrite Hls, Hwm, Hback.
    rewrite (proj2 (ReciprocityFacts.eqb_false_iff _ _) Hci).
    rewrite (proj2 (ReciprocityFacts.eqb_false_iff _ _) Hco). cbn [orb].
    rewrite Rabs_pos_eq by lra. reflexivity.
  - unfold Dielectric.PDF. rewrite Hrough. cbv zeta. rewrite Hrefl. cbn [negb].
    rewrite Hls, Hwm, Hback.
    rewrite (proj2 (ReciprocityFacts.eqb_false_iff _ _) Hci).
    rewrite (proj2 (ReciprocityFacts.eqb_false_iff _ _) Hco). cbn [orb].
    fold R. fold pr pt. rewrite Hnz. reflexivity.
Qed.

(** A transmission sampled on a rough interface, when [Refract] gives the
    relative index of the side of [wo] and a direction whose generalized
    half vector is along the microfacet normal, leaving on the far side of
    the facet: the value and the density that [Sample_f] returns are the
    ones [f] and [PDF] compute for the sampled direction. *)
Theorem rough_transmission_consistent wo uc u mode sampleFlags bs etap wi :
  (bxdf.(eta) =? 1) || bxdf.(mfDistrib).(EffectivelySmooth) = false ->
  let wm := bxdf.(mfDistrib).(Sample_wm) wo u in
  LengthSquared wm = 1 -> 0 < wm.(z) -> 0 < Dot wo wm * CosTheta wo ->
  Refract wo wm bxdf.(eta) = Some (etap, wi) ->
  etap = (if 0 <? Dot wo wm then bxdf.(eta) else 1 / bxdf.(eta)) ->
  (exists c, c <> 0 /\ vadd (vscale wi etap) wo = vscale wm c) ->
  0 <= Dot wi wm * CosTheta wi ->
  Sample_f wo uc u mode sampleFlags = Some bs ->
  bs.(BSDFSample.flags) = BxDFFlags.GlossyTransmission ->
  bs.(BSDFSample.wi) = wi /\ bs.(BSDFSample.eta) = etap
  /\ bs.(BSDFSample.f) = f wo wi mode
  /\ bs.(BSDFSample.pdf) = PDF wo wi mode sampleFlags.
Proof.
  intros Hrough wm Hl Hz Hface HR Hetap (c & Hc & Hhalf) Hfar.
  unfold Dielectric.Sample_f. rewrite Hrough. cbv zeta. fold wm.
  set (R := FrDielectric (Dot wo wm) bxdf.(eta)).
  set (pr := if negb (BxDFReflTransFlags.has sampleFlags
                        BxDFReflTransFlags.Reflection) then 0 else R).
  set (pt := if negb (BxDFReflTransFlags.has sampleFlags
                        BxDFReflTransFlags.Transmission) then 0 else 1 - R).
  destruct ((pr =? 0) && (pt =? 0)) eqn:Hnz; [discriminate|].
  destruct (uc <? pr / (pr + pt)).
  { destruct (negb (SameHemisphere wo (Reflect wo wm))); [discriminate|].
    intros E Hfl. injection E as <-. cbn [BSDFSample.flags] in Hfl.
    symmetry in Hfl. destruct (Glossy_flags_differ Hfl). }
  rewrite HR.
  destruct (SameHemisphere wo wi) eqn:Hsame; [discriminate|].
  destruct (eqb_spec wi.(z) 0) as [|Hci]; [discriminate|].
  cbn [orb]. intros E _. injection E as <-.
  cbn [BSDFSample.wi BSDFSample.f BSDFSample.pdf BSDFSample.eta].
  assert (Hco : CosTheta wo <> 0) by (intros E; rewrite E in Hface; lra).
  assert (Hrefl : (0 <? CosTheta wi * CosTheta wo) = false).
  { unfold SameHemisphere in Hsame. unfold CosTheta.
    rewrite Rmult_comm. exact Hsame. }
  assert (Hside : (if 0 <? CosTheta wo then bxdf.(eta) else 1 / bxdf.(eta)) = etap).
  { rewrite Hetap.
    destruct (ltb_spec 0 (CosTheta wo)), (ltb_spec 0 (Dot wo wm));
      try reflexivity; exfalso; nra. }
  assert (Hwm : FaceForward (Normalize (vadd (vscale wi etap) wo))
                            (mkVector3f 0 0 1) = wm).
  { rewrite Hhalf. apply normal_recovered; assumption. }
  assert (Hls : (LengthSquared (vadd (vscale wi etap) wo) =? 0) = false).
  { rewrite Hhalf, ReciprocityFacts.LengthSquared_vscale, Hl.
    apply ReciprocityFacts.eqb_false_iff. intros E.
    assert (E2 : c * c = 0) by lra. apply Rmult_integral in E2. tauto. }
  assert (Hback : (Dot wm wi * CosTheta wi <? 0)
                  || (Dot wm wo * CosTheta wo <? 0) = false).
  { rewrite (ReciprocityFacts.Dot_comm wm wi), (ReciprocityFacts.Dot_comm wm wo).
    destruct (ltb_spec (Dot wi wm * CosTheta wi) 0); [lra|].
    destruct (ltb_spec (Dot wo wm * CosTheta wo) 0); [lra|reflexivity]. }
  split; [reflexivity|]. split; [reflexivity|]. split.
  - unfold Dielectric.f. rewrite Hrough. cbv zeta. rewrite Hrefl. cbn [negb].
    rewrite Hside, Hls, Hwm, Hback.
    rewrite (proj2 (ReciprocityFacts.eqb_false_iff (CosTheta wi) 0) Hci).
    rewrite (proj2 (ReciprocityFacts.eqb_false_iff _ _) Hco). cbn [orb].
    fold R.
    replace (Sqr (Dot wi wm + Dot wo wm / etap) * CosTheta wi * CosTheta wo)
      with (CosTheta wi * CosTheta wo * Sqr (Dot wi wm + Dot wo wm / etap))
      by ring.
    replace (D (mfDistrib bxdf) wm * (1 - R) * G (mfDistrib bxdf) wo wi)
      with ((1 - R) * D (mfDistrib bxdf) wm * G (mfDistrib bxdf) wo wi) by ring.
    destruct mode; [rewrite ReciprocityFacts.const_div|]; reflexivity.
  - unfold Dielectric.PDF. rewrite Hrough. cbv zeta. rewrite Hrefl. cbn [negb].
    rewrite Hside, Hls, Hwm, Hback.
    rewrite (proj2 (ReciprocityFacts.eqb_false_iff (CosTheta wi) 0) Hci).
    rewrite (proj2 (ReciprocityFacts.eqb_false_iff _ _) Hco). cbn [orb].
    fold R. fold pr pt. rewrite Hnz. reflexivity.
Qed.

End Consistency.

Lemma div_nonneg (a b : Float) : 0 <= a -> 0 <= b -> 0 <= a / b.
Proof.
  intros Ha Hb. unfold Rdiv. destruct (Req_dec b 0) as [->|Hb0].
  - rewrite Rinv_0. lra.
  - apply Rmult_le_pos; [exact Ha|]. left. apply Rinv_0_lt_compat. lra.
Qed.

Lemma Forall_const n (a : Float) (P : Float -> Prop) :
  P a -> Forall P (SampledSpectrum.const n a).
Proof.
  intros Ha. unfold SampledSpectrum.const.
  induction n as [|n IH]; cbn [repeat]; constructor; assumption.
Qed.

Lemma Sqr_nonneg (a : Float) : 0 <= Sqr a.
Proof. unfold Sqr. nra. Qed.

Section Signs.

Variable NSpectrumSamples : nat.
Variable FrDielectric : Float -> Float -> Float.
Variable bxdf : DielectricBxDF.

Local Abbreviation f := (Dielectric.f NSpectrumSamples FrDielectric bxdf).
Local Abbreviation PDF := (Dielectric.PDF FrDielectric bxdf).

Ltac not_negative HD HG HP HF :=
  repeat first
    [ apply Rabs_pos | apply Sqr_nonneg | apply HD | apply HG | apply HP
    | apply (proj1 (HF _ _))
    | match goal with
      | |- 0 <= 1 - FrDielectric ?c ?e => pose proof (HF c e); lra
      end
    | apply div_nonneg | apply Rmult_le_pos | apply Rplus_le_le_0_compat
    | lra ].

(** With a microfacet distribution whose terms are not negative and a
    Fresnel reflectance between 0 and 1, no entry of [f] and no value of
    [PDF] is negative, whatever the directions, the mode and the filter. *)
Theorem f_and_PDF_not_negative wo wi mode sampleFlags :
  (forall w, 0 <= bxdf.(mfDistrib).(D) w) ->
  (forall a b, 0 <= bxdf.(mfDistrib).(G) a b) ->
  (forall a b, 0 <= bxdf.(mfDistrib).(PDF_wm) a b) ->
  (forall c e, 0 <= FrDielectric c e <= 1) ->
  Forall (fun v => 0 <= v) (f wo wi mode)
  /\ 0 <= PDF wo wi mode sampleFlags.
Proof.
  intros HD HG HP HF. split.
  - unfold Dielectric.f. cbv zeta.
    repeat match goal with
           | |- context [if ?b then _ else _] => destruct b
           end;
      apply Forall_const; not_negative HD HG HP HF.
  - unfold Dielectric.PDF, AbsDot. cbv zeta.
    repeat match goal with
           | |- context [if ?b then _ else _] => destruct b
           end;
      not_negative HD HG HP HF.
Qed.

(** A pair of directions on the same side of the surface has density 0 under
    a filter without [Reflection], and a pair on opposite sides under a
    filter without [Transmission]. *)
Theorem PDF_zero_outside_filter wo wi mode sampleFlags :
  (0 < CosTheta wi * CosTheta wo ->
   BxDFReflTransFlags.has sampleFlags BxDFReflTransFlags.Reflection = false ->
   PDF wo wi mode sampleFlags = 0)
  /\ (~ 0 < CosTheta wi * CosTheta wo ->
      BxDFReflTransFlags.has sampleFlags BxDFReflTransFlags.Transmission = false ->
      PDF wo wi mode sampleFlags = 0).
Proof.
  split; intros Hside Hflag; unfold Dielectric.PDF; cbv zeta; rewrite Hflag;
    cbn [negb];
    destruct (ltb_spec 0 (CosTheta wi * CosTheta wo)); try contradiction;
    repeat match goal with
           | |- context [if ?b then _ else _] => destruct b
           end;
    try reflexivity; unfold Rdiv; ring.
Qed.

End Signs.

Import Instances.

Lemma unit_normal_length u :
  LengthSquared ((glass false).(mfDistrib).(Sample_wm) (mkVector3f 0 0 1) u) = 1.
Proof. unfold LengthSquared, Dot. cbn. ring. Qed.

Lemma Sample_f_honours_filter_witness :
  exists bs,
    Dielectric.Sample_f 1 grazing_reflectance no_refraction (glass true)
      (mkVector3f 0 0 1) (1 / 2) (0, 0) Radiance BxDFReflTransFlags.All
    = Some bs
    /\ bs.(BSDFSample.flags) = BxDFFlags.SpecularReflection.
Proof.
  destruct (Dielectric.Sample_f 1 grazing_reflectance no_refraction (glass true)
              (mkVector3f 0 0 1) (1 / 2) (0, 0) Radiance BxDFReflTransFlags.All)
    as [bs|] eqn:E.
  - exists bs. split; [reflexivity|].
    assert (Huc : 0 <= 1 / 2 < 1) by lra.
    destruct (Sample_f_honours_filter 1 grazing_reflectance no_refraction
                (glass true) (mkVector3f 0 0 1) (1 / 2) (0, 0) Radiance
                BxDFReflTransFlags.All bs Huc E) as [[[Hf|Hf] _]|[[Hf|Hf] _]];
      [exact Hf|exfalso..];
      revert E; unfold Dielectric.Sample_f, grazing_reflectance;
      cbn [glass unit_distribution eta mfDistrib EffectivelySmooth orb];
      rewrite orb_true_r;
      change (BxDFReflTransFlags.has BxDFReflTransFlags.All
                BxDFReflTransFlags.Reflection) with true;
      change (BxDFReflTransFlags.has BxDFReflTransFlags.All
                BxDFReflTransFlags.Transmission) with true;
      cbn [negb]; ReciprocityFacts.decide_comparisons; cbn [andb];
      intros E; injection E as <-; cbn [BSDFSample.flags] in Hf;
      vm_compute in Hf; discriminate Hf.
  - exfalso. revert E. unfold Dielectric.Sample_f, grazing_reflectance.
    cbn [glass unit_distribution eta mfDistrib EffectivelySmooth orb].
    rewrite orb_true_r.
    change (BxDFReflTransFlags.has BxDFReflTransFlags.All
              BxDFReflTransFlags.Reflection) with true.
    change (BxDFReflTransFlags.has BxDFReflTransFlags.All
              BxDFReflTransFlags.Transmission) with true.
    cbn [negb]. ReciprocityFacts.decide_comparisons. cbn [andb]. discriminate.
Defined.

Lemma rough_reflection_consistent_witness :
  exists bs,
    Dielectric.Sample_f 1 normal_reflectance no_refraction (glass false)
      (mkVector3f 0 0 1) 0 (0, 0) Radiance BxDFReflTransFlags.All = Some bs
    /\ bs.(BSDFSample.f)
       = Dielectric.f 1 normal_reflectance (glass false) (mkVector3f 0 0 1)
           bs.(BSDFSample.wi) Radiance
    /\ bs.(BSDFSample.pdf)
       = Dielectric.PDF normal_reflectance (glass false) (mkVector3f 0 0 1)
           bs.(BSDFSample.wi) Radiance BxDFReflTransFlags.All.
Proof.
  assert (E : exists bs,
             Dielectric.Sample_f 1 normal_reflectance no_refraction (glass false)
               (mkVector3f 0 0 1) 0 (0, 0) Radiance BxDFReflTransFlags.All
             = Some bs
             /\ bs.(BSDFSample.flags) = BxDFFlags.GlossyReflection).
  { unfold Dielectric.Sample_f, normal_reflectance, SameHemisphere, Reflect, Dot.
    cbn [glass unit_distribution eta mfDistrib EffectivelySmooth Sample_wm
         orb vadd vneg vscale x y z].
    change (BxDFReflTransFlags.has BxDFReflTransFlags.All
              BxDFReflTransFlags.Reflection) with true.
    change (BxDFReflTransFlags.has BxDFReflTransFlags.All
              BxDFReflTransFlags.Transmission) with true.
    cbn [negb]. ReciprocityFacts.decide_comparisons. cbn [andb orb negb].
    eexists. split; reflexivity. }
  destruct E as (bs & E & Hfl). exists bs. split; [exact E|].
  refine (proj2 (rough_reflection_consistent 1 normal_reflectance no_refraction
                   (glass false) (mkVector3f 0 0 1) 0 (0, 0) Radiance
                   BxDFReflTransFlags.All bs _ _ _ _ E Hfl)).
  - cbn [glass unit_distribution eta mfDistrib EffectivelySmooth].
    rewrite orb_false_r. apply ReciprocityFacts.eqb_false_iff. lra.
  - apply unit_normal_length.
  - cbn. lra.
  - unfold Dot, CosTheta. cbn. lra.
Defined.

Lemma rough_transmission_consistent_witness :
  exists bs,
    Dielectric.Sample_f 1 normal_reflectance straight_refraction (glass false)
      (mkVector3f 0 0 1) (1 / 2) (0, 0) Radiance BxDFReflTransFlags.All
    = Some bs
    /\ bs.(BSDFSample.f)
       = Dielectric.f 1 normal_reflectance (glass false) (mkVector3f 0 0 1)
           (mkVector3f 0 0 (- 1)) Radiance
    /\ bs.(BSDFSample.pdf)
       = Dielectric.PDF normal_reflectance (glass false) (mkVector3f 0 0 1)
           (mkVector3f 0 0 (- 1)) Radiance BxDFReflTransFlags.All.
Proof.
  assert (E : exists bs,
             Dielectric.Sample_f 1 normal_reflectance straight_refraction
               (glass false) (mkVector3f 0 0 1) (1 / 2) (0, 0) Radiance
               BxDFReflTransFlags.All = Some bs
             /\ bs.(BSDFSample.flags) = BxDFFlags.GlossyTransmission).
  { unfold Dielectric.Sample_f, normal_reflectance, straight_refraction,
      SameHemisphere.
    cbn [glass unit_distribution eta mfDistrib EffectivelySmooth Sample_wm
         orb x y z].
    change (BxDFReflTransFlags.has BxDFReflTransFlags.All
              BxDFReflTransFlags.Reflection) with true.
    change (BxDFReflTransFlags.has BxDFReflTransFlags.All
              BxDFReflTransFlags.Transmission) with true.
    cbn [negb]. ReciprocityFacts.decide_comparisons. cbn [andb orb negb].
    eexists. split; reflexivity. }
  destruct E as (bs & E & Hfl). exists bs. split; [exact E|].
  refine (proj2 (proj2 (rough_transmission_consistent 1 normal_reflectance
                          straight_refraction (glass false) (mkVector3f 0 0 1)
                          (1 / 2) (0, 0) Radiance BxDFReflTransFlags.All bs
                          (3 / 2) (mkVector3f 0 0 (- 1))
                          _ _ _ _ eq_refl _ _ _ E Hfl))).
  - cbn [glass unit_distribution eta mfDistrib EffectivelySmooth].
    rewrite orb_false_r. apply ReciprocityFacts.eqb_false_iff. lra.
  - apply unit_normal_length.
  - cbn. lra.
  - unfold Dot, CosTheta. cbn. lra.
  - unfold Dot. cbn [glass unit_distribution eta mfDistrib Sample_wm x y z].
    destruct (ltb_spec 0 (0 * 0 + 0 * 0 + 1 * 1)); [reflexivity|lra].
  - exists (- (1 / 2)). split; [lra|].
    unfold vadd, vscale. cbn [glass unit_distribution mfDistrib Sample_wm x y z].
    f_equal; lra.
  - unfold Dot, CosTheta. cbn. lra.
Defined.

Lemma f_and_PDF_not_negative_witness :
  Forall (fun v => 0 <= v)
    (Dielectric.f 1 normal_reflectance (glass false) (mkVector3f 0 0 1)
       (mkVector3f 0 0 (- 1)) Radiance)
  /\ 0 <= Dielectric.PDF normal_reflectance (glass false) (mkVector3f 0 0 1)
            (mkVector3f 0 0 (- 1)) Radiance BxDFReflTransFlags.All.
Proof.
  apply (f_and_PDF_not_negative 1 normal_reflectance (glass false));
    intros; cbn; unfold normal_reflectance; lra.
Defined.

End DielectricDensityFacts.

(** ** The constructor of the hair model *)

Module HairConstructionFacts.
Import Hair.

Lemma tilt_terms_length n (s0 c0 : Float) :
  length (fst (tilt_terms n s0 c0)) = S n
  /\ length (snd (tilt_terms n s0 c0)) = S n.
Proof.
  induction n as [|n [IHs IHc]]; cbn [tilt_terms]; [split; reflexivity|].
  destruct (tilt_terms n s0 c0) as [sins coss]. cbn [fst snd length] in *.
  split; congruence.
Qed.

(** The recurrence doubles the angle: entry [k], counted from the end, holds
    the sine and the cosine of [2^k a]. *)
Lemma tilt_terms_angles (a : Float) n :
  forall k, (k <= n)%nat ->
    nth (n - k) (fst (tilt_terms n (sin a) (cos a))) 0 = sin (2 ^ k * a)
    /\ nth (n - k) (snd (tilt_terms n (sin a) (cos a))) 0 = cos (2 ^ k * a).
Proof.
  induction n as [|n IH]; intros k Hk.
  - assert (k = 0)%nat as -> by lia. cbn. rewrite Rmult_1_l. split; reflexivity.
  - cbn [tilt_terms].
    pose proof (tilt_terms_length n (sin a) (cos a)) as [Hls Hlc].
    destruct (tilt_terms n (sin a) (cos a)) as [sins coss] eqn:E.
    cbn [fst snd] in *.
    destruct (Nat.eq_dec k (S n)) as [->|Hne].
    + rewrite Nat.sub_diag. cbn [nth fst snd].
      destruct (IH n (Nat.le_refl n)) as [Hs Hc].
      rewrite Nat.sub_diag in Hs, Hc.
      assert (Hhs : hd 0 sins = sin (2 ^ n * a)).
      { destruct sins; [discriminate|exact Hs]. }
      assert (Hhc : hd 0 coss = cos (2 ^ n * a)).
      { destruct coss; [discriminate|exact Hc]. }
      rewrite Hhs, Hhc.
      replace (2 ^ S n * a) with (2 * (2 ^ n * a)) by (cbn [pow]; ring).
      rewrite sin_2a, cos_2a. unfold Sqr. split; ring.
    + assert (Hk' : (k <= n)%nat) by lia.
      replace (S n - k)%nat with (S (n - k)) by lia. cbn [nth fst snd].
      exact (IH k Hk').
Qed.

Section Construction.

Variable H : Helpers.

Hypothesis pMax_3 : (3 <= H.(pMax))%nat.

(** The constructor returns exactly when the three [CHECK]s hold, and then
    keeps the five parameters as they were given. *)
Theorem HairBxDF_new_accepts_iff h eta sigma_a beta_m beta_n alpha :
  (exists b, HairBxDF_new H h eta sigma_a beta_m beta_n alpha = Done b
             /\ b.(Hair.h) = h /\ b.(Hair.eta) = eta
             /\ b.(Hair.sigma_a) = sigma_a
             /\ b.(Hair.beta_m) = beta_m /\ b.(Hair.beta_n) = beta_n)
  <-> (-1 <= h <= 1 /\ 0 <= beta_m <= 1 /\ 0 <= beta_n <= 1).
Proof.
  unfold HairBxDF_new. cbv zeta.
  destruct (tilt_terms _ _ _) as [sins coss].
  destruct (leb_spec (-1) h), (leb_spec h 1), (leb_spec 0 beta_m),
    (leb_spec beta_m 1), (leb_spec 0 beta_n), (leb_spec beta_n 1);
    cbn [andb negb]; split;
    try (intros (b & Hb & _); discriminate Hb);
    try (intros (? & ? & ?); lra).
  intros _. eexists. split; [reflexivity|]. cbn. auto.
Qed.

(** What the constructor leaves in the tables of a fiber: [pMax + 1]
    variances, none negative, with [v[1] = v[0] / 4], [v[2] = 4 v[0]] and
    every later entry equal to [v[2]]; a scale [s] that is not negative; and
    [pMax] sines and cosines of the doubled tilt angles. *)
Theorem HairBxDF_new_tables h eta sigma_a beta_m beta_n alpha b :
  HairBxDF_new H h eta sigma_a beta_m beta_n alpha = Done b ->
  length b.(v) = (H.(pMax) + 1)%nat
  /\ (forall p, 0 <= idx b.(v) p)
  /\ idx b.(v) 1 = idx b.(v) 0 / 4
  /\ idx b.(v) 2 = 4 * idx b.(v) 0
  /\ (forall p, (2 <= p <= H.(pMax))%nat -> idx b.(v) p = idx b.(v) 2)
  /\ 0 <= b.(s)
  /\ length b.(sin2kAlpha) = H.(pMax)
  /\ length b.(cos2kAlpha) = H.(pMax).
Proof.
  unfold HairBxDF_new. cbv zeta.
  set (v0 := Sqr (0.726 * beta_m + 0.812 * Sqr beta_m + 3.7 * beta_m ^ 20)).
  assert (Hv0 : 0 <= v0) by apply DielectricDensityFacts.Sqr_nonneg.
  clearbody v0.
  set (poly := 0.265 * beta_n + 1.194 * Sqr beta_n + 5.372 * beta_n ^ 22).
  pose proof (tilt_terms_length (H.(pMax) - 1) (sin (Radians alpha))
                (H.(SafeSqrt) (1 - Sqr (sin (Radians alpha))))) as [Hls Hlc].
  destruct (tilt_terms _ _ _) as [sins coss]. cbn [fst snd] in Hls, Hlc.
  destruct (leb_spec (-1) h), (leb_spec h 1), (leb_spec 0 beta_m),
    (leb_spec beta_m 1), (leb_spec 0 beta_n), (leb_spec beta_n 1);
    cbn [andb negb]; intros E; try discriminate E.
  injection E as <-. cbv [v s sin2kAlpha cos2kAlpha].
  repeat apply conj.
  - cbn [length app]. rewrite repeat_length. lia.
  - intros p. unfold idx.
    destruct p as [|[|[|p]]]; cbn [nth app]; try lra.
    destruct (nth_in_or_default p (repeat (4 * v0) (H.(pMax) - 2)) 0) as [Hin | ->];
      [|lra].
    apply repeat_spec in Hin. rewrite Hin. lra.
  - unfold idx. cbn [nth app]. lra.
  - reflexivity.
  - intros p [Hp2 Hp]. unfold idx.
    destruct p as [|[|[|p]]]; try lia; cbn [nth app]; [reflexivity|].
    rewrite nth_repeat_lt by lia. reflexivity.
  - apply Rmult_le_pos; [lra|]. subst poly.
    assert (0 <= beta_n ^ 22) by (apply pow_le; assumption).
    unfold Sqr. nra.
  - rewrite length_rev, Hls. lia.
  - rewrite length_rev, Hlc. lia.
Qed.

Lemma HairBxDF_new_Done h eta sigma_a beta_m beta_n alpha :
  -1 <= h <= 1 -> 0 <= beta_m <= 1 -> 0 <= beta_n <= 1 ->
  exists b, HairBxDF_new H h eta sigma_a beta_m beta_n alpha = Done b.
Proof.
  intros Hh Hm Hn. unfold HairBxDF_new. cbv zeta.
  destruct (tilt_terms _ _ _) as [sins coss].
  destruct (leb_spec (-1) h), (leb_spec h 1), (leb_spec 0 beta_m),
    (leb_spec beta_m 1), (leb_spec 0 beta_n), (leb_spec beta_n 1);
    cbn [andb negb]; try lra.
  eexists. reflexivity.
Qed.

(** The clamped square root, as far as the constructor relies on it. *)
Hypothesis SafeSqrt_square : forall r, 0 <= r -> H.(SafeSqrt) (r * r) = r.

Lemma tilt_tables_of_new h eta sigma_a beta_m beta_n alpha b :
  0 <= cos (Radians alpha) ->
  HairBxDF_new H h eta sigma_a beta_m beta_n alpha = Done b ->
  forall k, (k < H.(pMax))%nat ->
    idx b.(sin2kAlpha) k = sin (2 ^ k * Radians alpha)
    /\ idx b.(cos2kAlpha) k = cos (2 ^ k * Radians alpha).
Proof.
  intros Hcos. unfold HairBxDF_new. cbv zeta.
  set (a := Radians alpha) in *.
  replace (1 - Sqr (sin a)) with (cos a * cos a)
    by (pose proof (sin2_cos2 a) as E; unfold Rsqr in E; unfold Sqr; lra).
  rewrite SafeSqrt_square by exact Hcos.
  pose proof (tilt_terms_length (H.(pMax) - 1) (sin a) (cos a)) as [Hls Hlc].
  pose proof (tilt_terms_angles a (H.(pMax) - 1)) as Hang.
  destruct (tilt_terms _ _ _) as [sins coss]. cbn [fst snd] in *.
  destruct (negb _); [discriminate|]. destruct (negb _); [discriminate|].
  destruct (negb _); [discriminate|].
  intros E k Hk. injection E as <-. cbv [sin2kAlpha cos2kAlpha]. unfold idx.
  rewrite !rev_nth by lia. rewrite Hls, Hlc.
  replace (S (H.(pMax) - 1) - S k)%nat with (H.(pMax) - 1 - k)%nat by lia.
  apply Hang. lia.
Qed.

(** For a tilt [alpha] of at most a right angle either way, entry [k] of
    the tables the constructor fills holds the sine and the cosine of
    [2^k] times the tilt. *)
Theorem HairBxDF_new_tilt h eta sigma_a beta_m beta_n alpha b :
  0 <= cos (Radians alpha) ->
  HairBxDF_new H h eta sigma_a beta_m beta_n alpha = Done b ->
  forall k, (k < H.(pMax))%nat ->
    idx b.(sin2kAlpha) k = sin (2 ^ k * Radians alpha)
    /\ idx b.(cos2kAlpha) k = cos (2 ^ k * Radians alpha).
Proof.
  intros Hcos Hb k Hk. exact (tilt_tables_of_new _ _ _ _ _ _ _ Hcos Hb k Hk).
Qed.

(** The angles of the scales, for [sinTheta_o] and [cosTheta_o] the sine and
    the cosine of an angle [t]: lobe 0 sees the fiber under [t - 2 alpha],
    lobe 1 under [t + alpha], lobe 2 under [t + 4 alpha], and the later
    lobes under [t]. *)
Theorem scale_tilt_angles h eta sigma_a beta_m beta_n alpha b (t : Float) p :
  0 <= cos (Radians alpha) ->
  HairBxDF_new H h eta sigma_a beta_m beta_n alpha = Done b ->
  scale_tilt b p (sin t) (cos t)
  = match p with
    | 0%nat => (sin (t - 2 * Radians alpha), cos (t - 2 * Radians alpha))
    | 1%nat => (sin (t + Radians alpha), cos (t + Radians alpha))
    | 2%nat => (sin (t + 4 * Radians alpha), cos (t + 4 * Radians alpha))
    | _ => (sin t, cos t)
    end.
Proof.
  intros Hcos Hb.
  pose proof (tilt_tables_of_new _ _ _ _ _ _ _ Hcos Hb) as Htab.
  destruct (Htab 0%nat ltac:(lia)) as [Hs0 Hc0].
  destruct (Htab 1%nat ltac:(lia)) as [Hs1 Hc1].
  destruct (Htab 2%nat ltac:(lia)) as [Hs2 Hc2].
  cbn [pow] in Hs0, Hc0, Hs1, Hc1, Hs2, Hc2.
  replace (1 * Radians alpha) with (Radians alpha) in * by ring.
  replace (2 * 1 * Radians alpha) with (2 * Radians alpha) in * by ring.
  replace (2 * (2 * 1) * Radians alpha) with (4 * Radians alpha) in * by ring.
  destruct p as [|[|[|p]]]; cbn [scale_tilt]; [| | |reflexivity].
  - rewrite Hs1, Hc1, sin_minus, cos_minus. f_equal; ring.
  - rewrite Hs0, Hc0, sin_plus, cos_plus. f_equal; ring.
  - rewrite Hs2, Hc2, sin_plus, cos_plus. f_equal; ring.
Qed.

End Construction.

Import Instances.

Lemma example_tilt : 0 <= cos (Radians 2).
Proof.
  pose proof PI_RGT_0. left. apply cos_gt_0; unfold Radians, Pi; lra.
Qed.

Lemma example_fiber :
  exists b, HairBxDF_new (helpers flat_lobe no_phase) (1 / 2) (3 / 2) [0]
                         (1 / 2) (1 / 2) 2 = Done b.
Proof. apply HairBxDF_new_Done; lra. Qed.

Lemma example_pMax : (3 <= (helpers flat_lobe no_phase).(pMax))%nat.
Proof. cbn. lia. Qed.

Lemma HairBxDF_new_tables_witness :
  exists b,
    HairBxDF_new (helpers flat_lobe no_phase) (1 / 2) (3 / 2) [0]
                 (1 / 2) (1 / 2) 2 = Done b
    /\ length b.(v) = 4%nat /\ idx b.(v) 2 = 4 * idx b.(v) 0.
Proof.
  destruct example_fiber as [b Hb]. exists b. split; [exact Hb|].
  destruct (HairBxDF_new_tables (helpers flat_lobe no_phase) example_pMax
              _ _ _ _ _ _ b Hb) as (Hlen & _ & _ & H2 & _).
  split; [exact Hlen|exact H2].
Defined.

Lemma HairBxDF_new_tilt_witness :
  exists b,
    HairBxDF_new (helpers flat_lobe no_phase) (1 / 2) (3 / 2) [0]
                 (1 / 2) (1 / 2) 2 = Done b
    /\ idx b.(sin2kAlpha) 2 = sin (2 ^ 2 * Radians 2).
Proof.
  destruct example_fiber as [b Hb]. exists b. split; [exact Hb|].
  refine (proj1 (HairBxDF_new_tilt (helpers flat_lobe no_phase) example_pMax
                   MorphoFacts.SafeSqrt_square _ _ _ _ _ _ b example_tilt Hb
                   2%nat _)).
  cbn. lia.
Defined.

Lemma scale_tilt_angles_witness :
  exists b,
    HairBxDF_new (helpers flat_lobe no_phase) (1 / 2) (3 / 2) [0]
                 (1 / 2) (1 / 2) 2 = Done b
    /\ scale_tilt b 0 (sin 0) (cos 0)
       = (sin (0 - 2 * Radians 2), cos (0 - 2 * Radians 2)).
Proof.
  destruct example_fiber as [b Hb]. exists b. split; [exact Hb|].
  exact (scale_tilt_angles (helpers flat_lobe no_phase) example_pMax
           MorphoFacts.SafeSqrt_square _ _ _ _ _ _ b 0 0%nat example_tilt Hb).
Defined.

End HairConstructionFacts.

(** ** Absorption from reflectance *)

Module HairAbsorptionFacts.
Import Hair.

(** The polynomial in the azimuthal roughness that
    [SigmaAFromReflectance] divides by is positive on [[0, 1]]. *)
Lemma roughness_polynomial_pos (b : Float) :
  0 <= b <= 1 ->
  0 < 5.969 - 0.215 * b + 2.532 * Sqr b - 10.73 * b ^ 3 + 5.574 * b ^ 4
      + 0.245 * b ^ 5.
Proof.
  intros Hb. unfold Sqr. cbn [pow].
  assert (H2 : 0 <= b * b <= 1) by nra.
  assert (Hq : - 2.64 <= 2.532 - 10.73 * b + 5.574 * (b * b)).
  { pose proof (Rle_0_sqr (b - 0.9625)) as Hs. unfold Rsqr in Hs. nra. }
  assert (H5 : 0 <= b * (b * (b * (b * (b * 1))))).
  { repeat apply Rmult_le_pos; lra. }
  assert (Hm : - 2.64 * (b * b) <= (2.532 - 10.73 * b + 5.574 * (b * b)) * (b * b)).
  { apply Rmult_le_compat_r; lra. }
  nra.
Qed.

(** For a roughness in [[0, 1]] and a positive reflectance, the absorption
    coefficient computed from the reflectance is never negative, and it is 0
    exactly for the reflectance 1. *)
Theorem SigmaAFromReflectance_sign (H : Helpers) c beta_n i :
  0 <= beta_n <= 1 -> (i < H.(NSpectrumSamples))%nat -> 0 < idx c i ->
  length (SigmaAFromReflectance H c beta_n) = H.(NSpectrumSamples)
  /\ 0 <= idx (SigmaAFromReflectance H c beta_n) i
  /\ (idx (SigmaAFromReflectance H c beta_n) i = 0 <-> idx c i = 1).
Proof.
  intros Hb Hi Hc. unfold SigmaAFromReflectance.
  pose proof (roughness_polynomial_pos beta_n Hb) as Hp.
  set (poly := 5.969 - 0.215 * beta_n + 2.532 * Sqr beta_n - 10.73 * beta_n ^ 3
               + 5.574 * beta_n ^ 4 + 0.245 * beta_n ^ 5) in *.
  clearbody poly.
  split; [rewrite length_map, length_seq; reflexivity|].
  rewrite (HairFacts.idx_map_seq (fun i => Sqr (ln (idx c i) / poly))) by exact Hi.
  split; [apply DielectricDensityFacts.Sqr_nonneg|]. split.
  - intros E. unfold Sqr in E. apply Rmult_integral in E.
    assert (El : ln (idx c i) / poly = 0) by tauto.
    assert (E0 : ln (idx c i) = 0).
    { replace (ln (idx c i)) with (ln (idx c i) / poly * poly) by (field; lra).
      rewrite El. ring. }
    apply ln_inv; [exact Hc|lra|]. rewrite ln_1. exact E0.
  - intros ->. rewrite ln_1. unfold Sqr, Rdiv. ring.
Qed.

Lemma SigmaAFromReflectance_sign_witness :
  idx (SigmaAFromReflectance (Instances.helpers Instances.flat_lobe
                                                Instances.no_phase)
                             [1] (1 / 2)) 0 = 0.
Proof.
  apply (SigmaAFromReflectance_sign
           (Instances.helpers Instances.flat_lobe Instances.no_phase)
           [1] (1 / 2) 0%nat).
  - lra.
  - cbn. lia.
  - cbn. lra.
  - reflexivity.
Defined.

End HairAbsorptionFacts.

(** ** The indices of the table lookups *)

Module MorphoTableFacts.
Import Hair Morpho.

Lemma atan2_right_half (yv xv : Float) :
  0 <= xv -> - (PI / 2) <= atan2 yv xv <= PI / 2.
Proof.
  intros Hx. pose proof PI_RGT_0 as HPI. unfold atan2.
  destruct (ltb_spec 0 xv).
  - pose proof (atan_bound (yv / xv)). lra.
  - destruct (ltb_spec xv 0); [lra|].
    destruct (ltb_spec 0 yv); [lra|]. destruct (ltb_spec yv 0); lra.
Qed.

Lemma up_half_range (r : Float) (n : Z) :
  0 <= r <= IZR n -> (0 <= up (r + / 2) - 1 <= n)%Z.
Proof.
  intros [Hlo Hhi]. destruct (archimed (r + / 2)) as [Hgt Hle]. split.
  - assert (H0 : IZR 0 < IZR (up (r + / 2))) by lra.
    apply lt_IZR in H0. lia.
  - assert (H1 : IZR (up (r + / 2)) < IZR (n + 2)).
    { rewrite plus_IZR. lra. }
    apply lt_IZR in H1. lia.
Qed.

Lemma round_range (r : Float) (n : Z) :
  - IZR n <= r <= IZR n -> (0 <= Z.abs (round r) <= n)%Z.
Proof.
  intros [Hlo Hhi]. unfold round. destruct (leb_spec 0 r).
  - pose proof (up_half_range r n (conj r0 Hhi)). lia.
  - assert (Hr : 0 <= - r <= IZR n) by lra.
    pose proof (up_half_range (- r) n Hr). lia.
Qed.

Lemma angle_index_range (yv xv : Float) :
  0 <= xv -> (0 <= Z.abs (round (atan2 yv xv * 180 / Pi)) <= 90)%Z.
Proof.
  intros Hx. apply round_range. pose proof PI_RGT_0 as HPI.
  pose proof (atan2_right_half yv xv Hx) as [Hlo Hhi]. unfold Pi.
  split.
  - apply Rmult_le_reg_r with PI; [exact HPI|].
    replace (atan2 yv xv * 180 / PI * PI) with (atan2 yv xv * 180) by (field; lra).
    lra.
  - apply Rmult_le_reg_r with PI; [exact HPI|].
    replace (atan2 yv xv * 180 / PI * PI) with (atan2 yv xv * 180) by (field; lra).
    lra.
Qed.

Section Tables.

Variable H : Helpers.
Variable bxdf : HairBxDF.

(** [f] and [Pdf] of the table-driven variant read the table only at angle
    indices from 0 to 90: two tables that agree there give the same
    results, whatever the directions. *)
Theorem table_read_within_quarter_turn
  (T1 T2 : Z -> Z -> nat -> Float) wo wi mode sampleFlags :
  (forall r, 0 <= H.(SafeSqrt) r) ->
  (forall it ot i, (0 <= it <= 90)%Z -> (0 <= ot <= 90)%Z ->
                   T1 it ot i = T2 it ot i) ->
  Morpho.f H T1 bxdf wo wi mode = Morpho.f H T2 bxdf wo wi mode
  /\ Morpho.Pdf H T1 bxdf wo wi mode sampleFlags
     = Morpho.Pdf H T2 bxdf wo wi mode sampleFlags.
Proof.
  intros Hsqrt Hagree. split.
  - unfold Morpho.f. cbv zeta. f_equal. apply List.map_ext. intros i.
    rewrite Hagree; [reflexivity| |]; apply angle_index_range, sqrt_pos.
  - unfold Morpho.Pdf, LookupBRDFTable, RadiansToDegrees. cbv zeta. f_equal.
    apply MorphoFacts.fold_left_ext. intros a p. do 4 f_equal.
    apply List.map_ext. intros i.
    rewrite Hagree; [reflexivity| |]; apply angle_index_range, Hsqrt.
Qed.

End Tables.

Lemma table_read_within_quarter_turn_witness :
  Morpho.f (Instances.helpers Instances.flat_lobe Instances.no_phase)
    Instances.flat_table Instances.fiber
    (mkVector3f 0 1 0) (mkVector3f 0 1 0) Radiance
  = Morpho.f (Instances.helpers Instances.flat_lobe Instances.no_phase)
      (fun it ot i => if (it <=? 90)%Z then 2.5 else 0) Instances.fiber
      (mkVector3f 0 1 0) (mkVector3f 0 1 0) Radiance.
Proof.
  apply (table_read_within_quarter_turn
           (Instances.helpers Instances.flat_lobe Instances.no_phase)
           Instances.fiber Instances.flat_table
           (fun it ot i => if (it <=? 90)%Z then 2.5 else 0)
           (mkVector3f 0 1 0) (mkVector3f 0 1 0) Radiance
           BxDFReflTransFlags.All).
  - intros r. cbn. unfold Instances.SafeSqrt. apply sqrt_pos.
  - intros it ot i Hit _. unfold Instances.flat_table.
    destruct (Z.leb_spec it 90); [reflexivity|lia].
Defined.

End MorphoTableFacts.

(** ** The measured model seen from both sides *)

Module MeasuredBxDFFacts.
Import MeasuredBxDF.

Lemma SameHemisphere_vneg wo wi :
  SameHemisphere (vneg wo) (vneg wi) = SameHemisphere wo wi.
Proof.
  unfold SameHemisphere, vneg. cbn [x y z].
  replace (- wo.(z) * - wi.(z)) with (wo.(z) * wi.(z)) by ring. reflexivity.
Qed.

Lemma vneg_z w : (vneg w).(z) = - w.(z).
Proof. reflexivity. Qed.

(** The pair of directions [f] and [PDF] go on with, once they have turned
    a pair of the lower hemisphere upside down. *)
Lemma upper_pair_vneg wo wi :
  wo.(z) <> 0 ->
  (if (vneg wo).(z) <? 0 then (vneg (vneg wo), vneg (vneg wi))
   else (vneg wo, vneg wi))
  = (if wo.(z) <? 0 then (vneg wo, vneg wi) else (wo, wi)).
Proof.
  intros Hz. unfold vneg at 1. cbn [z].
  destruct (ltb_spec (- wo.(z)) 0), (ltb_spec wo.(z) 0); try lra.
  - rewrite !DielectricDensityFacts.vneg_vneg. reflexivity.
  - reflexivity.
Qed.

Section TwoSided.

Variable brdf : Env.

(** The measured model is two-sided: turning both directions upside down
    changes neither the value nor the density. *)
Theorem f_and_PDF_two_sided wo wi mode sampleFlags :
  f brdf (vneg wo) (vneg wi) mode = f brdf wo wi mode
  /\ PDF brdf (vneg wo) (vneg wi) mode sampleFlags
     = PDF brdf wo wi mode sampleFlags.
Proof.
  unfold f, PDF. rewrite SameHemisphere_vneg.
  destruct (Req_dec wo.(z) 0) as [Hz|Hz].
  - assert (Hs : SameHemisphere wo wi = false).
    { unfold SameHemisphere. rewrite Hz.
      destruct (ltb_spec 0 (0 * wi.(z))); [lra|reflexivity]. }
    rewrite Hs. cbn [negb].
    destruct (negb (BxDFReflTransFlags.has _ _)); split; reflexivity.
  - rewrite (upper_pair_vneg wo wi Hz). split; reflexivity.
Qed.

(** A sample of the measured model is a glossy reflection with relative
    index 1, returned only under a filter with [Reflection], and its
    direction is on the side of [wo]: above the surface for [wo] above,
    below it otherwise. *)
Theorem Sample_f_reflects wo uc u mode sampleFlags bs :
  Sample_f brdf wo uc u mode sampleFlags = Some bs ->
  BxDFReflTransFlags.has sampleFlags BxDFReflTransFlags.Reflection = true
  /\ bs.(BSDFSample.flags) = BxDFFlags.GlossyReflection
  /\ bs.(BSDFSample.eta) = 1
  /\ (0 < wo.(z) -> 0 < bs.(BSDFSample.wi).(z))
  /\ (wo.(z) <= 0 -> bs.(BSDFSample.wi).(z) < 0).
Proof.
  unfold Sample_f.
  destruct (BxDFReflTransFlags.has sampleFlags BxDFReflTransFlags.Reflection);
    cbn [negb]; [|discriminate].
  destruct (leb_spec wo.(z) 0) as [Hlo|Hup]; cbv zeta;
    match goal with
    | |- (if ?c <=? 0 then _ else _) = _ -> _ =>
        destruct (leb_spec c 0) as [|Hwi]; [discriminate|]
    end;
    intros E; injection E as <-;
    cbn [BSDFSample.flags BSDFSample.eta BSDFSample.wi];
    repeat split; try reflexivity; try (intros; lra).
  - intros _. rewrite vneg_z. apply Ropp_lt_gt_0_contravar, Rnot_le_lt, Hwi.
Qed.

(** Sampling is two-sided as well: for [wo] above the surface, the sample
    for the mirrored direction is the mirrored sample. *)
Theorem Sample_f_two_sided wo uc u mode sampleFlags :
  0 < wo.(z) ->
  Sample_f brdf (vneg wo) uc u mode sampleFlags
  = option_map
      (fun bs => BSDFSample.mk bs.(BSDFSample.f) (vneg bs.(BSDFSample.wi))
                               bs.(BSDFSample.pdf) bs.(BSDFSample.flags)
                               bs.(BSDFSample.eta))
      (Sample_f brdf wo uc u mode sampleFlags).
Proof.
  intros Hz. unfold Sample_f.
  destruct (negb (BxDFReflTransFlags.has _ _)); [reflexivity|].
  unfold vneg at 1. cbn [z].
  destruct (leb_spec (- wo.(z)) 0); [|lra].
  destruct (leb_spec wo.(z) 0); [lra|].
  rewrite DielectricDensityFacts.vneg_vneg. cbv zeta.
  destruct (_ <=? 0); reflexivity.
Qed.

(** With interpolants of the microfacet distribution and of the projected
    area that are not negative, no entry of [f] is negative. *)
Theorem f_not_negative wo wi mode :
  (forall u, 0 <= brdf.(ndf_Evaluate) u) ->
  (forall u, 0 <= brdf.(sigma_Evaluate) u) ->
  Forall (fun v => 0 <= v) (f brdf wo wi mode).
Proof.
  intros Hn Hs. unfold f.
  destruct (SameHemisphere wo wi) eqn:Hsame; cbn [negb];
    [|apply DielectricDensityFacts.Forall_const; lra].
  unfold SameHemisphere in Hsame.
  destruct (ltb_spec 0 (wo.(z) * wi.(z))) as [Hp|]; [|discriminate].
  assert (Hup : 0 < (snd (if wo.(z) <? 0 then (vneg wo, vneg wi)
                          else (wo, wi))).(z)).
  { destruct (ltb_spec wo.(z) 0); cbn [snd]; unfold vneg; cbn [z]; nra. }
  destruct (if wo.(z) <? 0 then (vneg wo, vneg wi) else (wo, wi)) as [wo' wi'].
  cbn [snd] in Hup. cbv zeta.
  destruct (_ =? 0); [apply DielectricDensityFacts.Forall_const; lra|].
  unfold SampledSpectrum.div, SampledSpectrum.scale, SampledSpectrum.map,
    spectrum_at.
  rewrite !List.map_map. apply List.Forall_forall. intros v Hv.
  apply List.in_map_iff in Hv as (i & <- & _).
  apply DielectricDensityFacts.div_nonneg.
  - apply Rmult_le_pos; [apply Rmax_l|apply Hn].
  - unfold CosTheta. apply Rmult_le_pos; [|lra].
    apply Rmult_le_pos; [lra|apply Hs].
Qed.

End TwoSided.

Import Instances.

Lemma flat_measurement_sample uc u :
  exists bs,
    Sample_f flat_measurement (mkVector3f 0 0 1) uc u Radiance
             BxDFReflTransFlags.All = Some bs.
Proof.
  unfold Sample_f.
  change (BxDFReflTransFlags.has BxDFReflTransFlags.All
            BxDFReflTransFlags.Reflection) with true.
  cbn [negb z].
  destruct (leb_spec 1 0); [lra|]. cbv zeta.
  cbn [flat_measurement u2theta u2phi SphericalDirection isotropic vndf_Sample
       luminance_Sample p pdf fst snd].
  rewrite sin_0, cos_0. unfold Reflect, Dot, vadd, vneg, vscale. cbn [x y z].
  match goal with
  | |- context [if ?c <=? 0 then _ else _] =>
      destruct (leb_spec c 0); [lra|]
  end.
  eexists. reflexivity.
Qed.

Lemma Sample_f_reflects_witness :
  exists bs,
    Sample_f flat_measurement (mkVector3f 0 0 1) (1 / 2) (0, 0) Radiance
             BxDFReflTransFlags.All = Some bs
    /\ bs.(BSDFSample.flags) = BxDFFlags.GlossyReflection
    /\ 0 < bs.(BSDFSample.wi).(z).
Proof.
  destruct (flat_measurement_sample (1 / 2) (0, 0)) as [bs E].
  exists bs. split; [exact E|].
  destruct (Sample_f_reflects flat_measurement _ _ _ _ _ bs E)
    as (_ & Hfl & _ & Hup & _).
  split; [exact Hfl|]. apply Hup. cbn. lra.
Defined.

Lemma Sample_f_two_sided_witness :
  Sample_f flat_measurement (vneg (mkVector3f 0 0 1)) (1 / 2) (0, 0) Radiance
           BxDFReflTransFlags.All
  = option_map
      (fun bs => BSDFSample.mk bs.(BSDFSample.f) (vneg bs.(BSDFSample.wi))
                               bs.(BSDFSample.pdf) bs.(BSDFSample.flags)
                               bs.(BSDFSample.eta))
      (Sample_f flat_measurement (mkVector3f 0 0 1) (1 / 2) (0, 0) Radiance
                BxDFReflTransFlags.All).
Proof.
  apply (Sample_f_two_sided flat_measurement (mkVector3f 0 0 1)). cbn. lra.
Defined.

Lemma f_not_negative_witness :
  Forall (fun v => 0 <= v)
    (f flat_measurement (mkVector3f 0 0 1) (mkVector3f 0 0 1) Radiance).
Proof.
  apply (f_not_negative flat_measurement); intros; cbn; lra.
Defined.

End MeasuredBxDFFacts.

(** ** Printing flags *)

Local Close Scope R_scope.

Module PrintingFacts.
Import Printing.

Lemma printed_alike_check :
  forallb
    (fun a =>
       forallb
         (fun b =>
            implb (String.eqb (ToString_BxDFFlags a) (ToString_BxDFFlags b)
                   || (if Z.ltb a 4 then
                         if Z.ltb b 4 then
                           String.eqb (ToString_ReflTrans a) (ToString_ReflTrans b)
                         else false
                       else false))
                  (Z.eqb a b))
         (seqZ 0 32))
    (seqZ 0 32) = true.
Proof. vm_compute. reflexivity. Qed.

(** Two sets of the five flag bits are printed alike only if they are the
    same set, and so are two sets of the two bits of a sample filter; the
    empty set alone is printed as "Unset". *)
Theorem ToString_flags_injective (a b : Z) :
  (0 <= a < 32 -> 0 <= b < 32 ->
   ToString_BxDFFlags a = ToString_BxDFFlags b -> a = b)
  /\ (0 <= a < 4 -> 0 <= b < 4 ->
      ToString_ReflTrans a = ToString_ReflTrans b -> a = b)
  /\ (ToString_BxDFFlags a = "Unset"%string <-> a = 0)
  /\ (ToString_ReflTrans a = "Unset"%string <-> a = 0).
Proof.
  assert (Hall : forall a b, 0 <= a < 32 -> 0 <= b < 32 ->
            implb (String.eqb (ToString_BxDFFlags a) (ToString_BxDFFlags b)
                   || (if Z.ltb a 4 then
                         if Z.ltb b 4 then
                           String.eqb (ToString_ReflTrans a) (ToString_ReflTrans b)
                         else false
                       else false))
                  (Z.eqb a b) = true).
  { intros a' b' Ha Hb. pose proof printed_alike_check as Hc.
    rewrite forallb_forall in Hc.
    assert (Ina : In a' (seqZ 0 32)) by (apply list_elem_of_In, elem_of_seqZ; lia).
    specialize (Hc a' Ina). cbv beta in Hc. rewrite forallb_forall in Hc.
    apply Hc. apply list_elem_of_In, elem_of_seqZ. lia. }
  repeat apply conj.
  - intros Ha Hb E. specialize (Hall a b Ha Hb).
    rewrite E, String.eqb_refl in Hall. cbn [orb implb] in Hall.
    apply Z.eqb_eq, Hall.
  - intros Ha Hb E. specialize (Hall a b ltac:(lia) ltac:(lia)).
    destruct (Z.ltb_spec a 4); [|lia]. destruct (Z.ltb_spec b 4); [|lia].
    rewrite E, String.eqb_refl, orb_true_r in Hall. cbn [implb] in Hall.
    apply Z.eqb_eq, Hall.
  - unfold ToString_BxDFFlags.
    destruct (Z.eqb_spec a BxDFFlags.Unset) as [->|_]; [intros _; reflexivity|].
    cbv zeta. unfold add_if.
    repeat match goal with
           | |- context [if ?c then _ else _] => destruct c
           end; cbn; discriminate.
  - intros ->. reflexivity.
  - unfold ToString_ReflTrans.
    destruct (Z.eqb_spec a BxDFReflTransFlags.Unset) as [->|_]; [intros _; reflexivity|].
    cbv zeta. unfold add_if.
    repeat match goal with
           | |- context [if ?c then _ else _] => destruct c
           end; cbn; discriminate.
  - intros ->. reflexivity.
Qed.

End PrintingFacts.

(** ** The empty sample filter *)

Local Open Scope R_scope.

Module EmptyFilterFacts.

(** Under the empty filter the dielectric and the measured model return no
    sample, and their densities are 0, whatever the directions and the
    random numbers. *)
Theorem nothing_under_the_empty_filter
  NSpectrumSamples FrDielectric Refract bxdf brdf wo wi uc u mode :
  Dielectric.Sample_f NSpectrumSamples FrDielectric Refract bxdf wo uc u mode
    BxDFReflTransFlags.Unset = None
  /\ Dielectric.PDF FrDielectric bxdf wo wi mode BxDFReflTransFlags.Unset = 0
  /\ MeasuredBxDF.Sample_f brdf wo uc u mode BxDFReflTransFlags.Unset = None
  /\ MeasuredBxDF.PDF brdf wo wi mode BxDFReflTransFlags.Unset = 0.
Proof.
  repeat apply conj.
  - unfold Dielectric.Sample_f.
    change (BxDFReflTransFlags.has BxDFReflTransFlags.Unset
              BxDFReflTransFlags.Reflection) with false.
    change (BxDFReflTransFlags.has BxDFReflTransFlags.Unset
              BxDFReflTransFlags.Transmission) with false.
    cbn [negb]. cbv zeta. rewrite !eqb_refl. cbn [andb].
    destruct (_ || _); reflexivity.
  - unfold Dielectric.PDF.
    change (BxDFReflTransFlags.has BxDFReflTransFlags.Unset
              BxDFReflTransFlags.Reflection) with false.
    change (BxDFReflTransFlags.has BxDFReflTransFlags.Unset
              BxDFReflTransFlags.Transmission) with false.
    cbn [negb]. cbv zeta. rewrite !eqb_refl. cbn [andb].
    repeat match goal with
           | |- context [if ?c then _ else _] => destruct c
           end; reflexivity.
  - reflexivity.
  - reflexivity.
Qed.

End EmptyFilterFacts.

(** ** The direction the hair model samples *)

Module HairDirectionFacts.
Import Hair.

(** The inequality of Cauchy and Schwarz, for a point of the unit circle
    and a second one pulled towards an axis by a factor [q]. *)
Lemma tilted_sine_bound (a b q sp cp : Float) :
  a * a + b * b = 1 -> sp * sp + cp * cp = 1 -> -1 <= q <= 1 ->
  (- a * sp + b * q * Rabs cp) * (- a * sp + b * q * Rabs cp) <= 1.
Proof.
  intros Hab Hsc Hq.
  assert (Hy : Rabs cp * Rabs cp = cp * cp).
  { unfold Rabs. destruct (Rcase_abs cp); ring. }
  set (y := Rabs cp) in *. clearbody y.
  pose proof (Rle_0_sqr (a * y + b * q * sp)) as H1. unfold Rsqr in H1.
  assert (H2 : 0 <= (b * b) * (1 - q * q)).
  { apply Rmult_le_pos; nra. }
  nra.
Qed.

Lemma ln_monotone (r s : Float) : 0 < r -> r <= s -> ln r <= ln s.
Proof.
  intros Hr [Hlt | ->]; [left; apply ln_increasing; assumption | right; reflexivity].
Qed.

Section Direction.

Variable H : Helpers.
Variable bxdf : HairBxDF.

Hypothesis SafeSqrt_sqr : forall r, 0 <= r -> Sqr (H.(SafeSqrt) r) = r.
Hypothesis FastExp_exp : forall r, H.(FastExp) r = exp r.
Hypothesis SampleDiscrete_range : forall weights uc,
  (0 < length weights)%nat ->
  (fst (H.(SampleDiscrete) weights uc) < length weights)%nat.
Hypothesis v_pos : forall p, (p <= H.(pMax))%nat -> 0 < idx bxdf.(v) p.
Hypothesis tilt_unit : forall k, (k < 3)%nat ->
  Sqr (idx bxdf.(sin2kAlpha) k) + Sqr (idx bxdf.(cos2kAlpha) k) = 1.

Lemma scale_tilt_unit p (so co : Float) :
  so * so + co * co = 1 ->
  let '(sp, cp) := scale_tilt bxdf p so co in sp * sp + cp * cp = 1.
Proof.
  intros Hu.
  pose proof (tilt_unit 0 ltac:(lia)) as H0.
  pose proof (tilt_unit 1 ltac:(lia)) as H1.
  pose proof (tilt_unit 2 ltac:(lia)) as H2. unfold Sqr in H0, H1, H2.
  destruct p as [|[|[|p]]]; cbn [scale_tilt]; [nra|nra|nra|exact Hu].
Qed.

(** The cosine that [Sample_f] draws for the longitudinal lobe. *)
Lemma sampled_cosine_range (vp u0 : Float) :
  0 < vp -> 1e-5 <= u0 <= 1 ->
  -1 <= 1 + vp * ln (Rmax u0 1e-5 + (1 - u0) * H.(FastExp) (- 2 / vp)) <= 1.
Proof.
  intros Hv Hu. rewrite FastExp_exp, Rmax_left by lra.
  set (E := exp (- 2 / vp)).
  assert (HE0 : 0 < E) by apply exp_pos.
  assert (HE1 : E < 1).
  { rewrite <- exp_0. apply exp_increasing.
    apply Rmult_lt_reg_r with vp; [exact Hv|].
    replace (- 2 / vp * vp) with (- 2) by (field; lra). lra. }
  assert (HA : E <= u0 + (1 - u0) * E <= 1) by nra.
  assert (Hlo : ln E <= ln (u0 + (1 - u0) * E)) by (apply ln_monotone; lra).
  assert (Hhi : ln (u0 + (1 - u0) * E) <= ln 1) by (apply ln_monotone; lra).
  rewrite ln_1 in Hhi. unfold E in Hlo at 1. rewrite ln_exp in Hlo.
  assert (Hm : vp * (- 2 / vp) <= vp * ln (u0 + (1 - u0) * E))
    by (apply Rmult_le_compat_l; lra).
  replace (vp * (- 2 / vp)) with (- 2) in Hm by (field; lra).
  assert (Hn : vp * ln (u0 + (1 - u0) * E) <= 0) by nra.
  lra.
Qed.

(** When the clamped square root and [FastExp] are exact, [SampleDiscrete]
    returns an index of its weights, the variances of the [pMax + 1] lobes
    are positive and the tilt tables hold points of the unit circle: for
    [wo] with [|wo.x| <= 1] and a first random number in [[1e-5, 1]],
    [Sample_f] returns a direction of length 1. *)
Theorem Sample_f_unit_direction wo uc u mode sampleFlags :
  -1 <= wo.(x) <= 1 -> 1e-5 <= fst u <= 1 ->
  exists bs,
    Sample_f H bxdf wo uc u mode sampleFlags = Some bs
    /\ LengthSquared bs.(BSDFSample.wi) = 1.
Proof.
  intros Hwo Hu. unfold Sample_f, sample_wi. cbv zeta.
  match goal with
  | |- context [H.(SampleDiscrete) ?l uc] =>
      pose proof (SampleDiscrete_range l uc) as Hp;
      unfold ApPDF in Hp; rewrite length_map, length_seq in Hp;
      specialize (Hp ltac:(lia))
  end.
  destruct (H.(SampleDiscrete) _ uc) as [p uc']. cbn [fst] in Hp.
  assert (Hvp : 0 < idx bxdf.(v) p) by (apply v_pos; lia).
  set (so := wo.(x)) in *.
  set (co := H.(SafeSqrt) (1 - Sqr so)).
  assert (Hco : so * so + co * co = 1).
  { assert (Hc : Sqr co = 1 - Sqr so)
      by (apply SafeSqrt_sqr; unfold Sqr; nra).
    unfold Sqr in Hc. lra. }
  pose proof (scale_tilt_unit p so co Hco) as Hsc.
  destruct (scale_tilt bxdf p so co) as [sp cp].
  pose proof (sampled_cosine_range (idx bxdf.(v) p) (fst u) Hvp Hu) as Hc.
  set (a := 1 + idx bxdf.(v) p
                * ln (Rmax (fst u) 1e-5
                      + (1 - fst u) * H.(FastExp) (- 2 / idx bxdf.(v) p))) in *.
  set (b := H.(SafeSqrt) (1 - Sqr a)).
  assert (Hab : a * a + b * b = 1).
  { assert (Hb : Sqr b = 1 - Sqr a) by (apply SafeSqrt_sqr; unfold Sqr; nra).
    unfold Sqr in Hb. lra. }
  pose proof (COS_bound (2 * Pi * snd u)) as Hq.
  pose proof (tilted_sine_bound a b (cos (2 * Pi * snd u)) sp cp Hab Hsc Hq) as Hsi.
  set (si := - a * sp + b * cos (2 * Pi * snd u) * Rabs cp) in *.
  set (ci := H.(SafeSqrt) (1 - Sqr si)).
  assert (Hci : Sqr ci = 1 - Sqr si) by (apply SafeSqrt_sqr; unfold Sqr; lra).
  eexists. split; [reflexivity|]. cbn [BSDFSample.wi].
  unfold LengthSquared, Dot. cbn [x y z].
  match goal with
  | |- context [cos ?phi] => pose proof (sin2_cos2 phi) as Hphi; set (t := phi) in *
  end.
  unfold Rsqr in Hphi. unfold Sqr in Hci.
  replace (si * si + ci * cos t * (ci * cos t) + ci * sin t * (ci * sin t))
    with (si * si + ci * ci * (sin t * sin t + cos t * cos t)) by ring.
  rewrite Hphi. lra.
Qed.

End Direction.

Lemma example_SafeSqrt r : 0 <= r -> Sqr (Instances.SafeSqrt r) = r.
Proof.
  intros Hr. unfold Sqr, Instances.SafeSqrt.
  rewrite Rmax_right by exact Hr. apply sqrt_sqrt, Hr.
Qed.

Lemma example_variances p :
  (p <= 3)%nat -> 0 < idx Instances.fiber.(v) p.
Proof.
  intros Hp. destruct p as [|[|[|[|p]]]]; try lia; cbn; lra.
Qed.

Lemma example_tables k :
  (k < 3)%nat ->
  Sqr (idx Instances.fiber.(sin2kAlpha) k)
  + Sqr (idx Instances.fiber.(cos2kAlpha) k) = 1.
Proof.
  intros Hk. destruct k as [|[|[|k]]]; try lia; unfold Sqr; cbn; lra.
Qed.

Lemma Sample_f_unit_direction_witness :
  exists bs,
    Sample_f (Instances.helpers Instances.flat_lobe Instances.no_phase)
             Instances.fiber (mkVector3f 0 1 0) (1 / 2) (1 / 2, 1 / 4)
             Radiance BxDFReflTransFlags.All = Some bs
    /\ LengthSquared bs.(BSDFSample.wi) = 1.
Proof.
  apply (Sample_f_unit_direction
           (Instances.helpers Instances.flat_lobe Instances.no_phase)
           Instances.fiber example_SafeSqrt (fun r => eq_refl)
           (fun weights uc Hw => Hw) example_variances example_tables).
  - cbn [x]. lra.
  - cbn [fst]. lra.
Defined.

End HairDirectionFacts.

(** ** The reflectance estimate *)

Module RhoFacts.
Import BxDF.

Lemma add_within (a b : SampledSpectrum.t) n K M :
  length a = n -> length b = n -> within 0 K a -> within 0 M b ->
  length (SampledSpectrum.add a b) = n
  /\ within 0 (K + M) (SampledSpectrum.add a b).
Proof.
  unfold within, SampledSpectrum.add, SampledSpectrum.zip.
  revert b n. induction a as [|c a IH]; intros [|d b] n Ha Hb HA HB;
    cbn in *; subst n; try discriminate; [split; [reflexivity|constructor]|].
  inversion HA; inversion HB; subst.
  destruct (IH b (length a)) as [Hl HF]; [reflexivity|lia|assumption|assumption|].
  split; [cbn; f_equal; exact Hl|]. constructor; [cbn; lra|exact HF].
Qed.

Lemma const_within n M : 0 <= M -> within 0 M (SampledSpectrum.const n 0).
Proof.
  intros HM. unfold within, SampledSpectrum.const.
  induction n; cbn; constructor; [lra|assumption].
Qed.

Lemma within_weaken lo hi hi' sp : hi <= hi' -> within lo hi sp -> within lo hi' sp.
Proof.
  intros Hh HF. unfold within in *. induction HF; constructor; [lra|assumption].
Qed.

Section Estimate.

Variable NSpectrumSamples : nat.
Variable Sample_f :
  Vector3f -> Float -> Point2f -> TransportMode -> BxDFReflTransFlags.t ->
  option BSDFSample.t.
Variable wo : Vector3f.
Variable M : Float.

Hypothesis M_nonneg : 0 <= M.
Hypothesis weights :
  forall c u bs,
    Sample_f wo c u Radiance BxDFReflTransFlags.All = Some bs ->
    0 < bs.(BSDFSample.pdf) ->
    length bs.(BSDFSample.f) = NSpectrumSamples
    /\ within 0 M
         (SampledSpectrum.div
            (SampledSpectrum.scale bs.(BSDFSample.f)
                                   (AbsCosTheta bs.(BSDFSample.wi)))
            bs.(BSDFSample.pdf)).

(** The sum that the loop of [rho] builds stays below the number of samples
    times the bound. *)
Lemma loop_within (l : list (Float * Point2f)) (r : SampledSpectrum.t) (k : nat) :
  length r = NSpectrumSamples -> within 0 (INR k * M) r ->
  let r' :=
    fold_left
      (fun r ui =>
         match Sample_f wo (fst ui) (snd ui) Radiance BxDFReflTransFlags.All with
         | Some bs =>
             if 0 <? bs.(BSDFSample.pdf)
             then SampledSpectrum.add r
                    (SampledSpectrum.div
                       (SampledSpectrum.scale bs.(BSDFSample.f)
                                              (AbsCosTheta bs.(BSDFSample.wi)))
                       bs.(BSDFSample.pdf))
             else r
         | None => r
         end) l r in
  length r' = NSpectrumSamples /\ within 0 (INR (k + length l) * M) r'.
Proof.
  revert r k. induction l as [|ui l IH]; intros r k Hl Hr; cbn [fold_left length].
  - rewrite Nat.add_0_r. split; assumption.
  - replace (k + S (length l))%nat with (S k + length l)%nat by lia.
    assert (Hstep : within 0 (INR (S k) * M) r).
    { apply within_weaken with (INR k * M); [rewrite S_INR; nra|exact Hr]. }
    destruct (Sample_f wo (fst ui) (snd ui) Radiance BxDFReflTransFlags.All)
      as [bs|] eqn:Hs; [|apply IH; assumption].
    destruct (ltb_spec 0 bs.(BSDFSample.pdf)) as [Hpdf|Hpdf];
      [|apply IH; assumption].
    destruct (weights _ _ _ Hs Hpdf) as [Hlf Hw].
    set (w := SampledSpectrum.div _ _) in *.
    assert (Hlw : length w = NSpectrumSamples).
    { unfold w, SampledSpectrum.div, SampledSpectrum.scale, SampledSpectrum.map.
      rewrite !length_map. exact Hlf. }
    destruct (add_within r w NSpectrumSamples (INR k * M) M Hl Hlw Hr Hw)
      as [Hl' Hr'].
    apply IH; [exact Hl'|]. rewrite S_INR.
    replace ((INR k + 1) * M) with (INR k * M + M) by ring. exact Hr'.
Qed.

(** For a direction off the surface and as many numbers [uc] as points
    [u2], at least one: when every sample of positive density contributes
    a weight [f * |cos theta_i| / pdf] whose entries lie between 0 and [M],
    so do the entries of [rho]. *)
Theorem rho_within_sample_weights (uc : list Float) (u2 : list Point2f) :
  wo.(z) <> 0 -> uc <> [] -> length uc = length u2 ->
  length (rho NSpectrumSamples Sample_f wo uc u2) = NSpectrumSamples
  /\ within 0 M (rho NSpectrumSamples Sample_f wo uc u2).
Proof.
  intros Hz Hne Hlen. unfold rho.
  destruct (eqb_spec wo.(z) 0) as [|_]; [contradiction|]. cbv zeta.
  pose proof (loop_within (combine uc u2) (SampledSpectrum.const NSpectrumSamples 0)
                0%nat) as Hloop.
  cbv zeta in Hloop.
  destruct Hloop as [Hl Hr].
  { unfold SampledSpectrum.const. apply repeat_length. }
  { cbn [INR]. rewrite Rmult_0_l. apply const_within. lra. }
  rewrite length_combine, <- Hlen, Nat.min_id, Nat.add_0_l in Hr.
  set (r := fold_left _ _ _) in *. clearbody r.
  assert (Hn : 0 < INR (length uc)).
  { apply lt_0_INR. destruct uc; [contradiction|cbn; lia]. }
  set (n := INR (length uc)) in *. clearbody n.
  unfold SampledSpectrum.div, SampledSpectrum.map.
  split; [rewrite length_map; exact Hl|].
  unfold within in *. clear Hl. induction Hr as [|c r Hc Hr IH]; cbn;
    constructor; [|exact IH].
  destruct Hc as [Hc0 Hc1]. split.
  - apply Rmult_le_pos; [exact Hc0|left; apply Rinv_0_lt_compat, Hn].
  - apply Rmult_le_reg_r with n; [exact Hn|].
    replace (c / n * n) with c by (field; lra). lra.
Qed.

End Estimate.

Import Instances.

(** The weights of polished glass seen along its normal. *)
Lemma glass_weights c u bs :
  Dielectric.Sample_f 1 normal_reflectance straight_refraction (glass true)
    (mkVector3f 0 0 1) c u Radiance BxDFReflTransFlags.All = Some bs ->
  0 < bs.(BSDFSample.pdf) ->
  length bs.(BSDFSample.f) = 1%nat
  /\ within 0 1
       (SampledSpectrum.div
          (SampledSpectrum.scale bs.(BSDFSample.f)
                                 (AbsCosTheta bs.(BSDFSample.wi)))
          bs.(BSDFSample.pdf)).
Proof.
  unfold Dielectric.Sample_f.
  change (Dielectric.EffectivelySmooth (Dielectric.mfDistrib (glass true)))
    with true.
  rewrite orb_true_r.
  change (BxDFReflTransFlags.has BxDFReflTransFlags.All
            BxDFReflTransFlags.Reflection) with true.
  change (BxDFReflTransFlags.has BxDFReflTransFlags.All
            BxDFReflTransFlags.Transmission) with true.
  cbn [negb]. unfold normal_reflectance, straight_refraction. cbv zeta.
  destruct (eqb_spec (1 / 25) 0); [lra|]. cbn [andb].
  destruct (ltb_spec c (1 / 25 / (1 / 25 + (1 - 1 / 25)))); intros Hs _;
    injection Hs as <-; cbn [BSDFSample.f BSDFSample.wi BSDFSample.pdf];
    unfold AbsCosTheta, CosTheta, Sqr; cbn [x y z SampledSpectrum.const repeat
      SampledSpectrum.div SampledSpectrum.scale SampledSpectrum.map List.map length];
    (split; [reflexivity|]); (apply List.Forall_cons; [|apply List.Forall_nil]);
    rewrite ?Rabs_R1, ?(Rabs_left (-1)) by lra.
  - match goal with
    | |- 0 <= ?e <= 1 => replace e with 1 by (field; lra)
    end. lra.
  - match goal with
    | |- 0 <= ?e <= 1 => replace e with (4 / 9) by (field; lra)
    end. lra.
Qed.

Lemma rho_within_sample_weights_witness :
  length (rho 1 (Dielectric.Sample_f 1 normal_reflectance straight_refraction
                   (glass true))
              (mkVector3f 0 0 1) [1 / 100; 1 / 2] [(0, 0); (0, 0)]) = 1%nat
  /\ within 0 1
       (rho 1 (Dielectric.Sample_f 1 normal_reflectance straight_refraction
                 (glass true))
            (mkVector3f 0 0 1) [1 / 100; 1 / 2] [(0, 0); (0, 0)]).
Proof.
  apply (rho_within_sample_weights 1
           (Dielectric.Sample_f 1 normal_reflectance straight_refraction
              (glass true))
           (mkVector3f 0 0 1) 1 Rle_0_1 glass_weights).
  - cbn [z]. lra.
  - discriminate.
  - reflexivity.
Defined.

End RhoFacts.

